(** * Reference frames of the RDK: a shallow embedding of [referenceframe/frame.go]

    The Go package [referenceframe] defines the [Frame] interface and its
    concrete implementations (static, tail-geometry static, translational,
    rotational, mobile-2D, and the two wrappers).  This development embeds
    those definitions and proves properties of them.

    Conventions.
    - [float64] is Rocq's primitive binary64 float; [<], [>] and [==] of Go are
      [PrimFloat.ltb] (flipped for [>]) and [PrimFloat.eqb].
    - A Go [error] is modelled by its message ([Error()]); a possibly-nil
      error is [option error].
    - A Go call either returns or panics (index out of range, nil
      dereference): [outcome].
    - Code of other packages that the file calls is either written out (the
      small vector functions of [r3]), or kept abstract behind a type class,
      one class per package.
    - [float64] products and sums are each rounded to nearest, ties to even
      (no fused multiply-add). *)

From Stdlib Require Import Floats String Ascii List Bool Arith ZArith Lia DecimalString.

#[local] Open Scope nat_scope.
Import ListNotations.

(** ** Go runtime: a call returns a value or panics *)

Inductive outcome (A : Type) : Type :=
| Returns (a : A)
| Panics.

Arguments Returns {A} a.
Arguments Panics {A}.

(** A Go [error] value, identified by the text of [err.Error()]. *)
Definition error := string.

(** ** Package [strings] *)

Module strings.

(** [strings.HasPrefix(s, prefix)] *)
Fixpoint HasPrefix (s prefix : string) {struct prefix} : bool :=
  match prefix, s with
  | EmptyString, _ => true
  | String _ _, EmptyString => false
  | String a prefix', String b s' => Ascii.eqb a b && HasPrefix s' prefix'
  end.

(** [strings.Contains(s, substr)]: [substr] occurs in [s] at some offset. *)
Fixpoint Contains (s substr : string) : bool :=
  HasPrefix s substr
  || match s with
     | EmptyString => false
     | String _ s' => Contains s' substr
     end.

End strings.

(** ** Package [fmt] *)

Module fmt.

(** [fmt.Sprint(i)] and the verb [%d] for a non-negative [int]. *)
Definition Sprint (i : nat) : string := NilEmpty.string_of_uint (Nat.to_uint i).

(** The text [fmt] produces for a [float64] under a verb depends on decimal
    conversion, which is left abstract: [Sprintf_5f v] is
    [fmt.Sprintf("%.5f", v)]. *)
Class Formatter := { Sprintf_5f : float -> string }.

(** [%.5f] applied to a [[]float64]: the elements, each under the verb,
    separated by spaces inside brackets. *)
Fixpoint Sprintf_5f_elems `{Formatter} (l : list float) : string :=
  match l with
  | [] => ""
  | [x] => Sprintf_5f x
  | x :: rest => Sprintf_5f x ++ " " ++ Sprintf_5f_elems rest
  end.

Definition Sprintf_5f_slice `{Formatter} (l : list float) : string :=
  "[" ++ Sprintf_5f_elems l ++ "]".

End fmt.

(** ** Package [multierr] *)

Module multierr.

(** [multierr.AppendInto(&into, err)] for a non-nil [err]: the first error is
    kept as it is, later ones are joined; the combined error prints its
    parts separated by [; ]. *)
Definition AppendInto (into : option error) (err : error) : option error :=
  match into with
  | None => Some err
  | Some e => Some (e ++ "; " ++ err)%string
  end.

End multierr.

(** ** Package [r3] (github.com/golang/geo): vectors of three [float64] *)

Module r3.

Record Vector := { X : float; Y : float; Z : float }.

(** [r3.Vector{}] *)
Definition zero : Vector := {| X := 0; Y := 0; Z := 0 |}.

(** [v.Mul(m)] *)
Definition Mul (v : Vector) (m : float) : Vector :=
  {| X := m * X v; Y := m * Y v; Z := m * Z v |}.

(** [v.Dot(ov)] *)
Definition Dot (v ov : Vector) : float :=
  X v * X ov + Y v * Y ov + Z v * Z ov.

(** [v.Norm2()] *)
Definition Norm2 (v : Vector) : float := Dot v v.

(** [v.Normalize()] *)
Definition Normalize (v : Vector) : Vector :=
  let n2 := Norm2 v in
  if (n2 =? 0)%float then {| X := 0; Y := 0; Z := 0 |}
  else Mul v (1 / sqrt n2).

End r3.

(** ** Package [spatialmath] (imported as [spatial])

    The package is not part of the sources at hand.  Its data types are
    modelled from the specification; the operations whose results depend on
    trigonometry, on geometry internals or on the config encodings stay
    abstract in the class [Package]. *)

Module spatial.

(** Modelled from the spec: [R4AA] is missing from the sources; section 3
    describes it as an axis-angle, an angle in radians plus an axis.  The
    field order is the one of the literal in [rotationalFrame.Transform]. *)
Record R4AA := { Theta : float; RX : float; RY : float; RZ : float }.

(** Modelled from the spec: [Orientation] is missing from the sources;
    section 3 describes one logical value with several representations, the
    quaternion being canonical.  Only the representations that the frame
    code builds are listed. *)
Inductive Orientation :=
| Quaternion (Real Imag Jmag Kmag : float)
| AxisAngle (aa : R4AA).

(** The identity rotation. *)
Definition NewZeroOrientation : Orientation := Quaternion 1 0 0 0.

(** Modelled from the spec: [Pose] is missing from the sources; section 3
    describes it as a translation (a 3-vector) combined with an
    orientation.  A nil [Pose] is [None] of [option Pose]. *)
Record Pose := { Point : r3.Vector; PoseOrientation : Orientation }.

(** Modelled from the spec: the zero pose is the identity of composition. *)
Definition NewZeroPose : Pose :=
  {| Point := r3.zero; PoseOrientation := NewZeroOrientation |}.

(** Modelled from the spec: a pose that only translates, by [point]. *)
Definition NewPoseFromPoint (point : r3.Vector) : Pose :=
  {| Point := point; PoseOrientation := NewZeroOrientation |}.

(** Modelled from the spec: a pose that only rotates, by [o]. *)
Definition NewPoseFromOrientation (o : Orientation) : Pose :=
  {| Point := r3.zero; PoseOrientation := o |}.

(** Modelled from the spec: [R3VectorAlmostEqual] is missing from the
    sources; section 3 gives approximate equality of vectors under an
    epsilon: every elementwise difference is below [epsilon]. *)
Definition R3VectorAlmostEqual (a b : r3.Vector) (epsilon : float) : bool :=
  (abs (r3.X a - r3.X b) <? epsilon)%float
  && (abs (r3.Y a - r3.Y b) <? epsilon)%float
  && (abs (r3.Z a - r3.Z b) <? epsilon)%float.

(** [spatial.AxisConfig{x, y, z}] *)
Definition AxisConfig := r3.Vector.

(** What the frame code uses of the rest of the package: the [Geometry]
    interface ([Transform], [Label], [SetLabel]; [SetLabel] returns the
    relabelled geometry instead of mutating it), the config encodings of
    geometries and orientations, [PoseAlmostEqual], and the in-place
    [R4AA.Normalize], which returns the normalised value here. *)
Class Package := {
  Geometry : Type;
  Transform : Geometry -> Pose -> Geometry;
  Label : Geometry -> string;
  SetLabel : Geometry -> string -> Geometry;
  GeometryConfig : Type;
  NewGeometryConfig : Geometry -> option GeometryConfig * option error;
  OrientationConfig : Type;
  NewOrientationConfig : Orientation -> option OrientationConfig * option error;
  PoseAlmostEqual : Pose -> Pose -> bool;
  Normalize : R4AA -> R4AA
}.

(** The reading side of the config encodings, [ParseConfig] of an
    orientation config and of a geometry config: the value read, or the
    error.  Both are missing from the sources and stay abstract. *)
Class ConfigParser {SP : Package} := {
  OrientationConfig_ParseConfig : OrientationConfig -> Orientation + error;
  GeometryConfig_ParseConfig : GeometryConfig -> Geometry + error
}.

End spatial.

(** ** Package [utils] *)

Module utils.

(** Both functions are missing from the sources and stay abstract. *)
Class Package := {
  Float64AlmostEqual : float -> float -> float -> bool;
  RadToDeg : float -> float
}.

End utils.

(** ** Package [encoding/json] *)

Module json.

(** [json.Marshal(v)] for a value of type [A]. *)
Class Marshaler (A : Type) := {
  Marshal : A -> option (list Byte.byte) * option error
}.

#[global] Hint Mode Marshaler ! : typeclass_instances.

(** [json.Unmarshal(data, &v)] for a value of type [A]: the value read, or
    the error. *)
Class Unmarshaler (A : Type) := {
  Unmarshal : list Byte.byte -> A + error
}.

#[global] Hint Mode Unmarshaler ! : typeclass_instances.

End json.

(** ** Package [math/rand] *)

Module rand.

(** A [*rand.Rand] is a state; [Float64] draws the next value and steps the
    state.  [New_NewSource_1] is [rand.New(rand.NewSource(1))]. *)
Class Package := {
  Rand : Type;
  Float64 : Rand -> float * Rand;
  New_NewSource_1 : Rand
}.

End rand.

(** ** Package [referenceframe] *)

(** [OOBErrString]: the text every out-of-bounds error contains. *)
Definition OOBErrString : string := "input out of bounds".

Record Limit := { Min : float; Max : float }.

(** [Input] is declared in another file of the package; the code at hand
    builds it as [Input{v}] and reads its field [Value]. *)
Record Input := { Value : float }.

(** Declared in the package's error file, which is not part of the sources:
    the constructor of the input-length error and the sentinel returned
    when a frame of more than one degree of freedom is marshalled. *)
Class Errors := {
  NewIncorrectInputLengthError : nat -> nat -> error;
  ErrMarshalingHighDOFFrame : error
}.

(** [err != nil && !strings.Contains(err.Error(), OOBErrString)] *)
Definition notOOB (err : option error) : bool :=
  match err with
  | Some e => negb (strings.Contains e OOBErrString)
  | None => false
  end.

Section Limits.
Context {UP : utils.Package}.

(** The loop of [limitsAlmostEqual]; it runs after the length check, so [b]
    is never the shorter list. *)
Fixpoint limitsAlmostEqual_range (epsilon : float) (a b : list Limit) : bool :=
  match a, b with
  | [], _ => true
  | _ :: _, [] => false
  | x :: a', y :: b' =>
      if negb (utils.Float64AlmostEqual (Min x) (Min y) epsilon)
         || negb (utils.Float64AlmostEqual (Max x) (Max y) epsilon)
      then false
      else limitsAlmostEqual_range epsilon a' b'
  end.

(** [const epsilon = 1e-5] *)
Definition limitsAlmostEqual (a b : list Limit) : bool :=
  if negb (length a =? length b) then false
  else limitsAlmostEqual_range 0x1.4f8b588e368f1p-17 a b.

End Limits.

(** *** [baseFrame] *)

Record baseFrame := { name : string; limits : list Limit }.

Section BaseFrame.
Context {UP : utils.Package} {FP : fmt.Formatter} {EP : Errors}.

(** The error appended for joint [i]:
    [fmt.Errorf("%s %s %s, %s %.5f %s %.5f", "joint", fmt.Sprint(i),
    OOBErrString, "input", inputs[i].Value, "needs to be within range", lim)]
    with [lim := []float64{Max, Min}]. *)
Definition oobError (i : nat) (input : Input) (lim : Limit) : error :=
  ("joint" ++ " " ++ fmt.Sprint i ++ " " ++ OOBErrString ++ ", " ++ "input"
   ++ " " ++ fmt.Sprintf_5f (Value input) ++ " " ++ "needs to be within range"
   ++ " " ++ fmt.Sprintf_5f_slice [Max lim; Min lim])%string.

(** [inputs[i].Value < limits[i].Min || inputs[i].Value > limits[i].Max] *)
Definition violates (input : Input) (lim : Limit) : bool :=
  (Value input <? Min lim)%float || (Max lim <? Value input)%float.

(** The loop of [validInputs] from index [i] on; it runs after the length
    check, over inputs and limits of the same length. *)
Fixpoint validInputs_range (i : nat) (inputs : list Input) (lims : list Limit)
    (errAll : option error) : option error :=
  match inputs, lims with
  | input :: inputs', lim :: lims' =>
      validInputs_range (S i) inputs' lims'
        (if violates input lim
         then multierr.AppendInto errAll (oobError i input lim)
         else errAll)
  | _, _ => errAll
  end.

(** [validInputs]: the length error when the lengths differ, else the
    out-of-bounds errors of all joints, nil when there is none. *)
Definition validInputs (bf : baseFrame) (inputs : list Input) : option error :=
  if negb (length inputs =? length (limits bf))
  then Some (NewIncorrectInputLengthError (length inputs) (length (limits bf)))
  else validInputs_range 0 inputs (limits bf) None.

Definition baseFrame_AlmostEquals (bf other : baseFrame) : bool :=
  String.eqb (name bf) (name other) && limitsAlmostEqual (limits bf) (limits other).

End BaseFrame.

(** *** The frame types *)

Section Frames.
Context {SP : spatial.Package} {UP : utils.Package} {FP : fmt.Formatter}
        {EP : Errors}.

(** The constructors refuse a nil pose, so the field holds a pose; a nil
    [geometry] is [None]. *)
Record staticFrame := {
  sf_baseFrame : baseFrame;
  sf_transform : spatial.Pose;
  sf_geometry : option spatial.Geometry
}.

Record translationalFrame := {
  pf_baseFrame : baseFrame;
  pf_transAxis : r3.Vector;
  pf_geometry : option spatial.Geometry
}.

Record rotationalFrame := {
  rf_baseFrame : baseFrame;
  rf_rotAxis : r3.Vector
}.

Record mobile2DFrame := {
  mf_baseFrame : baseFrame;
  mf_geometry : option spatial.Geometry
}.

(** The values of the interface [Frame] that the file defines: one
    constructor per concrete type, so that a type assertion
    on [otherFrame] is a match on the constructor.  The two wrappers embed
    a [Frame]. *)
Inductive Frame :=
| StaticFrame (sf : staticFrame)
| TailGeometryStaticFrame (sf : staticFrame)
| TranslationalFrame (pf : translationalFrame)
| RotationalFrame (rf : rotationalFrame)
| Mobile2DFrame (mf : mobile2DFrame)
| NoGeometryFrame (inner : Frame)
| NamedFrame (inner : Frame) (nf_name : string).

(** Modelled from the spec: [GeometriesInFrame] and its constructor are
    declared in a file that is not part of the sources; section 3 describes
    the record as a frame name with a list of geometries.  A nil slice is the
    empty list. *)
Record GeometriesInFrame := {
  frame : string;
  geometries : list spatial.Geometry
}.

Definition NewGeometriesInFrame (frame : string) (geometries : list spatial.Geometry)
  : GeometriesInFrame :=
  {| frame := frame; geometries := geometries |}.

(** *** Constructors *)

Definition NewNamedFrame (frame : Frame) (name : string) : Frame :=
  NamedFrame frame name.

Definition NewStaticFrame (name : string) (pose : option spatial.Pose)
  : option Frame * option error :=
  match pose with
  | None => (None, Some "pose is not allowed to be nil"%string)
  | Some pose =>
      (Some (StaticFrame {| sf_baseFrame := {| name := name; limits := [] |};
                            sf_transform := pose;
                            sf_geometry := None |}), None)
  end.

Definition NewZeroStaticFrame (name : string) : Frame :=
  StaticFrame {| sf_baseFrame := {| name := name; limits := [] |};
                 sf_transform := spatial.NewZeroPose;
                 sf_geometry := None |}.

Definition NewStaticFrameWithGeometry (name : string) (pose : option spatial.Pose)
    (geometry : option spatial.Geometry) : option Frame * option error :=
  match pose with
  | None => (None, Some "pose is not allowed to be nil"%string)
  | Some pose =>
      (Some (StaticFrame {| sf_baseFrame := {| name := name; limits := [] |};
                            sf_transform := pose;
                            sf_geometry := geometry |}), None)
  end.

Definition FrameFromPoint (name : string) (point : r3.Vector)
  : option Frame * option error :=
  NewStaticFrame name (Some (spatial.NewPoseFromPoint point)).

Definition NewTranslationalFrameWithGeometry (name : string) (axis : r3.Vector)
    (limit : Limit) (geometry : option spatial.Geometry)
  : option Frame * option error :=
  if spatial.R3VectorAlmostEqual r3.zero axis 0x1.5798ee2308c3ap-27
  then (None, Some "cannot use zero vector as translation axis"%string)
  else (Some (TranslationalFrame
                {| pf_baseFrame := {| name := name; limits := [limit] |};
                   pf_transAxis := r3.Normalize axis;
                   pf_geometry := geometry |}), None).

Definition NewTranslationalFrame (name : string) (axis : r3.Vector) (limit : Limit)
  : option Frame * option error :=
  NewTranslationalFrameWithGeometry name axis limit None.

(** [axis] is a copy of the caller's value; [axis.Normalize()] updates the
    copy in place before its components are read. *)
Definition NewRotationalFrame (name : string) (axis : spatial.R4AA) (limit : Limit)
  : option Frame * option error :=
  let axis := spatial.Normalize axis in
  (Some (RotationalFrame
           {| rf_baseFrame := {| name := name; limits := [limit] |};
              rf_rotAxis := {| r3.X := spatial.RX axis;
                               r3.Y := spatial.RY axis;
                               r3.Z := spatial.RZ axis |} |}), None).

Definition NewMobile2DFrame (name : string) (limits : list Limit)
    (geometry : option spatial.Geometry) : option Frame * option error :=
  if negb (length limits =? 2)
  then (None, Some ("cannot create a " ++ fmt.Sprint (length limits)
                    ++ " dof mobile frame, only support 2 dimensions currently")%string)
  else (Some (Mobile2DFrame {| mf_baseFrame := {| name := name; limits := limits |};
                               mf_geometry := geometry |}), None).

(** *** [Name] and [DoF] *)

(** The concrete frames take [Name] from their [baseFrame]; the no-geometry
    wrapper takes it from the embedded frame; the named wrapper overrides
    it. *)
Fixpoint Name (f : Frame) : string :=
  match f with
  | StaticFrame sf | TailGeometryStaticFrame sf => name (sf_baseFrame sf)
  | TranslationalFrame pf => name (pf_baseFrame pf)
  | RotationalFrame rf => name (rf_baseFrame rf)
  | Mobile2DFrame mf => name (mf_baseFrame mf)
  | NoGeometryFrame inner => Name inner
  | NamedFrame _ nf_name => nf_name
  end.

Fixpoint DoF (f : Frame) : list Limit :=
  match f with
  | StaticFrame sf | TailGeometryStaticFrame sf => limits (sf_baseFrame sf)
  | TranslationalFrame pf => limits (pf_baseFrame pf)
  | RotationalFrame rf => limits (rf_baseFrame rf)
  | Mobile2DFrame mf => limits (mf_baseFrame mf)
  | NoGeometryFrame inner | NamedFrame inner _ => DoF inner
  end.

(** The type switch has cases for the static, the translational and the
    mobile-2D frame; every other frame takes the default. *)
Definition NewStaticFrameFromFrame (frame : Frame) (pose : option spatial.Pose)
  : option Frame * option error :=
  match pose with
  | None => (None, Some "pose is not allowed to be nil"%string)
  | Some _ =>
      match frame with
      | StaticFrame f => NewStaticFrameWithGeometry (Name frame) pose (sf_geometry f)
      | TranslationalFrame f =>
          NewStaticFrameWithGeometry (Name frame) pose (pf_geometry f)
      | Mobile2DFrame f => NewStaticFrameWithGeometry (Name frame) pose (mf_geometry f)
      | _ => NewStaticFrame (Name frame) pose
      end
  end.

(** *** [Transform] *)

Definition staticFrame_Transform (sf : staticFrame) (input : list Input)
  : outcome (option spatial.Pose * option error) :=
  if negb (length input =? 0)
  then Returns (None, Some (NewIncorrectInputLengthError (length input) 0))
  else Returns (Some (sf_transform sf), None).

(** Out-of-bounds inputs are let through: the pose is computed and the error
    returned with it.  [input[0]] panics on an empty slice. *)
Definition translationalFrame_Transform (pf : translationalFrame) (input : list Input)
  : outcome (option spatial.Pose * option error) :=
  let err := validInputs (pf_baseFrame pf) input in
  if notOOB err then Returns (None, err)
  else match input with
       | input0 :: _ =>
           Returns (Some (spatial.NewPoseFromPoint
                            (r3.Mul (pf_transAxis pf) (Value input0))), err)
       | [] => Panics
       end.

Definition rotationalFrame_Transform (rf : rotationalFrame) (input : list Input)
  : outcome (option spatial.Pose * option error) :=
  let err := validInputs (rf_baseFrame rf) input in
  if notOOB err then Returns (None, err)
  else match input with
       | input0 :: _ =>
           Returns (Some (spatial.NewPoseFromOrientation
                            (spatial.AxisAngle
                               {| spatial.Theta := Value input0;
                                  spatial.RX := r3.X (rf_rotAxis rf);
                                  spatial.RY := r3.Y (rf_rotAxis rf);
                                  spatial.RZ := r3.Z (rf_rotAxis rf) |})), err)
       | [] => Panics
       end.

Definition mobile2DFrame_Transform (mf : mobile2DFrame) (input : list Input)
  : outcome (option spatial.Pose * option error) :=
  let err := validInputs (mf_baseFrame mf) input in
  if notOOB err then Returns (None, err)
  else match input with
       | input0 :: input1 :: _ =>
           Returns (Some (spatial.NewPoseFromPoint
                            {| r3.X := Value input0;
                               r3.Y := Value input1;
                               r3.Z := 0 |}), err)
       | _ => Panics
       end.

(** Both wrappers and the tail-geometry frame inherit [Transform] from the
    frame they embed. *)
Fixpoint Transform (f : Frame) (input : list Input)
  : outcome (option spatial.Pose * option error) :=
  match f with
  | StaticFrame sf | TailGeometryStaticFrame sf => staticFrame_Transform sf input
  | TranslationalFrame pf => translationalFrame_Transform pf input
  | RotationalFrame rf => rotationalFrame_Transform rf input
  | Mobile2DFrame mf => mobile2DFrame_Transform mf input
  | NoGeometryFrame inner | NamedFrame inner _ => Transform inner input
  end.

(** *** [Geometries] *)

(** [newGeom.Label() == ""] then [newGeom.SetLabel(name)] *)
Definition labelled (newGeom : spatial.Geometry) (name : string) : spatial.Geometry :=
  if String.eqb (spatial.Label newGeom) "" then spatial.SetLabel newGeom name
  else newGeom.

Definition staticFrame_Geometries (sf : staticFrame) (input : list Input)
  : outcome (option GeometriesInFrame * option error) :=
  match sf_geometry sf with
  | None => Returns (Some (NewGeometriesInFrame (name (sf_baseFrame sf)) []), None)
  | Some geometry =>
      if negb (length input =? 0)
      then Returns (None, Some (NewIncorrectInputLengthError (length input) 0))
      else
        let newGeom := spatial.Transform geometry spatial.NewZeroPose in
        Returns (Some (NewGeometriesInFrame (name (sf_baseFrame sf))
                         [labelled newGeom (name (sf_baseFrame sf))]), None)
  end.

Definition tailGeometryStaticFrame_Geometries (sf : staticFrame) (input : list Input)
  : outcome (option GeometriesInFrame * option error) :=
  match sf_geometry sf with
  | None => Returns (Some (NewGeometriesInFrame (name (sf_baseFrame sf)) []), None)
  | Some geometry =>
      if negb (length input =? 0)
      then Returns (None, Some (NewIncorrectInputLengthError (length input) 0))
      else
        let newGeom := spatial.Transform geometry (sf_transform sf) in
        Returns (Some (NewGeometriesInFrame (name (sf_baseFrame sf))
                         [labelled newGeom (name (sf_baseFrame sf))]), None)
  end.

(** The tail shared by the translational and the mobile-2D frame: place the
    geometry at the pose [Transform] returned, unless the pose is nil or the
    error is not an out-of-bounds one. *)
Definition placed (name : string) (geometry : spatial.Geometry)
    (r : outcome (option spatial.Pose * option error))
  : outcome (option GeometriesInFrame * option error) :=
  match r with
  | Panics => Panics
  | Returns (None, err) => Returns (None, err)
  | Returns (Some pose, err) =>
      if notOOB err then Returns (None, err)
      else Returns (Some (NewGeometriesInFrame name
                            [spatial.Transform geometry pose]), err)
  end.

Definition translationalFrame_Geometries (pf : translationalFrame) (input : list Input)
  : outcome (option GeometriesInFrame * option error) :=
  match pf_geometry pf with
  | None => Returns (Some (NewGeometriesInFrame (name (pf_baseFrame pf)) []), None)
  | Some geometry =>
      placed (name (pf_baseFrame pf)) geometry (translationalFrame_Transform pf input)
  end.

(** [fmt.Errorf("Geometries not implemented for type %T", rf)] with the
    pointer receiver [rf]. *)
Definition rotationalFrame_Geometries (rf : rotationalFrame) (input : list Input)
  : outcome (option GeometriesInFrame * option error) :=
  Returns (None, Some "Geometries not implemented for type *referenceframe.rotationalFrame"%string).

Definition mobile2DFrame_Geometries (mf : mobile2DFrame) (input : list Input)
  : outcome (option GeometriesInFrame * option error) :=
  match mf_geometry mf with
  | None => Returns (Some (NewGeometriesInFrame (name (mf_baseFrame mf)) []), None)
  | Some geometry =>
      placed (name (mf_baseFrame mf)) geometry (mobile2DFrame_Transform mf input)
  end.

(** [namedFrame.Geometries] after the call of the embedded frame: any error
    is returned alone; reading [gif.geometries] of a nil result panics. *)
Definition renamed (nf_name : string)
    (r : outcome (option GeometriesInFrame * option error))
  : outcome (option GeometriesInFrame * option error) :=
  match r with
  | Panics => Panics
  | Returns (_, Some err) => Returns (None, Some err)
  | Returns (Some gif, None) =>
      Returns (Some (NewGeometriesInFrame nf_name (geometries gif)), None)
  | Returns (None, None) => Panics
  end.

Fixpoint Geometries (f : Frame) (input : list Input)
  : outcome (option GeometriesInFrame * option error) :=
  match f with
  | StaticFrame sf => staticFrame_Geometries sf input
  | TailGeometryStaticFrame sf => tailGeometryStaticFrame_Geometries sf input
  | TranslationalFrame pf => translationalFrame_Geometries pf input
  | RotationalFrame rf => rotationalFrame_Geometries rf input
  | Mobile2DFrame mf => mobile2DFrame_Geometries mf input
  | NoGeometryFrame inner => Returns (Some (NewGeometriesInFrame (Name inner) []), None)
  | NamedFrame inner nf_name => renamed nf_name (Geometries inner input)
  end.

(** *** [AlmostEquals] *)

Definition staticFrame_AlmostEquals (sf : staticFrame) (otherFrame : Frame) : bool :=
  match otherFrame with
  | StaticFrame other =>
      baseFrame_AlmostEquals (sf_baseFrame sf) (sf_baseFrame other)
      && spatial.PoseAlmostEqual (sf_transform sf) (sf_transform other)
  | _ => false
  end.

Definition translationalFrame_AlmostEquals (pf : translationalFrame) (otherFrame : Frame)
  : bool :=
  match otherFrame with
  | TranslationalFrame other =>
      baseFrame_AlmostEquals (pf_baseFrame pf) (pf_baseFrame other)
      && spatial.R3VectorAlmostEqual (pf_transAxis pf) (pf_transAxis other)
           0x1.5798ee2308c3ap-27
  | _ => false
  end.

Definition rotationalFrame_AlmostEquals (rf : rotationalFrame) (otherFrame : Frame)
  : bool :=
  match otherFrame with
  | RotationalFrame other =>
      baseFrame_AlmostEquals (rf_baseFrame rf) (rf_baseFrame other)
      && spatial.R3VectorAlmostEqual (rf_rotAxis rf) (rf_rotAxis other)
           0x1.5798ee2308c3ap-27
  | _ => false
  end.

(** The type assertion of the source is on the rotational frame. *)
Definition mobile2DFrame_AlmostEquals (mf : mobile2DFrame) (otherFrame : Frame) : bool :=
  match otherFrame with
  | RotationalFrame other =>
      baseFrame_AlmostEquals (mf_baseFrame mf) (rf_baseFrame other)
  | _ => false
  end.

(** The tail-geometry frame and both wrappers define no [AlmostEquals] of
    their own: the call goes to the frame they embed. *)
Fixpoint AlmostEquals (f otherFrame : Frame) : bool :=
  match f with
  | StaticFrame sf | TailGeometryStaticFrame sf => staticFrame_AlmostEquals sf otherFrame
  | TranslationalFrame pf => translationalFrame_AlmostEquals pf otherFrame
  | RotationalFrame rf => rotationalFrame_AlmostEquals rf otherFrame
  | Mobile2DFrame mf => mobile2DFrame_AlmostEquals mf otherFrame
  | NoGeometryFrame inner | NamedFrame inner _ => AlmostEquals inner otherFrame
  end.

(** *** [MarshalJSON] *)

(** Modelled from the spec: [LinkConfig] and [JointConfig] are declared in a
    file that is not part of the sources; section 4.F lists their fields.
    The source sets the fields named in its struct literals and leaves
    [Parent] at its zero value. *)
Record LinkConfig := {
  lc_ID : string;
  lc_Parent : string;
  lc_Translation : r3.Vector;
  lc_Orientation : option spatial.OrientationConfig;
  lc_Geometry : option spatial.GeometryConfig
}.

Record JointConfig := {
  jc_ID : string;
  jc_Type : string;
  jc_Parent : string;
  jc_Axis : spatial.AxisConfig;
  jc_Max : float;
  jc_Min : float;
  jc_Geometry : option spatial.GeometryConfig
}.

(** Modelled from the spec: the joint types of section 6. *)
Definition PrismaticJoint : string := "prismatic".
Definition RevoluteJoint : string := "revolute".

Context {JL : json.Marshaler LinkConfig} {JJ : json.Marshaler JointConfig}.

Definition staticFrame_MarshalJSON (sf : staticFrame)
  : outcome (option (list Byte.byte) * option error) :=
  match spatial.NewOrientationConfig (spatial.PoseOrientation (sf_transform sf)) with
  | (_, Some err) => Returns (None, Some err)
  | (orientationConfig, None) =>
      match sf_geometry sf with
      | None =>
          Returns (json.Marshal
                     {| lc_ID := name (sf_baseFrame sf);
                        lc_Parent := "";
                        lc_Translation := spatial.Point (sf_transform sf);
                        lc_Orientation := orientationConfig;
                        lc_Geometry := None |})
      | Some geometry =>
          match spatial.NewGeometryConfig geometry with
          | (_, Some err) => Returns (None, Some err)
          | (geometryConfig, None) =>
              Returns (json.Marshal
                         {| lc_ID := name (sf_baseFrame sf);
                            lc_Parent := "";
                            lc_Translation := spatial.Point (sf_transform sf);
                            lc_Orientation := orientationConfig;
                            lc_Geometry := geometryConfig |})
          end
      end
  end.

(** [pf.limits[0]] panics when the frame has no limit. *)
Definition translationalFrame_MarshalJSON (pf : translationalFrame)
  : outcome (option (list Byte.byte) * option error) :=
  if 1 <? length (limits (pf_baseFrame pf))
  then Returns (None, Some ErrMarshalingHighDOFFrame)
  else
    match limits (pf_baseFrame pf) with
    | [] => Panics
    | limit0 :: _ =>
        let temp geometryConfig :=
          {| jc_ID := name (pf_baseFrame pf);
             jc_Type := PrismaticJoint;
             jc_Parent := "";
             jc_Axis := {| r3.X := r3.X (pf_transAxis pf);
                           r3.Y := r3.Y (pf_transAxis pf);
                           r3.Z := r3.Z (pf_transAxis pf) |};
             jc_Max := Max limit0;
             jc_Min := Min limit0;
             jc_Geometry := geometryConfig |} in
        match pf_geometry pf with
        | None => Returns (json.Marshal (temp None))
        | Some geometry =>
            match spatial.NewGeometryConfig geometry with
            | (_, Some err) => Returns (None, Some err)
            | (geometryConfig, None) => Returns (json.Marshal (temp geometryConfig))
            end
        end
    end.

Definition rotationalFrame_MarshalJSON (rf : rotationalFrame)
  : outcome (option (list Byte.byte) * option error) :=
  if 1 <? length (limits (rf_baseFrame rf))
  then Returns (None, Some ErrMarshalingHighDOFFrame)
  else
    match limits (rf_baseFrame rf) with
    | [] => Panics
    | limit0 :: _ =>
        Returns (json.Marshal
                   {| jc_ID := name (rf_baseFrame rf);
                      jc_Type := RevoluteJoint;
                      jc_Parent := "";
                      jc_Axis := {| r3.X := r3.X (rf_rotAxis rf);
                                    r3.Y := r3.Y (rf_rotAxis rf);
                                    r3.Z := r3.Z (rf_rotAxis rf) |};
                      jc_Max := utils.RadToDeg (Max limit0);
                      jc_Min := utils.RadToDeg (Min limit0);
                      jc_Geometry := None |})
    end.

(** [fmt.Errorf("MarshalJSON not implemented for type %T", mf)] with the
    value receiver [mf]. *)
Definition mobile2DFrame_MarshalJSON (mf : mobile2DFrame)
  : outcome (option (list Byte.byte) * option error) :=
  Returns (None, Some "MarshalJSON not implemented for type referenceframe.mobile2DFrame"%string).

Fixpoint MarshalJSON (f : Frame) : outcome (option (list Byte.byte) * option error) :=
  match f with
  | StaticFrame sf | TailGeometryStaticFrame sf => staticFrame_MarshalJSON sf
  | TranslationalFrame pf => translationalFrame_MarshalJSON pf
  | RotationalFrame rf => rotationalFrame_MarshalJSON rf
  | Mobile2DFrame mf => mobile2DFrame_MarshalJSON mf
  | NoGeometryFrame inner | NamedFrame inner _ => MarshalJSON inner
  end.

(** *** Random inputs *)

Context {RP : rand.Package}.

(** A limit's bounds as the sampling loops use them: an infinite bound
    defaults to 999 in its direction. *)
Definition sampleLower (lim : Limit) : float :=
  if (Min lim =? neg_infinity)%float then (-999)%float else Min lim.

Definition sampleUpper (lim : Limit) : float :=
  if (Max lim =? infinity)%float then 999%float else Max lim.

(** The loop of [RandomFrameInputs] over the limits still to visit; [pos]
    is the slice appended to, [rSeed] the state of the generator. *)
Fixpoint RandomFrameInputs_range (dof : list Limit) (rSeed : rand.Rand)
    (pos : list Input) : list Input * rand.Rand :=
  match dof with
  | [] => (pos, rSeed)
  | lim :: dof' =>
      let l := sampleLower lim in
      let u := sampleUpper lim in
      let (r, rSeed') := rand.Float64 rSeed in
      RandomFrameInputs_range dof' rSeed'
        (pos ++ [{| Value := (r * (u - l) + l)%float |}])
  end.

(** A nil [rSeed] is replaced by a generator seeded with 1.  The result is
    the slice returned, paired with the state the generator is left in. *)
Definition RandomFrameInputs (m : Frame) (rSeed : option rand.Rand)
  : list Input * rand.Rand :=
  let rSeed := match rSeed with
               | None => rand.New_NewSource_1
               | Some rSeed => rSeed
               end in
  RandomFrameInputs_range (DoF m) rSeed [].

Fixpoint RestrictedRandomFrameInputs_range (lim : float) (dof : list Limit)
    (rSeed : rand.Rand) (pos : list Input) : list Input * rand.Rand :=
  match dof with
  | [] => (pos, rSeed)
  | limit :: dof' =>
      let l := sampleLower limit in
      let u := sampleUpper limit in
      let span := (u - l)%float in
      let (r, rSeed') := rand.Float64 rSeed in
      RestrictedRandomFrameInputs_range lim dof' rSeed'
        (pos ++ [{| Value := (lim * span * r + l + span * (1 - lim) / 2)%float |}])
  end.

Definition RestrictedRandomFrameInputs (m : Frame) (rSeed : option rand.Rand)
    (lim : float) : list Input * rand.Rand :=
  let rSeed := match rSeed with
               | None => rand.New_NewSource_1
               | Some rSeed => rSeed
               end in
  RestrictedRandomFrameInputs_range lim (DoF m) rSeed [].

End Frames.

(** ** A sample implementation of the abstract packages

    The theorems below hold for every implementation of the classes.  To
    run the definitions on concrete frames, this module supplies one:
    geometries that record their label and the poses applied to them, config
    encodings that keep the value as it is, a decimal printer for [%.5f], an
    encoder that stands in for [encoding/json], and a generator that replays
    a given list of draws. *)

Module Sample.

Record Geometry := { label : string; placements : list spatial.Pose }.

Definition float_eqb (a b : float) : bool := (a =? b)%float.

Definition orientation_eqb (a b : spatial.Orientation) : bool :=
  match a, b with
  | spatial.Quaternion r i j k, spatial.Quaternion r' i' j' k' =>
      float_eqb r r' && float_eqb i i' && float_eqb j j' && float_eqb k k'
  | spatial.AxisAngle a, spatial.AxisAngle b =>
      float_eqb (spatial.Theta a) (spatial.Theta b)
      && float_eqb (spatial.RX a) (spatial.RX b)
      && float_eqb (spatial.RY a) (spatial.RY b)
      && float_eqb (spatial.RZ a) (spatial.RZ b)
  | _, _ => false
  end.

(** Scales the axis to unit length and leaves a zero axis as it is. *)
Definition R4AA_Normalize (r4 : spatial.R4AA) : spatial.R4AA :=
  let norm := sqrt (spatial.RX r4 * spatial.RX r4 + spatial.RY r4 * spatial.RY r4
                    + spatial.RZ r4 * spatial.RZ r4)%float in
  if (norm =? 0)%float then r4
  else {| spatial.Theta := spatial.Theta r4;
          spatial.RX := (spatial.RX r4 / norm)%float;
          spatial.RY := (spatial.RY r4 / norm)%float;
          spatial.RZ := (spatial.RZ r4 / norm)%float |}.

#[export] Instance spatialPackage : spatial.Package := {|
  spatial.Geometry := Geometry;
  spatial.Transform g pose := {| label := label g; placements := pose :: placements g |};
  spatial.Label := label;
  spatial.SetLabel g l := {| label := l; placements := placements g |};
  spatial.GeometryConfig := Geometry;
  spatial.NewGeometryConfig g := (Some g, None);
  spatial.OrientationConfig := spatial.Orientation;
  spatial.NewOrientationConfig o := (Some o, None);
  spatial.PoseAlmostEqual a b :=
    spatial.R3VectorAlmostEqual (spatial.Point a) (spatial.Point b) 0x1.5798ee2308c3ap-27
    && orientation_eqb (spatial.PoseOrientation a) (spatial.PoseOrientation b);
  spatial.Normalize := R4AA_Normalize
|}.

#[export] Instance utilsPackage : utils.Package := {|
  utils.Float64AlmostEqual a b epsilon :=
    ((a - b <? epsilon) && (b - a <? epsilon))%float;
  utils.RadToDeg radians := (radians * 180 / 0x1.921fb54442d18p+1)%float
|}.

(** Decimal printing of a non-negative integer. *)
Definition decimal (z : Z) : string :=
  NilEmpty.string_of_uint (N.to_uint (Z.to_N z)).

(** [n / d] rounded to the nearest integer, ties to even. *)
Definition div_half_even (n d : Z) : Z :=
  let q := (n / d)%Z in
  let r := (n mod d)%Z in
  if (2 * r <? d)%Z then q
  else if (d <? 2 * r)%Z then (q + 1)%Z
  else if Z.even q then q else (q + 1)%Z.

Fixpoint zeros (n : nat) : string :=
  match n with
  | O => ""
  | S n => String "0" (zeros n)
  end.

(** [%.5f]: five digits after the point, the value rounded to nearest. *)
Definition format_5f (x : float) : string :=
  match Prim2SF x with
  | S754_nan => "NaN"
  | S754_infinity false => "+Inf"
  | S754_infinity true => "-Inf"
  | S754_zero s => (if s then "-" else "") ++ "0.00000"
  | S754_finite s m e =>
      let num := (Zpos m * 100000)%Z in
      let scaled := if (0 <=? e)%Z then (num * 2 ^ e)%Z
                    else div_half_even num (2 ^ (- e))%Z in
      let frac := decimal (scaled mod 100000)%Z in
      (if s then "-" else "") ++ decimal (scaled / 100000)%Z ++ "."
      ++ zeros (5 - String.length frac) ++ frac
  end%string.

#[export] Instance formatter : fmt.Formatter := {| fmt.Sprintf_5f := format_5f |}.

#[export] Instance errors : Errors := {|
  NewIncorrectInputLengthError actual expected :=
    ("number of inputs does not match frame DoF, expected " ++ fmt.Sprint expected
     ++ " but got " ++ fmt.Sprint actual)%string;
  ErrMarshalingHighDOFFrame := "cannot marshal frame with >1 DOF, use a Model instead"%string
|}.

(** No character of [s] is the letter [i]. *)
Fixpoint no_i (s : string) : bool :=
  match s with
  | EmptyString => true
  | String c s' => negb (Ascii.eqb "i" c) && no_i s'
  end.

(** A stand-in for the JSON encoder: it keeps the bytes of the record's
    [ID] and never fails. *)
#[export] Instance linkMarshaler : json.Marshaler LinkConfig := {|
  json.Marshal c := (Some (list_byte_of_string (lc_ID c)), None)
|}.

#[export] Instance jointMarshaler : json.Marshaler JointConfig := {|
  json.Marshal c := (Some (list_byte_of_string (jc_ID c)), None)
|}.

(** A generator that replays the draws it is given, then yields 0. *)
#[export] Instance randPackage : rand.Package := {|
  rand.Rand := list float;
  rand.Float64 r := match r with
                    | [] => (0%float, [])
                    | x :: r' => (x, r')
                    end;
  rand.New_NewSource_1 := [0.5%float; 0.25%float; 0.75%float]
|}.

(** Sample frames. *)

Definition box : Geometry := {| label := "box"; placements := [] |}.

Definition gantry : translationalFrame :=
  {| pf_baseFrame := {| name := "gantry"; limits := [{| Min := 0; Max := 10 |}] |};
     pf_transAxis := {| r3.X := 0; r3.Y := 0; r3.Z := 1 |};
     pf_geometry := Some box |}.

Definition elbow : rotationalFrame :=
  {| rf_baseFrame := {| name := "elbow"; limits := [{| Min := -3; Max := 3 |}] |};
     rf_rotAxis := {| r3.X := 0; r3.Y := 0; r3.Z := 1 |} |}.

Definition rover : mobile2DFrame :=
  {| mf_baseFrame := {| name := "rover";
                        limits := [{| Min := -5; Max := 5 |}; {| Min := -5; Max := 5 |}] |};
     mf_geometry := None |}.

Definition pedestal : staticFrame :=
  {| sf_baseFrame := {| name := "pedestal"; limits := [] |};
     sf_transform := spatial.NewPoseFromPoint {| r3.X := 1; r3.Y := 2; r3.Z := 0 |};
     sf_geometry := None |}.

(** The translational frame that the constructor builds from the axis
    [(0, 3, 4)]: the stored axis is [(0, 3, 4)] scaled by [1 / sqrt 25]. *)
Definition tilted : translationalFrame :=
  {| pf_baseFrame := {| name := "gantry"; limits := [{| Min := 0; Max := 10 |}] |};
     pf_transAxis := {| r3.X := 0; r3.Y := 0x1.3333333333334p-1; r3.Z := 0x1.999999999999ap-1 |};
     pf_geometry := Some box |}.

(** The translational frame that the constructor builds from the axis
    [(1e200, 0, 0)]. *)
Definition collapsed : translationalFrame :=
  {| pf_baseFrame := {| name := "gantry"; limits := [{| Min := 0; Max := 10 |}] |};
     pf_transAxis := {| r3.X := 0; r3.Y := 0; r3.Z := 0 |};
     pf_geometry := None |}.

End Sample.

(** ** Vocabulary of the statements *)

(** An error is tagged when it is nil or its text carries [OOBErrString]. *)
Definition tagged (err : option error) : Prop :=
  match err with
  | Some e => strings.Contains e OOBErrString = true
  | None => True
  end.

(** Some input lies outside the limit at its index. *)
Definition outOfBounds (inputs : list Input) (lims : list Limit) : bool :=
  existsb (fun p => violates (fst p) (snd p)) (combine inputs lims).

(** The limit that restricts nothing. *)
Definition unrestrictedLimit : Limit := {| Min := neg_infinity; Max := infinity |}.

Definition unrestrictedBase (bf : baseFrame) : baseFrame :=
  {| name := name bf; limits := map (fun _ => unrestrictedLimit) (limits bf) |}.

Section Vocabulary.
Context {SP : spatial.Package}.

(** The frames that take inputs, with the number of limits their
    constructors give them: one for a translational and for a rotational
    frame, two for a mobile-2D frame. *)
Definition jointFrame (f : Frame) : bool :=
  match f with
  | TranslationalFrame pf => length (limits (pf_baseFrame pf)) =? 1
  | RotationalFrame rf => length (limits (rf_baseFrame rf)) =? 1
  | Mobile2DFrame mf => length (limits (mf_baseFrame mf)) =? 2
  | _ => false
  end.

(** The same frame with every limit lifted. *)
Definition unrestricted (f : Frame) : Frame :=
  match f with
  | TranslationalFrame pf =>
      TranslationalFrame {| pf_baseFrame := unrestrictedBase (pf_baseFrame pf);
                            pf_transAxis := pf_transAxis pf;
                            pf_geometry := pf_geometry pf |}
  | RotationalFrame rf =>
      RotationalFrame {| rf_baseFrame := unrestrictedBase (rf_baseFrame rf);
                         rf_rotAxis := rf_rotAxis rf |}
  | Mobile2DFrame mf =>
      Mobile2DFrame {| mf_baseFrame := unrestrictedBase (mf_baseFrame mf);
                       mf_geometry := mf_geometry mf |}
  | _ => f
  end.

(** [v] lies in the closed range of [lim]. *)
Definition withinLimit (v : Input) (lim : Limit) : bool :=
  (Min lim <=? Value v)%float && (Value v <=? Max lim)%float.

Context {RP : rand.Package}.

(** The generator a sampling function uses: the one given, or the one
    seeded with 1 when none is given. *)
Definition seedOf (rSeed : option rand.Rand) : rand.Rand :=
  match rSeed with
  | None => rand.New_NewSource_1
  | Some rSeed => rSeed
  end.

(** The first [n] draws of a generator, and the state after them. *)
Fixpoint draws (n : nat) (rSeed : rand.Rand) : list float * rand.Rand :=
  match n with
  | O => ([], rSeed)
  | S n =>
      let (r, rSeed') := rand.Float64 rSeed in
      let (rs, rSeed'') := draws n rSeed' in
      (r :: rs, rSeed'')
  end.

End Vocabulary.

(** ** The values of [float64]

    Vocabulary for following the rounding of [float64] arithmetic.  A finite
    float of mantissa [m] and exponent [e] is measured by the integer
    [m * 2^(e + K)]: with [K = 2148] this is an integer for every float and
    for every product of two floats, so that sums, differences and products
    are rounded from exact integers. *)

Module binary64.
#[local] Open Scope Z_scope.

(** The scale of the integer values. *)
Definition K : Z := 2148.

(** The state of [SpecFloat.shr] after [k] steps on the mantissa [m0]. *)
Definition shr_state (m0 : Z) (k : nat) : shr_record :=
  Nat.iter k shr_1 {| shr_m := m0; shr_r := false; shr_s := false |}.

(** [N / 2^G] rounded to the nearest integer, ties to even. *)
Definition rne (N G : Z) : Z :=
  let q := N / 2 ^ G in
  let r := N mod 2 ^ G in
  if 2 * r <? 2 ^ G then q
  else if 2 ^ G <? 2 * r then q + 1
  else if Z.even q then q else q + 1.

(** The exponent of the last mantissa bit of the floats around the scaled
    value [N]: 53 bits of precision, and no finer than the subnormals. *)
Definition grid (N : Z) : Z := Z.max (Z.log2 N - 52) 1074.

(** A scaled value [0 <= N] rounded to [float64] (not capped: a result of
    [2^(1024 + K)] or more stands for an overflow). *)
Definition RN (N : Z) : Z := rne N (grid N) * 2 ^ grid N.

(** The same for a value of either sign. *)
Definition RNs (N : Z) : Z := if N <? 0 then - RN (- N) else RN N.

(** [x] is the float of sign [s] and scaled magnitude [V], an infinity when
    [V] is beyond the finite floats. *)
Definition represents (x : spec_float) (s : bool) (V : Z) : Prop :=
  match x with
  | S754_zero s' => s' = s /\ V = 0
  | S754_finite s' m e =>
      s' = s /\ Zpos m * 2 ^ (e + K) = V /\ V < 2 ^ (1024 + K) /\ -1074 <= e
  | S754_infinity s' => s' = s /\ 2 ^ (1024 + K) <= V
  | S754_nan => False
  end.

(** The scaled value of a finite float. *)
Definition fval (x : spec_float) : Z :=
  match x with
  | S754_finite s m e => cond_Zopp s (Zpos m * 2 ^ (e + K))
  | _ => 0
  end.

Definition finite (x : spec_float) : bool :=
  match x with
  | S754_finite _ _ _ | S754_zero _ => true
  | _ => false
  end.

(** [x] is the float of signed scaled value [V], whatever the sign of a
    zero. *)
Definition has_value (x : spec_float) (V : Z) : Prop :=
  match x with
  | S754_zero _ => V = 0
  | S754_finite _ _ _ => fval x = V /\ Z.abs V < 2 ^ (1024 + K)
  | S754_infinity s => if s then V <= - 2 ^ (1024 + K) else 2 ^ (1024 + K) <= V
  | S754_nan => False
  end.

End binary64.

(** ** Joint positions on the wire

    [pb] is the generated code of [go.viam.com/api/component/arm/v1]; it is
    not part of the sources.  The frame code reads the field [Values] of a
    [*pb.JointPositions] and builds [&pb.JointPositions{Values: n}]: the
    message is the list of its values, and a nil message is [None]. *)

Module pb.

Record JointPositions := { Values : list float }.

End pb.

(** [utils.DegToRad] is missing from the sources, like [utils.RadToDeg], and
    stays abstract. *)
Module degrees.

Class Package := { DegToRad : float -> float }.

End degrees.

(** *** Slices filled by index *)

Section Slices.
Context {A B : Type}.

(** [n[idx] = v]; an index out of range panics. *)
Definition store (n : list B) (idx : nat) (v : B) : outcome (list B) :=
  if idx <? length n then Returns (firstn idx n ++ v :: skipn (S idx) n)
  else Panics.

(** [for idx, x := range xs { n[idx] = f(x) }], from the index [idx] on. *)
Fixpoint fill_range (f : A -> B) (idx : nat) (xs : list A) (n : list B)
  : outcome (list B) :=
  match xs with
  | [] => Returns n
  | x :: xs' =>
      match store n idx (f x) with
      | Returns n' => fill_range f (S idx) xs' n'
      | Panics => Panics
      end
  end.

(** [n := make([]B, len(xs))] followed by that loop; [zero] is the zero
    value of [B]. *)
Definition fill (zero : B) (f : A -> B) (xs : list A) : outcome (list B) :=
  fill_range f 0 xs (repeat zero (length xs)).

End Slices.

(** *** [InputFromProtobuf] and [ProtobufFromInput] *)

Section Protobuf.
Context {SP : spatial.Package} {UP : utils.Package} {DP : degrees.Package}.

Definition staticFrame_InputFromProtobuf (sf : staticFrame)
    (jp : option pb.JointPositions) : outcome (list Input) :=
  Returns [].

Definition staticFrame_ProtobufFromInput (sf : staticFrame) (input : list Input)
  : outcome pb.JointPositions :=
  Returns {| pb.Values := [] |}.

(** [jp.Values] panics on a nil [jp]. *)
Definition translationalFrame_InputFromProtobuf (pf : translationalFrame)
    (jp : option pb.JointPositions) : outcome (list Input) :=
  match jp with
  | None => Panics
  | Some jp => fill {| Value := 0 |} (fun d => {| Value := d |}) (pb.Values jp)
  end.

Definition translationalFrame_ProtobufFromInput (pf : translationalFrame)
    (input : list Input) : outcome pb.JointPositions :=
  match fill 0%float (fun a => Value a) input with
  | Returns n => Returns {| pb.Values := n |}
  | Panics => Panics
  end.

Definition rotationalFrame_InputFromProtobuf (rf : rotationalFrame)
    (jp : option pb.JointPositions) : outcome (list Input) :=
  match jp with
  | None => Panics
  | Some jp =>
      fill {| Value := 0 |} (fun d => {| Value := degrees.DegToRad d |}) (pb.Values jp)
  end.

Definition rotationalFrame_ProtobufFromInput (rf : rotationalFrame)
    (input : list Input) : outcome pb.JointPositions :=
  match fill 0%float (fun a => utils.RadToDeg (Value a)) input with
  | Returns n => Returns {| pb.Values := n |}
  | Panics => Panics
  end.

Definition mobile2DFrame_InputFromProtobuf (mf : mobile2DFrame)
    (jp : option pb.JointPositions) : outcome (list Input) :=
  match jp with
  | None => Panics
  | Some jp => fill {| Value := 0 |} (fun d => {| Value := d |}) (pb.Values jp)
  end.

Definition mobile2DFrame_ProtobufFromInput (mf : mobile2DFrame)
    (input : list Input) : outcome pb.JointPositions :=
  match fill 0%float (fun a => Value a) input with
  | Returns n => Returns {| pb.Values := n |}
  | Panics => Panics
  end.

(** The tail-geometry frame and both wrappers take the two methods from the
    frame they embed. *)
Fixpoint InputFromProtobuf (f : Frame) (jp : option pb.JointPositions)
  : outcome (list Input) :=
  match f with
  | StaticFrame sf | TailGeometryStaticFrame sf => staticFrame_InputFromProtobuf sf jp
  | TranslationalFrame pf => translationalFrame_InputFromProtobuf pf jp
  | RotationalFrame rf => rotationalFrame_InputFromProtobuf rf jp
  | Mobile2DFrame mf => mobile2DFrame_InputFromProtobuf mf jp
  | NoGeometryFrame inner | NamedFrame inner _ => InputFromProtobuf inner jp
  end.

Fixpoint ProtobufFromInput (f : Frame) (input : list Input)
  : outcome pb.JointPositions :=
  match f with
  | StaticFrame sf | TailGeometryStaticFrame sf => staticFrame_ProtobufFromInput sf input
  | TranslationalFrame pf => translationalFrame_ProtobufFromInput pf input
  | RotationalFrame rf => rotationalFrame_ProtobufFromInput rf input
  | Mobile2DFrame mf => mobile2DFrame_ProtobufFromInput mf input
  | NoGeometryFrame inner | NamedFrame inner _ => ProtobufFromInput inner input
  end.

End Protobuf.

(** *** Further vocabulary *)

Section Shapes.
Context {SP : spatial.Package}.

(** A frame with the number of limits its constructor gives it: none for a
    static frame, one for a translational and for a rotational frame, two
    for a mobile-2D frame, under any number of wrappers. *)
Fixpoint wellFormed (f : Frame) : bool :=
  match f with
  | StaticFrame sf | TailGeometryStaticFrame sf =>
      length (limits (sf_baseFrame sf)) =? 0
  | TranslationalFrame pf => length (limits (pf_baseFrame pf)) =? 1
  | RotationalFrame rf => length (limits (rf_baseFrame rf)) =? 1
  | Mobile2DFrame mf => length (limits (mf_baseFrame mf)) =? 2
  | NoGeometryFrame inner | NamedFrame inner _ => wellFormed inner
  end.

(** The frame under the wrappers. *)
Fixpoint unwrapped (f : Frame) : Frame :=
  match f with
  | NoGeometryFrame inner | NamedFrame inner _ => unwrapped inner
  | _ => f
  end.

(** The frames whose inputs go on the wire as they are: the translational
    and the mobile-2D frame, under any number of wrappers. *)
Definition plainInputs (f : Frame) : bool :=
  match unwrapped f with
  | TranslationalFrame _ | Mobile2DFrame _ => true
  | _ => false
  end.

(** The frame [f] with the geometry of the frame under its wrappers
    replaced; a rotational frame carries none. *)
Fixpoint withGeometry (f : Frame) (geometry : option spatial.Geometry) : Frame :=
  match f with
  | StaticFrame sf =>
      StaticFrame {| sf_baseFrame := sf_baseFrame sf;
                     sf_transform := sf_transform sf;
                     sf_geometry := geometry |}
  | TailGeometryStaticFrame sf =>
      TailGeometryStaticFrame {| sf_baseFrame := sf_baseFrame sf;
                                 sf_transform := sf_transform sf;
                                 sf_geometry := geometry |}
  | TranslationalFrame pf =>
      TranslationalFrame {| pf_baseFrame := pf_baseFrame pf;
                            pf_transAxis := pf_transAxis pf;
                            pf_geometry := geometry |}
  | RotationalFrame rf => RotationalFrame rf
  | Mobile2DFrame mf =>
      Mobile2DFrame {| mf_baseFrame := mf_baseFrame mf; mf_geometry := geometry |}
  | NoGeometryFrame inner => NoGeometryFrame (withGeometry inner geometry)
  | NamedFrame inner nf_name => NamedFrame (withGeometry inner geometry) nf_name
  end.

(** The frames that move a geometry with their inputs. *)
Definition moves (f : Frame) : bool :=
  match f with
  | TranslationalFrame _ | Mobile2DFrame _ => true
  | _ => false
  end.

(** The geometry that a frame moves with its inputs. *)
Definition movingGeometry (f : Frame) : option spatial.Geometry :=
  match f with
  | TranslationalFrame pf => pf_geometry pf
  | Mobile2DFrame mf => mf_geometry mf
  | _ => None
  end.

(** What a constructor returns: when [ok], a frame of the given name with
    [dof] limits and a nil error; otherwise a nil frame and an error. *)
Definition built (r : option Frame * option error) (ok : bool) (name : string)
    (dof : nat) : Prop :=
  match r with
  | (Some f, None) =>
      ok = true /\ wellFormed f = true /\ Name f = name /\ length (DoF f) = dof
  | (None, Some _) => ok = false
  | _ => False
  end.

End Shapes.

(** The bounds of a limit are in order, with the defaults for infinite
    ones, and their span does not overflow. *)
Definition samplable (lim : Limit) : bool :=
  (sampleLower lim <=? sampleUpper lim)%float
  && (sampleUpper lim - sampleLower lim <? infinity)%float.

(** A draw of the half-open unit interval. *)
Definition unitDraw (r : float) : bool := (0 <=? r)%float && (r <? 1)%float.

Section Messages.
Context {FP : fmt.Formatter}.

(** The out-of-bounds errors of the joints from the index [i] on, in the
    order of the joints. *)
Fixpoint oobErrors (i : nat) (inputs : list Input) (lims : list Limit)
  : list error :=
  match inputs, lims with
  | input :: inputs', lim :: lims' =>
      (if violates input lim then [oobError i input lim] else [])
      ++ oobErrors (S i) inputs' lims'
  | _, _ => []
  end.

End Messages.

(** Further samples for running the definitions: the degree conversion, a
    static frame that carries the box, and a translational frame with two
    limits, as no constructor builds it. *)
Module SampleMore.
Import Sample.

#[export] Instance degreesPackage : degrees.Package := {|
  degrees.DegToRad degrees := (degrees * 0x1.921fb54442d18p+1 / 180)%float
|}.

Definition plinth : staticFrame :=
  {| sf_baseFrame := {| name := "plinth"; limits := [] |};
     sf_transform := spatial.NewPoseFromPoint {| r3.X := 1; r3.Y := 2; r3.Z := 0 |};
     sf_geometry := Some box |}.

Definition slider : translationalFrame :=
  {| pf_baseFrame := {| name := "slider";
                        limits := [{| Min := 0; Max := 1 |}; {| Min := 0; Max := 1 |}] |};
     pf_transAxis := {| r3.X := 1; r3.Y := 0; r3.Z := 0 |};
     pf_geometry := None |}.

End SampleMore.

(** ** Reading configs back

    The reading side of the configs is in files that are not part of the
    sources. *)

Section Parsing.
Context {SP : spatial.Package} {UP : utils.Package} {FP : fmt.Formatter}
        {EP : Errors} {DP : degrees.Package} {CP : spatial.ConfigParser}
        {UL : json.Unmarshaler LinkConfig} {UJ : json.Unmarshaler JointConfig}.

(** Modelled from the spec: the function that builds a frame from a
    [LinkConfig] is missing from the sources.  Section 4.F has the record
    describe a static frame by its id, its translation, its orientation and
    an optional geometry: the frame is built by the constructor of static
    frames from the pose that combines the translation with the
    orientation read from its config (the identity when the config has
    none), and from the geometry read from its config, if any. *)
Definition LinkConfig_ToFrame (cfg : LinkConfig) : option Frame * option error :=
  let orientation :=
    match lc_Orientation cfg with
    | None => inl spatial.NewZeroOrientation
    | Some orientationConfig => spatial.OrientationConfig_ParseConfig orientationConfig
    end in
  match orientation with
  | inr err => (None, Some err)
  | inl o =>
      let pose := {| spatial.Point := lc_Translation cfg;
                     spatial.PoseOrientation := o |} in
      match lc_Geometry cfg with
      | None => NewStaticFrameWithGeometry (lc_ID cfg) (Some pose) None
      | Some geometryConfig =>
          match spatial.GeometryConfig_ParseConfig geometryConfig with
          | inr err => (None, Some err)
          | inl geometry =>
              NewStaticFrameWithGeometry (lc_ID cfg) (Some pose) (Some geometry)
          end
      end
  end.

(** Modelled from the spec: the function that builds a frame from a
    [JointConfig] is missing from the sources.  Section 4.F has the record
    describe a single-DoF frame by its id, its type (revolute or prismatic),
    its axis, its bounds and an optional geometry, the bounds of a revolute
    joint being in degrees in the external form and in radians inside.  A
    revolute joint is built by the constructor of rotational frames from the
    axis, with the angle zero, and the bounds converted to radians; a
    prismatic joint by the constructor of translational frames from the
    axis, the bounds as they are and the geometry read from its config, if
    any; another type is an error. *)
Definition JointConfig_ToFrame (cfg : JointConfig) : option Frame * option error :=
  if String.eqb (jc_Type cfg) RevoluteJoint then
    NewRotationalFrame (jc_ID cfg)
      {| spatial.Theta := 0;
         spatial.RX := r3.X (jc_Axis cfg);
         spatial.RY := r3.Y (jc_Axis cfg);
         spatial.RZ := r3.Z (jc_Axis cfg) |}
      {| Min := degrees.DegToRad (jc_Min cfg); Max := degrees.DegToRad (jc_Max cfg) |}
  else if String.eqb (jc_Type cfg) PrismaticJoint then
    match jc_Geometry cfg with
    | None =>
        NewTranslationalFrameWithGeometry (jc_ID cfg) (jc_Axis cfg)
          {| Min := jc_Min cfg; Max := jc_Max cfg |} None
    | Some geometryConfig =>
        match spatial.GeometryConfig_ParseConfig geometryConfig with
        | inr err => (None, Some err)
        | inl geometry =>
            NewTranslationalFrameWithGeometry (jc_ID cfg) (jc_Axis cfg)
              {| Min := jc_Min cfg; Max := jc_Max cfg |} (Some geometry)
        end
    end
  else (None, Some ("unsupported joint type " ++ jc_Type cfg)%string).

(** Modelled from the spec: the parser of a serialised link config is
    missing from the sources.  Parsing, for section 4.F, decodes the
    serialised form into the config record and builds the frame that the
    record describes. *)
Definition ParseLinkConfig (data : list Byte.byte) : option Frame * option error :=
  match json.Unmarshal data with
  | inr err => (None, Some err)
  | inl cfg => LinkConfig_ToFrame cfg
  end.

(** Modelled from the spec: the same for a joint config, which section 4.F
    has describe a single-DoF frame. *)
Definition ParseJointConfig (data : list Byte.byte) : option Frame * option error :=
  match json.Unmarshal data with
  | inr err => (None, Some err)
  | inl cfg => JointConfig_ToFrame cfg
  end.

Context {JL : json.Marshaler LinkConfig} {JJ : json.Marshaler JointConfig}.

(** The encoder writes [cfg] as [data], and the decoder reads [data] back as
    [cfg]. *)
Definition linkReadsBack (cfg : LinkConfig) (data : list Byte.byte) : Prop :=
  json.Marshal cfg = (Some data, None) /\ json.Unmarshal data = inl cfg.

Definition jointReadsBack (cfg : JointConfig) (data : list Byte.byte) : Prop :=
  json.Marshal cfg = (Some data, None) /\ json.Unmarshal data = inl cfg.

(** The geometry of a frame converts to the config [geometryConfig], and
    the config, if any, is read back as a geometry. *)
Definition geometryConverts (geometry : option spatial.Geometry)
    (geometryConfig : option spatial.GeometryConfig) : Prop :=
  match geometry with
  | Some g => spatial.NewGeometryConfig g = (geometryConfig, None)
  | None => geometryConfig = None
  end
  /\ match geometryConfig with
     | Some c => exists g', spatial.GeometryConfig_ParseConfig c = inl g'
     | None => True
     end.

(** The orientation [o] converts to the config [orientationConfig], and the
    config is read back as [o']: the identity when there is no config. *)
Definition orientationConverts (o : spatial.Orientation)
    (orientationConfig : option spatial.OrientationConfig) (o' : spatial.Orientation)
  : Prop :=
  spatial.NewOrientationConfig o = (orientationConfig, None)
  /\ match orientationConfig with
     | Some c => spatial.OrientationConfig_ParseConfig c = inl o'
     | None => o' = spatial.NewZeroOrientation
     end.

End Parsing.

(** A codec for the sample configs.  It stands in for the JSON codec with a
    binary layout that keeps every field: numbers of fixed width, the low
    byte first; a string or a list after its length; a float as its class
    and sign, followed for a finite one by its mantissa and its exponent. *)
Module SampleCodec.
Import Sample SampleMore.

(** A reader takes a value off the front of the data. *)
Definition reader (A : Type) : Type := list Byte.byte -> option (A * list Byte.byte).

Definition ret {A : Type} (a : A) : reader A := fun data => Some (a, data).

Definition bind {A B : Type} (p : reader A) (q : A -> reader B) : reader B :=
  fun data =>
    match p data with
    | Some (a, rest) => q a rest
    | None => None
    end.

Definition fail {A : Type} : reader A := fun _ => None.

#[local] Notation "x <- p ;; q" := (bind p (fun x => q))
  (at level 61, p at next level, right associativity).

Definition byte_of_N (n : N) : Byte.byte :=
  match Byte.of_N (n mod 256) with
  | Some b => b
  | None => Byte.x00
  end.

Fixpoint write_N (width : nat) (n : N) : list Byte.byte :=
  match width with
  | O => []
  | S width' => byte_of_N n :: write_N width' (n / 256)
  end.

Fixpoint read_N (width : nat) : reader N :=
  match width with
  | O => ret 0%N
  | S width' =>
      fun data =>
        match data with
        | [] => None
        | b :: data' => (n <- read_N width' ;; ret (Byte.to_N b + 256 * n)%N) data'
        end
  end.

Fixpoint read_times {A : Type} (n : nat) (p : reader A) : reader (list A) :=
  match n with
  | O => ret []
  | S n' => a <- p ;; l <- read_times n' p ;; ret (a :: l)
  end.

Definition read_byte : reader Byte.byte :=
  fun data =>
    match data with
    | [] => None
    | b :: data' => Some (b, data')
    end.

Definition write_list {A : Type} (w : A -> list Byte.byte) (l : list A)
  : list Byte.byte :=
  write_N 4 (N.of_nat (length l)) ++ concat (map w l).

Definition read_list {A : Type} (p : reader A) : reader (list A) :=
  n <- read_N 4 ;; read_times (N.to_nat n) p.

Definition write_string (s : string) : list Byte.byte :=
  write_list (fun b => [b]) (list_byte_of_string s).

Definition read_string : reader string :=
  l <- read_list read_byte ;; ret (string_of_list_byte l).

Definition write_option {A : Type} (w : A -> list Byte.byte) (o : option A)
  : list Byte.byte :=
  match o with
  | None => [Byte.x00]
  | Some a => Byte.x01 :: w a
  end.

Definition read_option {A : Type} (p : reader A) : reader (option A) :=
  tag <- read_N 1 ;;
  match tag with
  | 0%N => ret None
  | 1%N => a <- p ;; ret (Some a)
  | _ => fail
  end.

Definition write_float (x : float) : list Byte.byte :=
  match Prim2SF x with
  | S754_zero s => write_N 1 (if s then 1 else 0)
  | S754_infinity s => write_N 1 (if s then 3 else 2)
  | S754_nan => write_N 1 4
  | S754_finite s m e =>
      write_N 1 (if s then 6 else 5) ++ write_N 8 (Npos m)
      ++ write_N 2 (Z.to_N (e + 2000))
  end.

Definition read_finite (s : bool) : reader float :=
  m <- read_N 8 ;;
  e <- read_N 2 ;;
  match m with
  | Npos m => ret (SF2Prim (S754_finite s m (Z.of_N e - 2000)))
  | N0 => fail
  end.

Definition read_float : reader float :=
  tag <- read_N 1 ;;
  match tag with
  | 0%N => ret (SF2Prim (S754_zero false))
  | 1%N => ret (SF2Prim (S754_zero true))
  | 2%N => ret (SF2Prim (S754_infinity false))
  | 3%N => ret (SF2Prim (S754_infinity true))
  | 4%N => ret (SF2Prim S754_nan)
  | 5%N => read_finite false
  | 6%N => read_finite true
  | _ => fail
  end.

Definition write_vector (v : r3.Vector) : list Byte.byte :=
  write_float (r3.X v) ++ write_float (r3.Y v) ++ write_float (r3.Z v).

Definition read_vector : reader r3.Vector :=
  x <- read_float ;; y <- read_float ;; z <- read_float ;;
  ret {| r3.X := x; r3.Y := y; r3.Z := z |}.

Definition write_orientation (o : spatial.Orientation) : list Byte.byte :=
  match o with
  | spatial.Quaternion r i j k =>
      write_N 1 0 ++ write_float r ++ write_float i ++ write_float j ++ write_float k
  | spatial.AxisAngle aa =>
      write_N 1 1 ++ write_float (spatial.Theta aa) ++ write_float (spatial.RX aa)
      ++ write_float (spatial.RY aa) ++ write_float (spatial.RZ aa)
  end.

Definition read_orientation : reader spatial.Orientation :=
  tag <- read_N 1 ;;
  a <- read_float ;; b <- read_float ;; c <- read_float ;; d <- read_float ;;
  match tag with
  | 0%N => ret (spatial.Quaternion a b c d)
  | 1%N => ret (spatial.AxisAngle {| spatial.Theta := a; spatial.RX := b;
                                     spatial.RY := c; spatial.RZ := d |})
  | _ => fail
  end.

Definition write_pose (p : spatial.Pose) : list Byte.byte :=
  write_vector (spatial.Point p) ++ write_orientation (spatial.PoseOrientation p).

Definition read_pose : reader spatial.Pose :=
  point <- read_vector ;; o <- read_orientation ;;
  ret {| spatial.Point := point; spatial.PoseOrientation := o |}.

Definition write_geometry (g : Geometry) : list Byte.byte :=
  write_string (label g) ++ write_list write_pose (placements g).

Definition read_geometry : reader Geometry :=
  l <- read_string ;; ps <- read_list read_pose ;;
  ret {| label := l; placements := ps |}.

Definition write_link (c : LinkConfig) : list Byte.byte :=
  write_string (lc_ID c) ++ write_string (lc_Parent c)
  ++ write_vector (lc_Translation c)
  ++ write_option write_orientation (lc_Orientation c)
  ++ write_option write_geometry (lc_Geometry c).

Definition read_link : reader LinkConfig :=
  id <- read_string ;; parent <- read_string ;; translation <- read_vector ;;
  o <- read_option read_orientation ;; g <- read_option read_geometry ;;
  ret {| lc_ID := id; lc_Parent := parent; lc_Translation := translation;
         lc_Orientation := o; lc_Geometry := g |}.

Definition write_joint (c : JointConfig) : list Byte.byte :=
  write_string (jc_ID c) ++ write_string (jc_Type c) ++ write_string (jc_Parent c)
  ++ write_vector (jc_Axis c) ++ write_float (jc_Max c) ++ write_float (jc_Min c)
  ++ write_option write_geometry (jc_Geometry c).

Definition read_joint : reader JointConfig :=
  id <- read_string ;; type <- read_string ;; parent <- read_string ;;
  axis <- read_vector ;; max <- read_float ;; min <- read_float ;;
  g <- read_option read_geometry ;;
  ret {| jc_ID := id; jc_Type := type; jc_Parent := parent; jc_Axis := axis;
         jc_Max := max; jc_Min := min; jc_Geometry := g |}.

(** The whole of the data is read. *)
Definition read_all {A : Type} (p : reader A) (data : list Byte.byte) : A + error :=
  match p data with
  | Some (a, []) => inl a
  | _ => inr "invalid data"%string
  end.

#[export] Instance linkEncoder : json.Marshaler LinkConfig := {|
  json.Marshal c := (Some (write_link c), None)
|}.

#[export] Instance jointEncoder : json.Marshaler JointConfig := {|
  json.Marshal c := (Some (write_joint c), None)
|}.

#[export] Instance linkDecoder : json.Unmarshaler LinkConfig := {|
  json.Unmarshal := read_all read_link
|}.

#[export] Instance jointDecoder : json.Unmarshaler JointConfig := {|
  json.Unmarshal := read_all read_joint
|}.

(** The sample configs are the values themselves, and are read back as
    they are. *)
#[export] Instance configParser : spatial.ConfigParser := {|
  spatial.OrientationConfig_ParseConfig o := inl o;
  spatial.GeometryConfig_ParseConfig g := inl g
|}.

End SampleCodec.

(** * Properties *)

(** ** Substrings *)

Module strings_facts.
Import strings.

Lemma HasPrefix_app (p s : string) : HasPrefix (p ++ s) p = true.
Proof.
  induction p as [|c p IH]; simpl.
  - reflexivity.
  - now rewrite Ascii.eqb_refl.
Qed.

Lemma HasPrefix_app_r (p s t : string) :
  HasPrefix s p = true -> HasPrefix (s ++ t) p = true.
Proof.
  revert s; induction p as [|c p IH]; intros s Hp.
  - reflexivity.
  - destruct s as [|d s]; simpl in *; [discriminate|].
    apply andb_true_iff in Hp as [Hc Hp].
    now rewrite Hc, IH.
Qed.

Lemma Contains_here (p s : string) : Contains (p ++ s) p = true.
Proof.
  destruct (p ++ s)%string eqn:E; simpl; rewrite <- E, HasPrefix_app; reflexivity.
Qed.

Lemma Contains_app_l (s t p : string) :
  Contains s p = true -> Contains (s ++ t) p = true.
Proof.
  induction s as [|c s IH]; simpl; intros H.
  - rewrite orb_false_r in H.
    destruct p; [|discriminate].
    destruct t; reflexivity.
  - apply orb_true_iff in H. apply orb_true_iff.
    destruct H as [H|H].
    + left. exact (HasPrefix_app_r _ (String c s) t H).
    + right. now apply IH.
Qed.

Lemma Contains_app_r (s t p : string) :
  Contains t p = true -> Contains (s ++ t) p = true.
Proof.
  induction s as [|c s IH]; simpl; intros H.
  - exact H.
  - apply orb_true_iff. right. now apply IH.
Qed.

End strings_facts.

(** ** Comparisons against the infinities *)

Lemma ltb_neg_infinity (x : float) : (x <? neg_infinity)%float = false.
Proof.
  rewrite FloatAxioms.ltb_spec.
  change (Prim2SF neg_infinity) with (S754_infinity true).
  unfold SFltb. destruct (Prim2SF x) as [[|]|[|]| |[|] m e]; reflexivity.
Qed.

Lemma infinity_ltb (x : float) : (infinity <? x)%float = false.
Proof.
  rewrite FloatAxioms.ltb_spec.
  change (Prim2SF infinity) with (S754_infinity false).
  unfold SFltb. destruct (Prim2SF x) as [[|]|[|]| |[|] m e]; reflexivity.
Qed.

(** A bound equal to minus infinity lies below every value that is
    comparable at all, and a bound equal to plus infinity above it. *)
Lemma leb_from_neg_infinity (m a v : float) :
  (m =? neg_infinity)%float = true -> (a <=? v)%float = true ->
  (m <=? v)%float = true.
Proof.
  rewrite FloatAxioms.eqb_spec, !FloatAxioms.leb_spec.
  change (Prim2SF neg_infinity) with (S754_infinity true).
  unfold SFeqb, SFleb.
  destruct (Prim2SF m) as [[|]|[|]| |[|] mm me]; simpl; try discriminate; intros _;
    destruct (Prim2SF v) as [[|]|[|]| |[|] vm ve]; simpl; try reflexivity;
    destruct (Prim2SF a) as [[|]|[|]| |[|] am ae]; simpl; discriminate.
Qed.

Lemma leb_to_infinity (m a v : float) :
  (m =? infinity)%float = true -> (v <=? a)%float = true ->
  (v <=? m)%float = true.
Proof.
  rewrite FloatAxioms.eqb_spec, !FloatAxioms.leb_spec.
  change (Prim2SF infinity) with (S754_infinity false).
  unfold SFeqb, SFleb.
  destruct (Prim2SF m) as [[|]|[|]| |[|] mm me]; simpl; try discriminate; intros _;
    destruct (Prim2SF v) as [[|]|[|]| |[|] vm ve]; simpl; try reflexivity;
    destruct (Prim2SF a) as [[|]|[|]| |[|] am ae]; simpl; discriminate.
Qed.

(** ** [validInputs] *)

Section ValidInputs.
Context {UP : utils.Package} {FP : fmt.Formatter} {EP : Errors}.
Import strings_facts.

Lemma oobError_tagged (i : nat) (input : Input) (lim : Limit) :
  strings.Contains (oobError i input lim) OOBErrString = true.
Proof.
  unfold oobError.
  do 4 apply Contains_app_r.
  apply Contains_here.
Qed.

Lemma AppendInto_tagged (into : option error) (err : error) :
  tagged into -> strings.Contains err OOBErrString = true ->
  tagged (multierr.AppendInto into err).
Proof.
  destruct into as [e|]; simpl; intros Hinto Herr.
  - now apply Contains_app_l.
  - exact Herr.
Qed.

Lemma validInputs_range_tagged (inputs : list Input) :
  forall (lims : list Limit) (i : nat) (errAll : option error),
    tagged errAll -> tagged (validInputs_range i inputs lims errAll).
Proof.
  induction inputs as [|input inputs IH]; intros [|lim lims] i errAll H; simpl; auto.
  apply IH. destruct (violates input lim); [|exact H].
  apply AppendInto_tagged; [exact H | apply oobError_tagged].
Qed.

Lemma validInputs_range_keeps (inputs : list Input) :
  forall (lims : list Limit) (i : nat) (e : error),
    validInputs_range i inputs lims (Some e) <> None.
Proof.
  induction inputs as [|input inputs IH]; intros [|lim lims] i e; simpl;
    try discriminate.
  destruct (violates input lim); simpl; apply IH.
Qed.

Lemma validInputs_range_None (inputs : list Input) :
  forall (lims : list Limit) (i : nat),
    validInputs_range i inputs lims None = None <-> outOfBounds inputs lims = false.
Proof.
  unfold outOfBounds.
  induction inputs as [|input inputs IH]; intros [|lim lims] i; simpl;
    try (split; reflexivity).
  destruct (violates input lim); simpl.
  - split; [|discriminate]. intros H. now apply validInputs_range_keeps in H.
  - apply IH.
Qed.

Lemma validInputs_same_length (bf : baseFrame) (inputs : list Input) :
  length inputs = length (limits bf) ->
  validInputs bf inputs = validInputs_range 0 inputs (limits bf) None.
Proof.
  intros H. unfold validInputs. now rewrite H, Nat.eqb_refl.
Qed.

Lemma validInputs_other_length (bf : baseFrame) (inputs : list Input) :
  length inputs <> length (limits bf) ->
  validInputs bf inputs
  = Some (NewIncorrectInputLengthError (length inputs) (length (limits bf))).
Proof.
  intros H. unfold validInputs. apply Nat.eqb_neq in H. now rewrite H.
Qed.

(** With inputs of the right length, [validInputs] returns nil when every
    input is within its limit and a tagged error otherwise. *)
Lemma validInputs_tagged (bf : baseFrame) (inputs : list Input) :
  length inputs = length (limits bf) ->
  tagged (validInputs bf inputs).
Proof.
  intros H. rewrite validInputs_same_length by exact H.
  now apply validInputs_range_tagged.
Qed.

Lemma validInputs_out_of_bounds (bf : baseFrame) (inputs : list Input) :
  length inputs = length (limits bf) ->
  outOfBounds inputs (limits bf) = true ->
  exists err, validInputs bf inputs = Some err
              /\ strings.Contains err OOBErrString = true.
Proof.
  intros Hlen Hout.
  pose proof (validInputs_tagged bf inputs Hlen) as Htag.
  destruct (validInputs bf inputs) as [err|] eqn:E.
  - now exists err.
  - rewrite validInputs_same_length in E by exact Hlen.
    apply validInputs_range_None in E. congruence.
Qed.

Lemma notOOB_tagged (err : option error) : tagged err -> notOOB err = false.
Proof.
  destruct err as [e|]; simpl; [intros ->|]; reflexivity.
Qed.

Lemma outOfBounds_unrestricted (inputs : list Input) (lims : list Limit) :
  outOfBounds inputs (map (fun _ => unrestrictedLimit) lims) = false.
Proof.
  unfold outOfBounds.
  revert lims; induction inputs as [|input inputs IH]; intros [|lim lims]; simpl; auto.
  unfold violates at 1; simpl.
  now rewrite ltb_neg_infinity, infinity_ltb, IH.
Qed.

Lemma validInputs_unrestricted (bf : baseFrame) (inputs : list Input) :
  length inputs = length (limits bf) ->
  validInputs (unrestrictedBase bf) inputs = None.
Proof.
  intros H. rewrite validInputs_same_length by (simpl; now rewrite length_map).
  apply validInputs_range_None. apply outOfBounds_unrestricted.
Qed.

End ValidInputs.

(** ** [Transform] on out-of-bounds and on wrong-length inputs *)

Section TransformBounds.
Context {SP : spatial.Package} {UP : utils.Package} {FP : fmt.Formatter}
        {EP : Errors}.

(** The three [Transform] methods share their first lines; [solve_length]
    settles the wrong-length case of each and [solve_bounds] the
    out-of-bounds case. *)
Ltac solve_length bf :=
  intros Hlen Hmsg; simpl in *;
  rewrite (validInputs_other_length bf _ Hlen); simpl;
  rewrite Hmsg; reflexivity.

Ltac solve_bounds bf inputs :=
  let err := fresh "err" in
  let E := fresh "E" in
  let Herr := fresh "Herr" in
  intros Hlen Hout; simpl in Hlen, Hout;
  destruct (validInputs_out_of_bounds bf inputs Hlen Hout) as (err & E & Herr);
  pose proof (validInputs_unrestricted bf inputs Hlen) as Hfree;
  simpl; rewrite E, Hfree; simpl; rewrite Herr; simpl.

(** C2.  For a translational, rotational or mobile-2D frame: an input
    vector of the frame's length with a value outside its limit makes
    [Transform] return a pose together with an error whose text contains
    [input out of bounds].  The pose is computed from the out-of-range
    values: for a translational frame the point at the input times the
    stored axis, with the identity orientation; for a rotational frame no
    translation and the axis-angle of the input about the stored axis; for
    a mobile-2D frame the point of the two inputs in the plane, with the
    identity orientation.  It is the pose the same frame returns, without
    error, once its limits are lifted.  An input vector of another length
    makes [Transform] return a nil pose and the input-length error (whose
    text does not carry the out-of-bounds tag). *)
Theorem Transform_out_of_bounds (f : Frame) (inputs : list Input) :
  jointFrame f = true ->
  (length inputs = length (DoF f) ->
   outOfBounds inputs (DoF f) = true ->
   exists pose err,
     Transform f inputs = Returns (Some pose, Some err)
     /\ strings.Contains err OOBErrString = true
     /\ Transform (unrestricted f) inputs = Returns (Some pose, None)
     /\ match f, inputs with
        | TranslationalFrame pf, [d] =>
            pose = {| spatial.Point :=
                        {| r3.X := Value d * r3.X (pf_transAxis pf);
                           r3.Y := Value d * r3.Y (pf_transAxis pf);
                           r3.Z := Value d * r3.Z (pf_transAxis pf) |};
                      spatial.PoseOrientation := spatial.Quaternion 1 0 0 0 |}
        | RotationalFrame rf, [theta] =>
            pose = {| spatial.Point := {| r3.X := 0; r3.Y := 0; r3.Z := 0 |};
                      spatial.PoseOrientation :=
                        spatial.AxisAngle
                          {| spatial.Theta := Value theta;
                             spatial.RX := r3.X (rf_rotAxis rf);
                             spatial.RY := r3.Y (rf_rotAxis rf);
                             spatial.RZ := r3.Z (rf_rotAxis rf) |} |}
        | Mobile2DFrame mf, [x; y] =>
            pose = {| spatial.Point :=
                        {| r3.X := Value x; r3.Y := Value y; r3.Z := 0 |};
                      spatial.PoseOrientation := spatial.Quaternion 1 0 0 0 |}
        | _, _ => False
        end)
  /\ (length inputs <> length (DoF f) ->
      strings.Contains
        (NewIncorrectInputLengthError (length inputs) (length (DoF f)))
        OOBErrString = false ->
      Transform f inputs
      = Returns (None, Some (NewIncorrectInputLengthError
                               (length inputs) (length (DoF f))))).
Proof.
  destruct f as [sf|sf|pf|rf|mf|inner|inner nm]; simpl; try discriminate;
    intros Hjoint; apply Nat.eqb_eq in Hjoint; split.
  - unfold translationalFrame_Transform.
    solve_bounds (pf_baseFrame pf) inputs.
    rewrite Hjoint in Hlen.
    destruct inputs as [|input0 [|]]; try discriminate.
    eexists _, _. split; [reflexivity|]. split; [assumption|]. split; reflexivity.
  - unfold translationalFrame_Transform. solve_length (pf_baseFrame pf).
  - unfold rotationalFrame_Transform.
    solve_bounds (rf_baseFrame rf) inputs.
    rewrite Hjoint in Hlen.
    destruct inputs as [|input0 [|]]; try discriminate.
    eexists _, _. split; [reflexivity|]. split; [assumption|]. split; reflexivity.
  - unfold rotationalFrame_Transform. solve_length (rf_baseFrame rf).
  - unfold mobile2DFrame_Transform.
    solve_bounds (mf_baseFrame mf) inputs.
    rewrite Hjoint in Hlen.
    destruct inputs as [|input0 [|input1 [|]]]; try discriminate.
    eexists _, _. split; [reflexivity|]. split; [assumption|]. split; reflexivity.
  - unfold mobile2DFrame_Transform. solve_length (mf_baseFrame mf).
Qed.

(** Within its limits the same call returns the pose and a nil error. *)
Lemma Transform_in_bounds (f : Frame) (inputs : list Input) :
  jointFrame f = true ->
  length inputs = length (DoF f) ->
  outOfBounds inputs (DoF f) = false ->
  exists pose, Transform f inputs = Returns (Some pose, None).
Proof.
  destruct f as [sf|sf|pf|rf|mf|inner|inner nm]; simpl; try discriminate;
    intros Hjoint Hlen Hin; apply Nat.eqb_eq in Hjoint.
  - unfold translationalFrame_Transform.
    rewrite validInputs_same_length by exact Hlen.
    apply validInputs_range_None with (i := 0) in Hin. rewrite Hin. simpl.
    rewrite Hjoint in Hlen. destruct inputs as [|input0 [|]]; try discriminate. eauto.
  - unfold rotationalFrame_Transform.
    rewrite validInputs_same_length by exact Hlen.
    apply validInputs_range_None with (i := 0) in Hin. rewrite Hin. simpl.
    rewrite Hjoint in Hlen. destruct inputs as [|input0 [|]]; try discriminate. eauto.
  - unfold mobile2DFrame_Transform.
    rewrite validInputs_same_length by exact Hlen.
    apply validInputs_range_None with (i := 0) in Hin. rewrite Hin. simpl.
    rewrite Hjoint in Hlen.
    destruct inputs as [|input0 [|input1 [|]]]; try discriminate. eauto.
Qed.

(** The constructors build frames with that number of limits. *)
Lemma constructors_build_jointFrames (name : string) (f : Frame) :
  (forall axis limit geometry,
      NewTranslationalFrameWithGeometry name axis limit geometry = (Some f, None) ->
      jointFrame f = true)
  /\ (forall axis limit,
        NewRotationalFrame name axis limit = (Some f, None) -> jointFrame f = true)
  /\ (forall limits geometry,
        NewMobile2DFrame name limits geometry = (Some f, None) -> jointFrame f = true).
Proof.
  split; [|split].
  - intros axis limit geometry. unfold NewTranslationalFrameWithGeometry.
    destruct (spatial.R3VectorAlmostEqual _ _ _); intros H; inversion H; reflexivity.
  - intros axis limit H. inversion H. reflexivity.
  - intros limits geometry. unfold NewMobile2DFrame.
    destruct (length limits =? 2) eqn:E; simpl; intros H; inversion H.
    simpl. exact E.
Qed.

End TransformBounds.

(** ** The translational frame translates *)

Section Translational.
Context {SP : spatial.Package} {UP : utils.Package} {FP : fmt.Formatter}
        {EP : Errors}.

(** What the constructor returns when it returns a frame. *)
Lemma NewTranslationalFrameWithGeometry_frame (name : string) (axis : r3.Vector)
    (limit : Limit) (geometry : option spatial.Geometry) (f : Frame) :
  NewTranslationalFrameWithGeometry name axis limit geometry = (Some f, None) ->
  f = TranslationalFrame
        {| pf_baseFrame := {| name := name; limits := [limit] |};
           pf_transAxis := r3.Normalize axis;
           pf_geometry := geometry |}.
Proof.
  unfold NewTranslationalFrameWithGeometry.
  destruct (spatial.R3VectorAlmostEqual _ _ _); intros H; inversion H; reflexivity.
Qed.

(** C6.  A translational frame built from the axis [axis] stores the
    vector [v] that [axis.Normalize()] computes in [float64]: with [n2] the
    sum of the squares of the components of [axis], [v] is the zero vector
    when [n2 == 0] and [axis] scaled by [1 / sqrt n2] otherwise.  On the
    one-element input [d] its [Transform] returns the pose whose translation
    is [d] times [v], component by component, and whose orientation is the
    identity quaternion; the error returned with it is nil or an
    out-of-bounds error. *)
Theorem translationalFrame_Transform_translates (name : string) (axis : r3.Vector)
    (limit : Limit) (geometry : option spatial.Geometry) (f : Frame) (d : float) :
  NewTranslationalFrameWithGeometry name axis limit geometry = (Some f, None) ->
  let n2 := (r3.X axis * r3.X axis + r3.Y axis * r3.Y axis
             + r3.Z axis * r3.Z axis)%float in
  let v := if (n2 =? 0)%float then {| r3.X := 0; r3.Y := 0; r3.Z := 0 |}
           else {| r3.X := 1 / sqrt n2 * r3.X axis;
                   r3.Y := 1 / sqrt n2 * r3.Y axis;
                   r3.Z := 1 / sqrt n2 * r3.Z axis |} in
  f = TranslationalFrame
        {| pf_baseFrame := {| name := name; limits := [limit] |};
           pf_transAxis := v;
           pf_geometry := geometry |}
  /\ exists err,
       Transform f [{| Value := d |}]
       = Returns (Some {| spatial.Point := {| r3.X := d * r3.X v;
                                              r3.Y := d * r3.Y v;
                                              r3.Z := d * r3.Z v |};
                          spatial.PoseOrientation := spatial.Quaternion 1 0 0 0 |},
                  err)
       /\ tagged err.
Proof.
  intros Hnew n2 v.
  apply NewTranslationalFrameWithGeometry_frame in Hnew.
  assert (Hv : r3.Normalize axis = v).
  { unfold r3.Normalize, r3.Norm2, r3.Dot. fold n2. subst v.
    destruct (n2 =? 0)%float; reflexivity. }
  rewrite Hv in Hnew. subst f. split; [reflexivity|].
  cbn [Transform]. unfold translationalFrame_Transform.
  set (bf := {| name := name; limits := [limit] |}).
  assert (Htag : tagged (validInputs bf [{| Value := d |}]))
    by (apply validInputs_tagged; reflexivity).
  change (pf_baseFrame _) with bf.
  rewrite (notOOB_tagged _ Htag).
  eexists. split; [reflexivity | exact Htag].
Qed.

End Translational.

(** ** The wrappers, frames without geometry, and equality *)

Section Wrappers.
Context {SP : spatial.Package} {UP : utils.Package} {FP : fmt.Formatter}
        {EP : Errors}.

(** C7.  The no-geometry wrapper answers [Geometries] itself, for every
    embedded frame and every input: an empty list under the embedded
    frame's name, and a nil error, whatever the embedded frame's own
    [Geometries] returns.  Its name and its [Transform] are those of the
    embedded frame. *)
Theorem noGeometryFrame_Geometries_empty (f : Frame) (input : list Input) :
  Geometries (NoGeometryFrame f) input
  = Returns (Some {| frame := Name f; geometries := [] |}, None)
  /\ Name (NoGeometryFrame f) = Name f
  /\ Transform (NoGeometryFrame f) input = Transform f input.
Proof.
  split; [|split].
  - simpl. unfold NewGeometriesInFrame. reflexivity.
  - reflexivity.
  - reflexivity.
Qed.

(** [Transform] returns a nil pose only together with an error. *)
Lemma Transform_nil_has_error (f : Frame) (input : list Input) (err : option error) :
  Transform f input = Returns (None, err) -> err <> None.
Proof.
  induction f as [sf|sf|pf|rf|mf|inner IH|inner IH nm]; simpl; auto.
  1,2: unfold staticFrame_Transform;
       destruct (negb _); intros H; inversion H; discriminate.
  - unfold translationalFrame_Transform; cbv zeta.
    destruct (notOOB _) eqn:E.
    + intros H; inversion H; subst. intros Hn. rewrite Hn in E. discriminate.
    + destruct input; discriminate.
  - unfold rotationalFrame_Transform; cbv zeta.
    destruct (notOOB _) eqn:E.
    + intros H; inversion H; subst. intros Hn. rewrite Hn in E. discriminate.
    + destruct input; discriminate.
  - unfold mobile2DFrame_Transform; cbv zeta.
    destruct (notOOB _) eqn:E.
    + intros H; inversion H; subst. intros Hn. rewrite Hn in E. discriminate.
    + destruct input as [|? [|]]; discriminate.
Qed.

Lemma placed_nil_has_error (name : string) (geometry : spatial.Geometry)
    (r : outcome (option spatial.Pose * option error)) (err : option error) :
  (forall e, r = Returns (None, e) -> e <> None) ->
  placed name geometry r = Returns (None, err) -> err <> None.
Proof.
  intros Hr. destruct r as [[[pose|] e]|]; simpl.
  - destruct (notOOB e) eqn:E; intros H; inversion H; subst.
    intros Hn. rewrite Hn in E. discriminate.
  - intros H; inversion H; subst. now apply Hr.
  - discriminate.
Qed.

(** [Geometries] returns a nil result only together with an error, so the
    named wrapper never reads the list of a nil result. *)
Lemma Geometries_nil_has_error (f : Frame) (input : list Input) (err : option error) :
  Geometries f input = Returns (None, err) -> err <> None.
Proof.
  induction f as [sf|sf|pf|rf|mf|inner IH|inner IH nm]; simpl.
  - unfold staticFrame_Geometries.
    destruct (sf_geometry sf); [destruct (negb _)|]; intros H; inversion H; discriminate.
  - unfold tailGeometryStaticFrame_Geometries.
    destruct (sf_geometry sf); [destruct (negb _)|]; intros H; inversion H; discriminate.
  - unfold translationalFrame_Geometries.
    destruct (pf_geometry pf); [|discriminate].
    apply placed_nil_has_error. intros e.
    apply (Transform_nil_has_error (TranslationalFrame pf)).
  - unfold rotationalFrame_Geometries. intros H; inversion H; discriminate.
  - unfold mobile2DFrame_Geometries.
    destruct (mf_geometry mf); [|discriminate].
    apply placed_nil_has_error. intros e.
    apply (Transform_nil_has_error (Mobile2DFrame mf)).
  - discriminate.
  - destruct (Geometries inner input) as [[[gif|] [e|]]|]; simpl;
      intros H; inversion H; discriminate.
Qed.

(** C9, as the code has it.  The named wrapper passes [AlmostEquals] to the
    embedded frame unchanged, whatever its own name, and [Name] returns the
    new name.  When the embedded frame's [Geometries] returns without
    error, the wrapper returns the same geometries under the new name; when
    it returns any error, an out-of-bounds one included, the wrapper
    returns that error and no geometries.  The embedded call returns a result
    or an error whenever it returns, so these are all the cases. *)
Theorem namedFrame_delegates (f : Frame) (n : string) :
  (forall g, AlmostEquals (NewNamedFrame f n) g = AlmostEquals f g)
  /\ Name (NewNamedFrame f n) = n
  /\ (forall inputs gif,
        Geometries f inputs = Returns (Some gif, None) ->
        Geometries (NewNamedFrame f n) inputs
        = Returns (Some {| frame := n; geometries := geometries gif |}, None))
  /\ (forall inputs r err,
        Geometries f inputs = Returns (r, Some err) ->
        Geometries (NewNamedFrame f n) inputs = Returns (None, Some err))
  /\ (forall inputs, Geometries f inputs <> Returns (None, None)).
Proof.
  repeat split.
  - intros inputs gif H. simpl. now rewrite H.
  - intros inputs r err H. simpl. rewrite H. now destruct r.
  - intros inputs H. now apply Geometries_nil_has_error in H.
Qed.

(** C10.  A static frame and a tail-geometry static frame that carry no
    geometry return an empty list under their name and a nil error from
    [Geometries], whatever the input; on a non-empty input their
    [Transform] returns a nil pose and the input-length error. *)
Theorem staticFrame_Geometries_without_geometry (sf : staticFrame)
    (inputs : list Input) :
  sf_geometry sf = None ->
  Geometries (StaticFrame sf) inputs
  = Returns (Some {| frame := name (sf_baseFrame sf); geometries := [] |}, None)
  /\ Geometries (TailGeometryStaticFrame sf) inputs
     = Returns (Some {| frame := name (sf_baseFrame sf); geometries := [] |}, None)
  /\ (inputs <> [] ->
      Transform (StaticFrame sf) inputs
      = Returns (None, Some (NewIncorrectInputLengthError (length inputs) 0))
      /\ Transform (TailGeometryStaticFrame sf) inputs
         = Returns (None, Some (NewIncorrectInputLengthError (length inputs) 0))).
Proof.
  intros Hgeom. simpl.
  unfold staticFrame_Geometries, tailGeometryStaticFrame_Geometries.
  rewrite Hgeom. repeat split;
    unfold staticFrame_Transform; destruct inputs; simpl; congruence.
Qed.

(** The static constructors build such frames when they are given no
    geometry. *)
Lemma static_constructors_without_geometry (name : string) (pose : spatial.Pose) :
  (exists sf, NewStaticFrame name (Some pose) = (Some (StaticFrame sf), None)
              /\ sf_geometry sf = None)
  /\ (exists sf, NewZeroStaticFrame name = StaticFrame sf /\ sf_geometry sf = None)
  /\ (exists sf, NewStaticFrameWithGeometry name (Some pose) None
                 = (Some (StaticFrame sf), None)
                 /\ sf_geometry sf = None).
Proof.
  split; [|split]; eexists; split; reflexivity.
Qed.

(** C3, as the code has it.  [Geometries] of a rotational frame returns a
    nil result and a not-implemented error on every input.  In particular,
    for a frame built by [NewRotationalFrame] and an input of length one
    within the limit, [Transform] returns a pose and a nil error while
    [Geometries] returns that error. *)
Theorem rotationalFrame_Geometries_fails :
  (forall rf input,
      Geometries (RotationalFrame rf) input
      = Returns (None, Some "Geometries not implemented for type *referenceframe.rotationalFrame"%string))
  /\ (forall name axis limit f input,
        NewRotationalFrame name axis limit = (Some f, None) ->
        length input = 1 ->
        outOfBounds input (DoF f) = false ->
        (exists pose, Transform f input = Returns (Some pose, None))
        /\ Geometries f input
           = Returns (None, Some "Geometries not implemented for type *referenceframe.rotationalFrame"%string)).
Proof.
  split; [reflexivity|].
  intros name axis limit f input Hnew Hlen Hin.
  inversion Hnew; subst f; clear Hnew.
  split; [|reflexivity].
  apply Transform_in_bounds; [reflexivity | exact Hlen | exact Hin].
Qed.

(** C1, as the code has it.  [AlmostEquals] of a mobile-2D frame is false on
    every mobile-2D frame, itself included; it is true only on a rotational
    frame whose name and limits agree with its own. *)
Theorem mobile2DFrame_AlmostEquals_wrong_variant (mf : mobile2DFrame) :
  (forall other, AlmostEquals (Mobile2DFrame mf) (Mobile2DFrame other) = false)
  /\ (forall o, AlmostEquals (Mobile2DFrame mf) o = true <->
                exists rf, o = RotationalFrame rf
                           /\ baseFrame_AlmostEquals (mf_baseFrame mf) (rf_baseFrame rf)
                              = true).
Proof.
  split; [reflexivity|].
  intros o; split.
  - destruct o; simpl; try discriminate. eauto.
  - intros (rf & -> & H). exact H.
Qed.

(** Between frames built by the constructors the answer is always false: a
    mobile-2D frame has two limits and a rotational frame has one. *)
Lemma NewMobile2DFrame_AlmostEquals_NewRotationalFrame (name name' : string)
    (limits : list Limit) (geometry : option spatial.Geometry)
    (axis : spatial.R4AA) (limit : Limit) (m o : Frame) :
  NewMobile2DFrame name limits geometry = (Some m, None) ->
  NewRotationalFrame name' axis limit = (Some o, None) ->
  AlmostEquals m o = false.
Proof.
  unfold NewMobile2DFrame.
  destruct (length limits =? 2) eqn:E; simpl; intros Hm Ho;
    inversion Hm; inversion Ho; subst.
  simpl. unfold baseFrame_AlmostEquals, limitsAlmostEqual. simpl.
  apply Nat.eqb_eq in E. rewrite E. simpl. now rewrite andb_false_r.
Qed.

(** The named wrapper passes the remaining methods through as well. *)
Lemma namedFrame_passes_through (f : Frame) (n : string) (inputs : list Input) :
  DoF (NewNamedFrame f n) = DoF f
  /\ Transform (NewNamedFrame f n) inputs = Transform f inputs
  /\ (Geometries f inputs = Panics -> Geometries (NewNamedFrame f n) inputs = Panics).
Proof.
  repeat split. simpl. now intros ->.
Qed.

End Wrappers.

(** ** Constructors and their axes *)

Section Constructors.
Context {SP : spatial.Package} {UP : utils.Package} {FP : fmt.Formatter}
        {EP : Errors}.

(** The zero vector is almost equal to itself. *)
Lemma zero_axis_almost_zero :
  spatial.R3VectorAlmostEqual r3.zero r3.zero 0x1.5798ee2308c3ap-27 = true.
Proof. reflexivity. Qed.

(** C4, as the code has it.  [NewTranslationalFrame] is
    [NewTranslationalFrameWithGeometry] without geometry.  The latter
    returns an error for every axis whose components are all within 1e-8 of
    zero, the zero axis among them, and for every other axis a frame that
    stores [axis.Normalize()].  [NewRotationalFrame] returns no error for
    any axis and stores the components of the axis after
    [R4AA.Normalize]. *)
Theorem constructors_normalise_axis (name : string) (axis : r3.Vector)
    (r4 : spatial.R4AA) (limit : Limit) (geometry : option spatial.Geometry) :
  NewTranslationalFrame name axis limit
  = NewTranslationalFrameWithGeometry name axis limit None
  /\ NewTranslationalFrameWithGeometry name r3.zero limit geometry
     = (None, Some "cannot use zero vector as translation axis"%string)
  /\ (spatial.R3VectorAlmostEqual r3.zero axis 0x1.5798ee2308c3ap-27 = true ->
      NewTranslationalFrameWithGeometry name axis limit geometry
      = (None, Some "cannot use zero vector as translation axis"%string))
  /\ (spatial.R3VectorAlmostEqual r3.zero axis 0x1.5798ee2308c3ap-27 = false ->
      NewTranslationalFrameWithGeometry name axis limit geometry
      = (Some (TranslationalFrame
                 {| pf_baseFrame := {| name := name; limits := [limit] |};
                    pf_transAxis := r3.Normalize axis;
                    pf_geometry := geometry |}), None))
  /\ NewRotationalFrame name r4 limit
     = (Some (RotationalFrame
                {| rf_baseFrame := {| name := name; limits := [limit] |};
                   rf_rotAxis := {| r3.X := spatial.RX (spatial.Normalize r4);
                                    r3.Y := spatial.RY (spatial.Normalize r4);
                                    r3.Z := spatial.RZ (spatial.Normalize r4) |} |}),
        None).
Proof.
  split; [reflexivity|].
  split; [unfold NewTranslationalFrameWithGeometry; now rewrite zero_axis_almost_zero|].
  split; [|split; [|reflexivity]];
    intros H; unfold NewTranslationalFrameWithGeometry; now rewrite H.
Qed.

End Constructors.

(** ** Serialisation *)

Section Marshalling.
Context {SP : spatial.Package} {UP : utils.Package} {FP : fmt.Formatter}
        {EP : Errors} {JL : json.Marshaler LinkConfig}
        {JJ : json.Marshaler JointConfig}.

Lemma vector_eta (v : r3.Vector) :
  {| r3.X := r3.X v; r3.Y := r3.Y v; r3.Z := r3.Z v |} = v.
Proof. now destruct v. Qed.

(** What [MarshalJSON] hands to the encoder.  For a mobile-2D frame it
    returns a not-implemented error for every frame.  For a static frame whose
    orientation (and geometry, if any) converts to its config, it returns
    what the encoder returns for the link config that carries the frame's
    name, the point of its pose and those configs.  For a translational or
    rotational frame with its one limit (and, for the translational one, a
    geometry that converts), it returns what the encoder returns for the
    joint config of type prismatic or revolute that carries the frame's
    name, its stored axis and its limits, in degrees for the rotational
    frame. *)
Lemma MarshalJSON_by_variant :
  (forall mf,
      MarshalJSON (Mobile2DFrame mf)
      = Returns (None, Some "MarshalJSON not implemented for type referenceframe.mobile2DFrame"%string))
  /\ (forall sf orientationConfig geometryConfig,
        spatial.NewOrientationConfig (spatial.PoseOrientation (sf_transform sf))
        = (orientationConfig, None) ->
        match sf_geometry sf with
        | Some geometry => spatial.NewGeometryConfig geometry = (geometryConfig, None)
        | None => geometryConfig = None
        end ->
        MarshalJSON (StaticFrame sf)
        = Returns (json.Marshal
                     {| lc_ID := name (sf_baseFrame sf);
                        lc_Parent := "";
                        lc_Translation := spatial.Point (sf_transform sf);
                        lc_Orientation := orientationConfig;
                        lc_Geometry := geometryConfig |}))
  /\ (forall pf limit geometryConfig,
        limits (pf_baseFrame pf) = [limit] ->
        match pf_geometry pf with
        | Some geometry => spatial.NewGeometryConfig geometry = (geometryConfig, None)
        | None => geometryConfig = None
        end ->
        MarshalJSON (TranslationalFrame pf)
        = Returns (json.Marshal
                     {| jc_ID := name (pf_baseFrame pf);
                        jc_Type := "prismatic";
                        jc_Parent := "";
                        jc_Axis := pf_transAxis pf;
                        jc_Max := Max limit;
                        jc_Min := Min limit;
                        jc_Geometry := geometryConfig |}))
  /\ (forall rf limit,
        limits (rf_baseFrame rf) = [limit] ->
        MarshalJSON (RotationalFrame rf)
        = Returns (json.Marshal
                     {| jc_ID := name (rf_baseFrame rf);
                        jc_Type := "revolute";
                        jc_Parent := "";
                        jc_Axis := rf_rotAxis rf;
                        jc_Max := utils.RadToDeg (Max limit);
                        jc_Min := utils.RadToDeg (Min limit);
                        jc_Geometry := None |})).
Proof.
  split; [reflexivity|]. split; [|split].
  - intros sf oc gc Ho Hg. simpl. unfold staticFrame_MarshalJSON. rewrite Ho.
    destruct (sf_geometry sf); [rewrite Hg | subst gc]; reflexivity.
  - intros pf limit gc Hl Hg. simpl. unfold translationalFrame_MarshalJSON.
    rewrite Hl, vector_eta. simpl.
    destruct (pf_geometry pf); [rewrite Hg | subst gc]; reflexivity.
  - intros rf limit Hl. simpl. unfold rotationalFrame_MarshalJSON.
    rewrite Hl, vector_eta. reflexivity.
Qed.

End Marshalling.

(** ** The round trip through the config *)

Section RoundTrip.
Context {SP : spatial.Package} {UP : utils.Package} {FP : fmt.Formatter}
        {EP : Errors} {DP : degrees.Package} {CP : spatial.ConfigParser}
        {JL : json.Marshaler LinkConfig} {JJ : json.Marshaler JointConfig}
        {UL : json.Unmarshaler LinkConfig} {UJ : json.Unmarshaler JointConfig}.

(** C5.  Serialising a mobile-2D frame fails for every frame, with a
    not-implemented error.  For the other three variants, with the limits
    their constructors give them, serialising succeeds and parsing the
    result yields a frame that is [AlmostEquals] the original, when the
    parts outside the sources do their share: the encoder writes the config
    of the frame and the decoder reads it back; the orientation and the
    geometry convert to their configs and are read back, the pose read back
    being almost equal to the pose of the frame; the bounds of the limit
    are almost equal to themselves, for a rotational frame after the
    conversion to degrees and back; and the stored axis is not within
    [1e-8] of zero and stays within [1e-8] of itself when it is normalised
    again. *)
Theorem MarshalJSON_round_trip :
  (forall mf,
      MarshalJSON (Mobile2DFrame mf)
      = Returns (None, Some "MarshalJSON not implemented for type referenceframe.mobile2DFrame"%string))
  /\ (forall sf orientationConfig o' geometryConfig data,
        limits (sf_baseFrame sf) = [] ->
        orientationConverts (spatial.PoseOrientation (sf_transform sf))
          orientationConfig o' ->
        spatial.PoseAlmostEqual
          {| spatial.Point := spatial.Point (sf_transform sf);
             spatial.PoseOrientation := o' |} (sf_transform sf) = true ->
        geometryConverts (sf_geometry sf) geometryConfig ->
        linkReadsBack {| lc_ID := name (sf_baseFrame sf);
                         lc_Parent := "";
                         lc_Translation := spatial.Point (sf_transform sf);
                         lc_Orientation := orientationConfig;
                         lc_Geometry := geometryConfig |} data ->
        MarshalJSON (StaticFrame sf) = Returns (Some data, None)
        /\ exists f', ParseLinkConfig data = (Some f', None)
                      /\ AlmostEquals f' (StaticFrame sf) = true)
  /\ (forall pf limit geometryConfig data,
        limits (pf_baseFrame pf) = [limit] ->
        utils.Float64AlmostEqual (Min limit) (Min limit) 0x1.4f8b588e368f1p-17 = true ->
        utils.Float64AlmostEqual (Max limit) (Max limit) 0x1.4f8b588e368f1p-17 = true ->
        spatial.R3VectorAlmostEqual r3.zero (pf_transAxis pf) 0x1.5798ee2308c3ap-27
        = false ->
        spatial.R3VectorAlmostEqual (r3.Normalize (pf_transAxis pf)) (pf_transAxis pf)
          0x1.5798ee2308c3ap-27 = true ->
        geometryConverts (pf_geometry pf) geometryConfig ->
        jointReadsBack {| jc_ID := name (pf_baseFrame pf);
                          jc_Type := "prismatic";
                          jc_Parent := "";
                          jc_Axis := pf_transAxis pf;
                          jc_Max := Max limit;
                          jc_Min := Min limit;
                          jc_Geometry := geometryConfig |} data ->
        MarshalJSON (TranslationalFrame pf) = Returns (Some data, None)
        /\ exists f', ParseJointConfig data = (Some f', None)
                      /\ AlmostEquals f' (TranslationalFrame pf) = true)
  /\ (forall rf limit data,
        limits (rf_baseFrame rf) = [limit] ->
        utils.Float64AlmostEqual (degrees.DegToRad (utils.RadToDeg (Min limit)))
          (Min limit) 0x1.4f8b588e368f1p-17 = true ->
        utils.Float64AlmostEqual (degrees.DegToRad (utils.RadToDeg (Max limit)))
          (Max limit) 0x1.4f8b588e368f1p-17 = true ->
        (let axis := spatial.Normalize {| spatial.Theta := 0;
                                          spatial.RX := r3.X (rf_rotAxis rf);
                                          spatial.RY := r3.Y (rf_rotAxis rf);
                                          spatial.RZ := r3.Z (rf_rotAxis rf) |} in
         spatial.R3VectorAlmostEqual
           {| r3.X := spatial.RX axis; r3.Y := spatial.RY axis; r3.Z := spatial.RZ axis |}
           (rf_rotAxis rf) 0x1.5798ee2308c3ap-27 = true) ->
        jointReadsBack {| jc_ID := name (rf_baseFrame rf);
                          jc_Type := "revolute";
                          jc_Parent := "";
                          jc_Axis := rf_rotAxis rf;
                          jc_Max := utils.RadToDeg (Max limit);
                          jc_Min := utils.RadToDeg (Min limit);
                          jc_Geometry := None |} data ->
        MarshalJSON (RotationalFrame rf) = Returns (Some data, None)
        /\ exists f', ParseJointConfig data = (Some f', None)
                      /\ AlmostEquals f' (RotationalFrame rf) = true).
Proof.
  destruct MarshalJSON_by_variant as (Hm & Hs & Hp & Hr).
  split; [exact Hm|]. split; [|split].
  - intros sf oc o' gc data Hl [Ho Ho'] Hpose [Hg Hg'] [Hw Hrd].
    split; [rewrite (Hs sf oc gc Ho Hg); now rewrite Hw|].
    unfold ParseLinkConfig. rewrite Hrd.
    unfold LinkConfig_ToFrame. cbn [lc_Orientation lc_Geometry lc_Translation lc_ID].
    assert (Hor : match oc with
                  | Some c => spatial.OrientationConfig_ParseConfig c
                  | None => inl spatial.NewZeroOrientation
                  end = inl o')
      by (destruct oc; [exact Ho' | now rewrite Ho']).
    rewrite Hor.
    assert (Heq : forall g,
               AlmostEquals
                 (StaticFrame
                    {| sf_baseFrame := {| name := name (sf_baseFrame sf); limits := [] |};
                       sf_transform := {| spatial.Point := spatial.Point (sf_transform sf);
                                          spatial.PoseOrientation := o' |};
                       sf_geometry := g |})
                 (StaticFrame sf) = true).
    { intros g. cbn [AlmostEquals]. unfold staticFrame_AlmostEquals, baseFrame_AlmostEquals.
      cbn [sf_baseFrame sf_transform name limits]. rewrite Hl, String.eqb_refl, Hpose.
      reflexivity. }
    destruct gc as [c|].
    + destruct Hg' as [g' Hg']. rewrite Hg'. eexists. split; [reflexivity | apply Heq].
    + eexists. split; [reflexivity | apply Heq].
  - intros pf limit gc data Hl Hmin Hmax Hz Hn [Hg Hg'] [Hw Hrd].
    split; [rewrite (Hp pf limit gc Hl Hg); now rewrite Hw|].
    unfold ParseJointConfig. rewrite Hrd.
    unfold JointConfig_ToFrame.
    cbn [jc_Type jc_ID jc_Axis jc_Min jc_Max jc_Geometry].
    change (String.eqb "prismatic" RevoluteJoint) with false.
    change (String.eqb "prismatic" PrismaticJoint) with true.
    cbv iota.
    assert (Heq : forall g,
               NewTranslationalFrameWithGeometry (name (pf_baseFrame pf))
                 (pf_transAxis pf) {| Min := Min limit; Max := Max limit |} g
               = (Some (TranslationalFrame
                          {| pf_baseFrame := {| name := name (pf_baseFrame pf);
                                                limits := [{| Min := Min limit;
                                                              Max := Max limit |}] |};
                             pf_transAxis := r3.Normalize (pf_transAxis pf);
                             pf_geometry := g |}), None)
               /\ AlmostEquals
                    (TranslationalFrame
                       {| pf_baseFrame := {| name := name (pf_baseFrame pf);
                                             limits := [{| Min := Min limit;
                                                           Max := Max limit |}] |};
                          pf_transAxis := r3.Normalize (pf_transAxis pf);
                          pf_geometry := g |})
                    (TranslationalFrame pf) = true).
    { intros g. split.
      - unfold NewTranslationalFrameWithGeometry. now rewrite Hz.
      - cbn [AlmostEquals]. unfold translationalFrame_AlmostEquals, baseFrame_AlmostEquals.
        cbn [pf_baseFrame pf_transAxis name limits].
        rewrite Hl, String.eqb_refl, Hn. unfold limitsAlmostEqual.
        cbn [length Nat.eqb negb limitsAlmostEqual_range Min Max].
        now rewrite Hmin, Hmax. }
    destruct gc as [c|].
    + destruct Hg' as [g' Hg']. rewrite Hg'.
      eexists. split; [apply (Heq (Some g')) | apply Heq].
    + eexists. split; [apply (Heq None) | apply Heq].
  - intros rf limit data Hl Hmin Hmax Hn [Hw Hrd].
    split; [rewrite (Hr rf limit Hl); now rewrite Hw|].
    unfold ParseJointConfig. rewrite Hrd.
    unfold JointConfig_ToFrame.
    cbn [jc_Type jc_ID jc_Axis jc_Min jc_Max jc_Geometry].
    change (String.eqb "revolute" RevoluteJoint) with true.
    cbv iota. unfold NewRotationalFrame.
    eexists. split; [reflexivity|].
    cbn [AlmostEquals]. unfold rotationalFrame_AlmostEquals, baseFrame_AlmostEquals.
    cbn [rf_baseFrame rf_rotAxis name limits].
    cbv zeta in Hn. rewrite Hl, String.eqb_refl, Hn. unfold limitsAlmostEqual.
    cbn [length Nat.eqb negb limitsAlmostEqual_range Min Max].
    now rewrite Hmin, Hmax.
Qed.

End RoundTrip.

(** ** Rounding of [float64] sums, differences and products

    [SpecFloat]'s rounding, written as the rounding [RN] of scaled integers,
    and from it: a value sampled as [r * (u - l) + l] stays between [l] and
    [u]. *)

Module binary64_facts.
Import binary64.
#[local] Open Scope Z_scope.

(** The number of binary digits of a mantissa. *)
Lemma digits2_pos_size (m : positive) : digits2_pos m = Pos.size m.
Proof. induction m; simpl; congruence. Qed.

Lemma digits2_pos_log2 (m : positive) : Zpos (digits2_pos m) = Z.log2 (Zpos m) + 1.
Proof.
  rewrite digits2_pos_size. destruct m; simpl; try reflexivity; rewrite Pos.add_1_r; reflexivity.
Qed.

Lemma digits2_pos_bounds (m : positive) :
  2 ^ (Zpos (digits2_pos m) - 1) <= Zpos m < 2 ^ Zpos (digits2_pos m).
Proof.
  rewrite digits2_pos_log2.
  replace (Z.log2 (Zpos m) + 1 - 1) with (Z.log2 (Zpos m)) by lia.
  replace (Z.log2 (Zpos m) + 1) with (Z.succ (Z.log2 (Zpos m))) by lia.
  apply Z.log2_spec. lia.
Qed.

(** [iter_pos] as an iteration over [nat]. *)
Lemma iter_pos_nat {A} (f : A -> A) (p : positive) (x : A) :
  SpecFloat.iter_pos f p x = Nat.iter (Pos.to_nat p) f x.
Proof.
  revert x; induction p as [p IH|p IH|]; intros x; cbn [SpecFloat.iter_pos].
  - rewrite !IH, Pos2Nat.inj_xI.
    replace (S (2 * Pos.to_nat p))%nat with (Pos.to_nat p + (Pos.to_nat p + 1))%nat by lia.
    rewrite !Nat.iter_add. reflexivity.
  - rewrite !IH, Pos2Nat.inj_xO.
    replace (2 * Pos.to_nat p)%nat with (Pos.to_nat p + Pos.to_nat p)%nat by lia.
    rewrite Nat.iter_add. reflexivity.
  - reflexivity.
Qed.

(** One step of [shr]: the mantissa is halved, the round bit is the bit
    shifted out and the sticky bit collects the earlier ones. *)
Lemma shr_1_spec (mrs : shr_record) :
  0 <= shr_m mrs ->
  shr_1 mrs = {| shr_m := shr_m mrs / 2; shr_r := Z.odd (shr_m mrs);
                 shr_s := shr_r mrs || shr_s mrs |}.
Proof.
  destruct mrs as [m r s]. simpl. intros Hm.
  rewrite <- Z.div2_div.
  destruct m as [|[p|p|]|]; try lia; reflexivity.
Qed.

Lemma mod_pow2_succ (m a : Z) :
  0 <= a -> m mod 2 ^ (a + 1) = m mod 2 ^ a + 2 ^ a * ((m / 2 ^ a) mod 2).
Proof.
  intros Ha. rewrite Z.pow_add_r, Z.pow_1_r by lia.
  apply Z.rem_mul_r; [apply Z.pow_nonzero; lia | lia].
Qed.

(** After [k] steps: the quotient by [2^k], the last bit shifted out and
    whether anything lower was. *)
Lemma shr_state_spec (m0 : Z) (k : nat) :
  0 <= m0 ->
  shr_m (shr_state m0 k) = m0 / 2 ^ Z.of_nat k
  /\ match k with
     | O => shr_r (shr_state m0 k) = false /\ shr_s (shr_state m0 k) = false
     | S k' => shr_r (shr_state m0 k) = Z.odd (m0 / 2 ^ Z.of_nat k')
               /\ shr_s (shr_state m0 k) = negb (m0 mod 2 ^ Z.of_nat k' =? 0)
     end.
Proof.
  intros Hm0. induction k as [|k [IHm IHrs]].
  - simpl. rewrite Z.div_1_r. auto.
  - unfold shr_state in *. rewrite Nat.iter_succ.
    set (mrs := Nat.iter k shr_1 _) in *.
    assert (Hq : 0 <= shr_m mrs).
    { rewrite IHm. apply Z.div_pos; [lia | apply Z.pow_pos_nonneg; lia]. }
    rewrite (shr_1_spec mrs Hq). simpl shr_m; simpl shr_r; simpl shr_s.
    split; [|split].
    + rewrite IHm, Nat2Z.inj_succ, Z.pow_succ_r by lia.
      rewrite Z.div_div by (try apply Z.pow_pos_nonneg; lia).
      f_equal. lia.
    + now rewrite IHm.
    + destruct k as [|k'].
      * destruct IHrs as [-> ->]. simpl. rewrite Z.mod_1_r. reflexivity.
      * destruct IHrs as [-> ->].
        rewrite (Nat2Z.inj_succ k').
        replace (Z.succ (Z.of_nat k')) with (Z.of_nat k' + 1) by lia.
        rewrite mod_pow2_succ by lia.
        set (a := 2 ^ Z.of_nat k').
        assert (0 < a) by (apply Z.pow_pos_nonneg; lia).
        pose proof (Z.mod_pos_bound m0 a ltac:(lia)).
        rewrite (Zmod_odd (m0 / a)).
        destruct (Z.odd (m0 / a)); simpl.
        -- symmetry. apply negb_true_iff, Z.eqb_neq. nia.
        -- f_equal. f_equal. lia.
Qed.

(** Rounding the shifted mantissa by its round and sticky bits is rounding
    to nearest, ties to even. *)
Lemma round_shr (m0 : Z) (k : nat) :
  0 <= m0 ->
  round_nearest_even (shr_m (shr_state m0 k)) (loc_of_shr_record (shr_state m0 k))
  = rne m0 (Z.of_nat k).
Proof.
  intros Hm0. destruct (shr_state_spec m0 k Hm0) as [Hm Hrs].
  destruct (shr_state m0 k) as [m r s]. simpl in *. subst m.
  unfold rne. destruct k as [|k'].
  - destruct Hrs as [-> ->]. cbn [loc_of_shr_record round_nearest_even].
    change (Z.of_nat 0) with 0. rewrite Z.pow_0_r, Z.mod_1_r, Z.div_1_r. reflexivity.
  - destruct Hrs as [-> ->].
    rewrite (Nat2Z.inj_succ k').
    replace (Z.succ (Z.of_nat k')) with (Z.of_nat k' + 1) by lia.
    rewrite mod_pow2_succ by lia.
    rewrite Z.pow_add_r, Z.pow_1_r by lia.
    set (a := 2 ^ Z.of_nat k').
    assert (0 < a) by (apply Z.pow_pos_nonneg; lia).
    pose proof (Z.mod_pos_bound m0 a ltac:(lia)) as Hlow.
    set (low := m0 mod a) in *.
    rewrite (Zmod_odd (m0 / a)).
    destruct (Z.odd (m0 / a)); destruct (Z.eqb_spec low 0) as [E|E];
      cbn [negb loc_of_shr_record round_nearest_even].
    + (* exactly half *)
      destruct (Z.ltb_spec (2 * (low + a * 1)) (a * 2)); [lia|].
      destruct (Z.ltb_spec (a * 2) (2 * (low + a * 1))); [lia|]. reflexivity.
    + destruct (Z.ltb_spec (2 * (low + a * 1)) (a * 2)); [lia|].
      destruct (Z.ltb_spec (a * 2) (2 * (low + a * 1))); [|lia]. reflexivity.
    + destruct (Z.ltb_spec (2 * (low + a * 0)) (a * 2)); [|lia]. reflexivity.
    + destruct (Z.ltb_spec (2 * (low + a * 0)) (a * 2)); [|lia]. reflexivity.
Qed.

Lemma pow2_pos (a : Z) : 0 <= a -> 0 < 2 ^ a.
Proof. intros. apply Z.pow_pos_nonneg; lia. Qed.

Lemma rne_bounds (N G : Z) :
  0 <= G -> N / 2 ^ G <= rne N G <= N / 2 ^ G + 1.
Proof.
  intros HG. unfold rne.
  destruct (_ <? _); [lia|]. destruct (_ <? _); [lia|]. destruct (Z.even _); lia.
Qed.

Lemma rne_exact (N G : Z) :
  0 <= G -> N mod 2 ^ G = 0 -> rne N G = N / 2 ^ G.
Proof.
  intros HG Hr. unfold rne. rewrite Hr.
  pose proof (pow2_pos G HG).
  destruct (Z.ltb_spec (2 * 0) (2 ^ G)); [reflexivity | lia].
Qed.

Lemma rne_mul (c G : Z) : 0 <= G -> rne (c * 2 ^ G) G = c.
Proof.
  intros HG. pose proof (pow2_pos G HG).
  rewrite rne_exact by (try apply Z.mod_mul; lia).
  apply Z.div_mul. lia.
Qed.

Lemma rne_mono (N1 N2 G : Z) :
  0 <= G -> N1 <= N2 -> rne N1 G <= rne N2 G.
Proof.
  intros HG HN. pose proof (pow2_pos G HG) as Hp.
  pose proof (Z.div_le_mono N1 N2 (2 ^ G) Hp HN) as Hq.
  destruct (Z.eq_dec (N1 / 2 ^ G) (N2 / 2 ^ G)) as [E|E].
  - pose proof (Z.div_mod N1 (2 ^ G) ltac:(lia)) as D1.
    pose proof (Z.div_mod N2 (2 ^ G) ltac:(lia)) as D2.
    unfold rne. rewrite E in *.
    set (q := N2 / 2 ^ G) in *. set (r1 := N1 mod 2 ^ G) in *.
    set (r2 := N2 mod 2 ^ G) in *. set (a := 2 ^ G) in *.
    assert (r1 <= r2) by nia.
    destruct (Z.ltb_spec (2 * r1) a); destruct (Z.ltb_spec (2 * r2) a);
      destruct (Z.ltb_spec a (2 * r1)); destruct (Z.ltb_spec a (2 * r2));
      destruct (Z.even q); lia.
  - pose proof (rne_bounds N1 G HG). pose proof (rne_bounds N2 G HG). lia.
Qed.

Lemma rne_le (N c G : Z) : 0 <= G -> N <= c * 2 ^ G -> rne N G <= c.
Proof.
  intros HG H. rewrite <- (rne_mul c G HG). now apply rne_mono.
Qed.

Lemma rne_ge (N c G : Z) : 0 <= G -> c * 2 ^ G <= N -> c <= rne N G.
Proof.
  intros HG H. rewrite <- (rne_mul c G HG). now apply rne_mono.
Qed.

Lemma rne_scale (m n a : Z) :
  0 <= n -> 0 <= a -> rne (m * 2 ^ a) (n + a) = rne m n.
Proof.
  intros Hn Ha. unfold rne.
  pose proof (pow2_pos n Hn). pose proof (pow2_pos a Ha).
  rewrite Z.pow_add_r by lia.
  rewrite Z.div_mul_cancel_r by lia.
  rewrite Z.mul_mod_distr_r by lia.
  set (r := m mod 2 ^ n). set (x := 2 ^ n) in *. set (y := 2 ^ a) in *.
  destruct (Z.ltb_spec (2 * r) x); destruct (Z.ltb_spec (2 * (r * y)) (x * y));
    try nia; try reflexivity.
  destruct (Z.ltb_spec x (2 * r)); destruct (Z.ltb_spec (x * y) (2 * (r * y)));
    try nia; reflexivity.
Qed.

Lemma grid_ge (N : Z) : 1074 <= grid N.
Proof. unfold grid. lia. Qed.

Lemma grid_mono (N1 N2 : Z) : N1 <= N2 -> grid N1 <= grid N2.
Proof. intros H. unfold grid. pose proof (Z.log2_le_mono N1 N2 H). lia. Qed.

Lemma RN_0 : RN 0 = 0.
Proof. reflexivity. Qed.

(** A value on its own grid is not moved. *)
Lemma RN_fixed (N : Z) : N mod 2 ^ grid N = 0 -> RN N = N.
Proof.
  intros H. unfold RN. pose proof (grid_ge N).
  rewrite rne_exact by (try lia; assumption).
  pose proof (Z.div_mod N (2 ^ grid N) ltac:(pose proof (pow2_pos (grid N)); lia)).
  lia.
Qed.

Lemma RN_nonneg (N : Z) : 0 <= N -> 0 <= RN N.
Proof.
  intros H. unfold RN. pose proof (grid_ge N).
  pose proof (pow2_pos (grid N) ltac:(lia)).
  pose proof (rne_ge N 0 (grid N) ltac:(lia) ltac:(lia)). nia.
Qed.

(** Rounding is monotone. *)
Lemma RN_mono (N1 N2 : Z) : 0 <= N1 -> N1 <= N2 -> RN N1 <= RN N2.
Proof.
  intros H1 H12. unfold RN.
  pose proof (grid_ge N1) as Hg1. pose proof (grid_mono N1 N2 H12) as Hg.
  destruct (Z.eq_dec (grid N1) (grid N2)) as [E|E].
  - rewrite E. pose proof (pow2_pos (grid N2) ltac:(lia)).
    pose proof (rne_mono N1 N2 (grid N2) ltac:(lia) H12). nia.
  - assert (Hlt : grid N1 < grid N2) by lia.
    assert (HG2 : grid N2 = Z.log2 N2 - 52) by (unfold grid in *; lia).
    assert (HN2 : 0 < N2).
    { destruct (Z.le_gt_cases N2 0) as [Hle|]; [|assumption].
      rewrite (Z.log2_nonpos N2 Hle) in HG2. lia. }
    pose proof (Z.log2_spec N2 HN2) as [Hlo _].
    assert (Hr2 : 2 ^ 52 <= rne N2 (grid N2)).
    { apply rne_ge; [lia|]. rewrite <- Z.pow_add_r by lia.
      replace (52 + grid N2) with (Z.log2 N2) by lia. exact Hlo. }
    assert (Hr1 : rne N1 (grid N1) <= 2 ^ 53).
    { apply rne_le; [lia|]. rewrite <- Z.pow_add_r by lia.
      destruct (Z.eq_dec N1 0) as [->|];
        [pose proof (pow2_pos (53 + grid 0) ltac:(lia)); lia|].
      pose proof (Z.log2_spec N1 ltac:(lia)) as [_ Hhi].
      assert (Z.succ (Z.log2 N1) <= 53 + grid N1) by (unfold grid; lia).
      pose proof (Z.pow_le_mono_r 2 _ _ ltac:(lia) H). lia. }
    pose proof (pow2_pos (grid N1) ltac:(lia)).
    pose proof (pow2_pos (grid N2) ltac:(lia)).
    assert (2 ^ 53 * 2 ^ grid N1 <= 2 ^ 52 * 2 ^ grid N2).
    { rewrite <- !Z.pow_add_r by lia. apply Z.pow_le_mono_r; lia. }
    pose proof (rne_ge N1 0 (grid N1) ltac:(lia) ltac:(lia)).
    nia.
Qed.

(** *** [binary_round] in terms of [RN] *)

Lemma fexp_eq (e : Z) : fexp prec emax e = Z.max (e - 53) (-1074).
Proof. reflexivity. Qed.

Lemma shr_spec (mrs : shr_record) (e n : Z) :
  0 <= n -> shr mrs e n = (Nat.iter (Z.to_nat n) shr_1 mrs, e + n).
Proof.
  intros Hn. destruct n as [|p|p]; try lia.
  - simpl. now rewrite Z.add_0_r.
  - unfold shr. rewrite iter_pos_nat. reflexivity.
Qed.

Lemma shr_nonpos (mrs : shr_record) (e n : Z) :
  n <= 0 -> shr mrs e n = (mrs, e).
Proof. intros Hn. destruct n as [|p|p]; try lia; reflexivity. Qed.

Lemma Zdigits2_pos (m : positive) :
  Zdigits2 (Zpos m) = Z.log2 (Zpos m) + 1.
Proof. simpl. apply digits2_pos_log2. Qed.

Lemma log2_val (m : positive) (a : Z) :
  0 <= a -> Z.log2 (Zpos m * 2 ^ a) = Z.log2 (Zpos m) + a.
Proof.
  intros Ha. rewrite Z.log2_mul_pow2 by lia. lia.
Qed.

Lemma grid_val (m : positive) (e : Z) :
  - K <= e ->
  grid (Zpos m * 2 ^ (e + K)) = fexp prec emax (Zdigits2 (Zpos m) + e) + K.
Proof.
  intros He. unfold grid. rewrite log2_val by lia.
  rewrite fexp_eq, Zdigits2_pos. unfold K. lia.
Qed.

Lemma pos_lt_pow2_digits (m : positive) :
  Zpos m < 2 ^ (Z.log2 (Zpos m) + 1).
Proof.
  pose proof (Z.log2_spec (Zpos m) ltac:(lia)). 
  replace (Z.log2 (Zpos m) + 1) with (Z.succ (Z.log2 (Zpos m))) by lia. lia.
Qed.

Lemma log2_lt_pow2_iff (m : positive) (a : Z) :
  0 <= a -> (Zpos m < 2 ^ a <-> Z.log2 (Zpos m) < a).
Proof.
  intros Ha. apply Z.log2_lt_pow2. lia.
Qed.

(** [binary_round_aux] on an exact mantissa and exponent returns the float
    of the rounded value, or an infinity when that overflows. *)
Lemma binary_round_aux_represents (s : bool) (mz : positive) (ez : Z) :
  - K <= ez ->
  ez <= fexp prec emax (Zdigits2 (Zpos mz) + ez) ->
  represents (binary_round_aux prec emax s (Zpos mz) ez loc_Exact) s
    (RN (Zpos mz * 2 ^ (ez + K))).
Proof.
  intros HK Hg.
  pose proof (grid_val mz ez HK) as HG.
  unfold binary_round_aux, shr_fexp. cbn [shr_record_of_loc].
  remember (Zpos mz * 2 ^ (ez + K)) as N eqn:EN.
  remember (fexp prec emax (Zdigits2 (Zpos mz) + ez)) as g eqn:Eg.
  assert (Hgmin : -1074 <= g) by (rewrite Eg, fexp_eq; lia).
  remember (g - ez) as n1 eqn:En1.
  assert (Hn1 : 0 <= n1) by lia.
  remember (rne (Zpos mz) n1) as m1 eqn:Em1.
  assert (Hm1 : rne N (grid N) = m1).
  { rewrite HG, EN, Em1.
    replace (g + K) with (n1 + (ez + K)) by lia.
    apply rne_scale; lia. }
  assert (HRN : RN N = m1 * 2 ^ (g + K)) by (unfold RN; now rewrite Hm1, HG).
  assert (Hm1_0 : 0 <= m1) by (rewrite Em1; apply rne_ge; lia).
  assert (Hdz : Zdigits2 (Zpos mz) <= 53 + n1).
  { rewrite fexp_eq in Eg. lia. }
  assert (Hm1_hi : m1 <= 2 ^ 53).
  { rewrite Em1. apply rne_le; [lia|]. rewrite <- Z.pow_add_r by lia.
    pose proof (pos_lt_pow2_digits mz). rewrite Zdigits2_pos in Hdz.
    pose proof (Z.pow_le_mono_r 2 (Z.log2 (Zpos mz) + 1) (53 + n1) ltac:(lia) Hdz).
    lia. }
  assert (Hm1_lo : -1074 < g -> 2 ^ 52 <= m1).
  { intros Hnorm. rewrite Em1. apply rne_ge; [lia|]. rewrite <- Z.pow_add_r by lia.
    assert (E : 52 + n1 = Z.log2 (Zpos mz)).
    { rewrite fexp_eq in Eg. rewrite Zdigits2_pos in *. lia. }
    rewrite E. apply Z.log2_spec. lia. }
  assert (Hpow : 0 < 2 ^ (g + K)) by (apply pow2_pos; unfold K; lia).
  (* run the algorithm *)
  rewrite shr_spec by exact Hn1.
  cbv beta iota.
  pose proof (round_shr (Zpos mz) (Z.to_nat n1) ltac:(lia)) as Hr.
  unfold shr_state in Hr. rewrite Hr. clear Hr.
  rewrite Z2Nat.id by exact Hn1. rewrite <- Em1.
  replace (ez + n1) with g by lia.
  clear Em1 EN HG Hm1.
  destruct m1 as [|p1|p1]; [| |lia].
  - (* rounds to zero *)
    rewrite shr_nonpos by (cbn [Zdigits2]; rewrite fexp_eq; lia).
    cbn. split; [reflexivity | lia].
  - destruct (Z.eq_dec (Zpos p1) (2 ^ 53)) as [E53|N53].
    + (* the mantissa reached 2^53 *)
      assert (p1 = 9007199254740992%positive)
        by (change (2 ^ 53) with 9007199254740992 in E53; congruence).
      subst p1.
      replace (fexp prec emax (Zdigits2 9007199254740992 + g) - g) with 1
        by (rewrite fexp_eq; change (Zdigits2 9007199254740992) with 54; lia).
      cbn [shr SpecFloat.iter_pos shr_1 shr_m].
      change (emax - prec) with 971.
      destruct (Z.leb_spec (g + 1) 971) as [Hle|Hgt]; cbn [represents].
      * replace (g + 1 + K) with (1 + (g + K)) by lia.
        rewrite Z.pow_add_r by (unfold K; lia).
        split; [reflexivity|]. split; [rewrite HRN; lia|].
        split; [|lia]. rewrite HRN.
        change (9007199254740992) with (2 ^ 53).
        rewrite <- Z.pow_add_r by (unfold K; lia).
        apply Z.pow_lt_mono_r; unfold K; lia.
      * split; [reflexivity|]. rewrite HRN.
        change (9007199254740992) with (2 ^ 53).
        rewrite <- Z.pow_add_r by (unfold K; lia).
        apply Z.pow_le_mono_r; unfold K; lia.
    + assert (Hlt : Zpos p1 < 2 ^ 53) by lia.
      assert (Hd1 : Zdigits2 (Zpos p1) <= 53).
      { rewrite Zdigits2_pos. apply log2_lt_pow2_iff in Hlt; lia. }
      rewrite shr_nonpos by (rewrite fexp_eq; lia).
      cbn [shr_m]. change (emax - prec) with 971.
      destruct (Z.leb_spec g 971) as [Hle|Hgt]; cbn [represents].
      * split; [reflexivity|]. split; [now rewrite HRN|].
        split; [|lia]. rewrite HRN.
        assert (2 ^ 53 * 2 ^ (g + K) <= 2 ^ (1024 + K)).
        { rewrite <- Z.pow_add_r by (unfold K; lia).
          apply Z.pow_le_mono_r; unfold K; lia. }
        nia.
      * split; [reflexivity|]. rewrite HRN.
        specialize (Hm1_lo ltac:(lia)).
        assert (2 ^ (1024 + K) <= 2 ^ 52 * 2 ^ (g + K)).
        { rewrite <- Z.pow_add_r by (unfold K; lia).
          apply Z.pow_le_mono_r; unfold K; lia. }
        nia.
Qed.

Lemma pos_iter_xO (m p : positive) : Zpos (Pos.iter xO m p) = Zpos m * 2 ^ Zpos p.
Proof.
  induction p as [|p IH] using Pos.peano_ind.
  - simpl. lia.
  - rewrite Pos.iter_succ, Pos2Z.inj_succ, Z.pow_succ_r by lia.
    rewrite Pos2Z.inj_xO, IH. lia.
Qed.

Lemma shl_align_spec (m : positive) (e g : Z) :
  snd (shl_align m e g) = Z.min e g
  /\ Zpos (fst (shl_align m e g)) = Zpos m * 2 ^ (e - Z.min e g).
Proof.
  unfold shl_align. destruct (g - e) as [|p|p] eqn:E; cbn [fst snd].
  - replace (Z.min e g) with e by lia. rewrite Z.sub_diag, Z.pow_0_r. lia.
  - replace (Z.min e g) with e by lia. rewrite Z.sub_diag, Z.pow_0_r. lia.
  - replace (Z.min e g) with g by lia. split; [reflexivity|].
    rewrite pos_iter_xO. f_equal. f_equal. lia.
Qed.

(** The same for [binary_round], which first aligns the mantissa. *)
Lemma binary_round_represents (s : bool) (m : positive) (e : Z) :
  - K <= e ->
  represents (binary_round prec emax s m e) s (RN (Zpos m * 2 ^ (e + K))).
Proof.
  intros HK. unfold binary_round.
  pose proof (shl_align_spec m e (fexp prec emax (Zpos (digits2_pos m) + e))) as [He Hm].
  destruct (shl_align m e _) as [mz ez]. cbn [fst snd] in He, Hm.
  remember (fexp prec emax (Zpos (digits2_pos m) + e)) as g eqn:Eg.
  assert (Hgmin : -1074 <= g) by (rewrite Eg, fexp_eq; lia).
  assert (Hez : - K <= ez) by (unfold K in *; lia).
  assert (Hval : Zpos mz * 2 ^ (ez + K) = Zpos m * 2 ^ (e + K)).
  { rewrite Hm, <- Z.mul_assoc, <- Z.pow_add_r by lia. f_equal. f_equal. lia. }
  rewrite <- Hval. apply binary_round_aux_represents; [exact Hez|].
  assert (Hd : Zdigits2 (Zpos mz) + ez = Zpos (digits2_pos m) + e).
  { rewrite Zdigits2_pos, Hm, log2_val, digits2_pos_log2 by lia. lia. }
  rewrite Hd, <- Eg. lia.
Qed.

(** *** Values of finite floats and their order *)

Lemma valid_finite (s : bool) (m : positive) (e : Z) :
  valid_binary (S754_finite s m e) = true ->
  e = Z.max (Z.log2 (Zpos m) + e - 52) (-1074) /\ e <= 971.
Proof.
  unfold SpecFloat.valid_binary, bounded, canonical_mantissa.
  intros H. apply andb_true_iff in H as [Hc Hb].
  apply Z.eqb_eq in Hc. apply Z.leb_le in Hb.
  rewrite fexp_eq, digits2_pos_log2 in Hc. change (emax - prec) with 971 in Hb.
  lia.
Qed.

Lemma valid_finite_bounds (s : bool) (m : positive) (e : Z) :
  valid_binary (S754_finite s m e) = true ->
  -1074 <= e <= 971 /\ Zpos m < 2 ^ 53 /\ (-1074 < e -> 2 ^ 52 <= Zpos m).
Proof.
  intros H. apply valid_finite in H as [Hc Hb].
  split; [lia|]. split.
  - apply log2_lt_pow2_iff; lia.
  - intros He. assert (E : Z.log2 (Zpos m) = 52) by lia.
    rewrite <- E. apply Z.log2_spec. lia.
Qed.

Lemma val_pos (m : positive) (e : Z) : - K <= e -> 0 < Zpos m * 2 ^ (e + K).
Proof. intros. pose proof (pow2_pos (e + K) ltac:(lia)). nia. Qed.

Lemma canonical_lt (s1 s2 : bool) (m1 m2 : positive) (e1 e2 : Z) :
  valid_binary (S754_finite s1 m1 e1) = true ->
  valid_binary (S754_finite s2 m2 e2) = true ->
  e1 < e2 ->
  Zpos m1 * 2 ^ (e1 + K) < Zpos m2 * 2 ^ (e2 + K).
Proof.
  intros H1 H2 Hlt.
  apply valid_finite_bounds in H1 as (He1 & Hm1 & _).
  apply valid_finite_bounds in H2 as (He2 & _ & Hm2).
  specialize (Hm2 ltac:(lia)).
  pose proof (pow2_pos (e1 + K) ltac:(unfold K; lia)).
  pose proof (pow2_pos (e2 + K) ltac:(unfold K; lia)).
  assert (2 ^ 53 * 2 ^ (e1 + K) <= 2 ^ 52 * 2 ^ (e2 + K)).
  { rewrite <- !Z.pow_add_r by (unfold K; lia). apply Z.pow_le_mono_r; lia. }
  nia.
Qed.

Lemma compare_pos_val (s1 s2 : bool) (m1 m2 : positive) (e1 e2 : Z) :
  valid_binary (S754_finite s1 m1 e1) = true ->
  valid_binary (S754_finite s2 m2 e2) = true ->
  match Z.compare e1 e2 with
  | Lt => Lt
  | Gt => Gt
  | Eq => Pos.compare_cont Eq m1 m2
  end = (Zpos m1 * 2 ^ (e1 + K) ?= Zpos m2 * 2 ^ (e2 + K)).
Proof.
  intros H1 H2. destruct (Z.compare_spec e1 e2) as [E|L|G].
  - subst e2. pose proof (valid_finite_bounds _ _ _ H1) as (He & _).
    rewrite <- Zmult_compare_compat_r by (apply Z.lt_gt, pow2_pos; unfold K; lia).
    reflexivity.
  - symmetry. apply Z.compare_lt_iff. eapply canonical_lt; eauto.
  - symmetry. apply Z.compare_gt_iff. eapply canonical_lt; eauto.
Qed.

(** Finite floats compare as their values. *)
Lemma SFcompare_val (x y : spec_float) :
  valid_binary x = true -> valid_binary y = true ->
  finite x = true -> finite y = true ->
  SFcompare x y = Some (fval x ?= fval y).
Proof.
  intros Vx Vy Fx Fy.
  destruct x as [sx|sx| |sx mx ex]; try discriminate;
    destruct y as [sy|sy| |sy my ey]; try discriminate; cbn [SFcompare fval].
  - reflexivity.
  - pose proof (valid_finite_bounds _ _ _ Vy) as (He & _).
    pose proof (val_pos my ey ltac:(unfold K; lia)).
    destruct sy; cbn [cond_Zopp]; f_equal; symmetry;
      [apply Z.compare_gt_iff | apply Z.compare_lt_iff]; lia.
  - pose proof (valid_finite_bounds _ _ _ Vx) as (He & _).
    pose proof (val_pos mx ex ltac:(unfold K; lia)).
    destruct sx; cbn [cond_Zopp]; f_equal; symmetry;
      [apply Z.compare_lt_iff | apply Z.compare_gt_iff]; lia.
  - pose proof (valid_finite_bounds _ _ _ Vx) as (Hex & _).
    pose proof (valid_finite_bounds _ _ _ Vy) as (Hey & _).
    pose proof (val_pos mx ex ltac:(unfold K; lia)).
    pose proof (val_pos my ey ltac:(unfold K; lia)).
    destruct sx, sy; cbn [cond_Zopp]; f_equal.
    + rewrite Z.compare_opp, (Z.compare_antisym (Zpos mx * _)).
      rewrite <- (compare_pos_val true true mx my ex ey Vx Vy).
      destruct (ex ?= ey); reflexivity.
    + symmetry. apply Z.compare_lt_iff. lia.
    + symmetry. apply Z.compare_gt_iff. lia.
    + apply (compare_pos_val false false mx my ex ey Vx Vy).
Qed.

(** *** Signed rounding and the operations *)

Lemma RNs_mono (N1 N2 : Z) : N1 <= N2 -> RNs N1 <= RNs N2.
Proof.
  intros H. unfold RNs.
  destruct (Z.ltb_spec N1 0); destruct (Z.ltb_spec N2 0).
  - pose proof (RN_mono (- N2) (- N1) ltac:(lia) ltac:(lia)). lia.
  - pose proof (RN_nonneg (- N1) ltac:(lia)). pose proof (RN_nonneg N2 ltac:(lia)). lia.
  - lia.
  - apply RN_mono; lia.
Qed.

Lemma represents_has_value (x : spec_float) (s : bool) (V : Z) :
  0 <= V -> represents x s V -> has_value x (cond_Zopp s V).
Proof.
  intros HV. destruct x as [s'|s'| |s' m e]; cbn [represents has_value].
  - intros [_ ->]. now destruct s.
  - intros [-> H]. destruct s; cbn [cond_Zopp]; lia.
  - auto.
  - intros (-> & Hv & Hb & He). cbn [fval]. rewrite Hv. split; [reflexivity|].
    destruct s; cbn [cond_Zopp]; lia.
Qed.

Lemma binary_normalize_value (M e : Z) :
  - K <= e ->
  has_value (binary_normalize prec emax M e false) (RNs (M * 2 ^ (e + K))).
Proof.
  intros HK. pose proof (pow2_pos (e + K) ltac:(lia)) as Hp.
  destruct M as [|m|m]; cbn [binary_normalize].
  - reflexivity.
  - unfold RNs. destruct (Z.ltb_spec (Zpos m * 2 ^ (e + K)) 0); [nia|].
    apply (represents_has_value _ false).
    + apply RN_nonneg. nia.
    + now apply binary_round_represents.
  - unfold RNs. destruct (Z.ltb_spec (Zneg m * 2 ^ (e + K)) 0); [|nia].
    replace (- (Zneg m * 2 ^ (e + K))) with (Zpos m * 2 ^ (e + K)) by lia.
    apply (represents_has_value _ true).
    + apply RN_nonneg. nia.
    + now apply binary_round_represents.
Qed.

(** The value of a float is not moved by rounding, and is below the
    overflow threshold. *)
Lemma fval_fixed (x : spec_float) :
  valid_binary x = true -> finite x = true ->
  RNs (fval x) = fval x /\ Z.abs (fval x) < 2 ^ (1024 + K).
Proof.
  intros V F. destruct x as [s|s| |s m e]; try discriminate; cbn [fval].
  - split; [reflexivity|]. apply pow2_pos. unfold K. lia.
  - pose proof (valid_finite _ _ _ V) as [Hc _].
    pose proof (valid_finite_bounds _ _ _ V) as (He & Hm & _).
    pose proof (val_pos m e ltac:(unfold K; lia)) as Hp.
    assert (Hfix : RN (Zpos m * 2 ^ (e + K)) = Zpos m * 2 ^ (e + K)).
    { apply RN_fixed. rewrite grid_val by (unfold K; lia).
      rewrite fexp_eq, Zdigits2_pos.
      replace (Z.max (Z.log2 (Zpos m) + 1 + e - 53) (-1074)) with e by lia.
      apply Z.mod_mul. pose proof (pow2_pos (e + K) ltac:(unfold K; lia)). lia. }
    assert (Hb : Zpos m * 2 ^ (e + K) < 2 ^ (1024 + K)).
    { assert (2 ^ 53 * 2 ^ (e + K) <= 2 ^ (1024 + K)).
      { rewrite <- Z.pow_add_r by (unfold K; lia). apply Z.pow_le_mono_r; lia. }
      pose proof (pow2_pos (e + K) ltac:(unfold K; lia)). nia. }
    unfold RNs. destruct s; cbn [cond_Zopp].
    + destruct (Z.ltb_spec (- (Zpos m * 2 ^ (e + K))) 0); [|lia].
      rewrite Z.opp_involutive, Hfix. lia.
    + destruct (Z.ltb_spec (Zpos m * 2 ^ (e + K)) 0); [lia|].
      rewrite Hfix. lia.
Qed.

Lemma has_value_self (x : spec_float) :
  valid_binary x = true -> finite x = true -> has_value x (RNs (fval x)).
Proof.
  intros V F. destruct (fval_fixed x V F) as [Hfix Hb]. rewrite Hfix.
  destruct x; try discriminate; cbn [has_value]; auto.
Qed.

Lemma aligned_val (m : positive) (e ez : Z) :
  - K <= ez -> ez <= e ->
  Zpos (fst (shl_align m e ez)) * 2 ^ (ez + K) = Zpos m * 2 ^ (e + K).
Proof.
  intros HK Hle. destruct (shl_align_spec m e ez) as [_ Hm].
  rewrite Hm. replace (Z.min e ez) with ez by lia.
  rewrite <- Z.mul_assoc, <- Z.pow_add_r by lia. f_equal. f_equal. lia.
Qed.

Lemma fval_aligned (s : bool) (m : positive) (e ez : Z) :
  - K <= ez -> ez <= e ->
  cond_Zopp s (Zpos (fst (shl_align m e ez))) * 2 ^ (ez + K)
  = fval (S754_finite s m e).
Proof.
  intros HK Hle. cbn [fval]. rewrite <- (aligned_val m e ez HK Hle).
  destruct s; cbn [cond_Zopp]; lia.
Qed.

(** The sum of two finite floats is their exact sum, rounded. *)
Lemma SFadd_value (x y : spec_float) :
  valid_binary x = true -> valid_binary y = true ->
  finite x = true -> finite y = true ->
  has_value (SF64add x y) (RNs (fval x + fval y)).
Proof.
  intros Vx Vy Fx Fy. unfold SF64add.
  destruct x as [sx|sx| |sx mx ex]; try discriminate;
    destruct y as [sy|sy| |sy my ey]; try discriminate; cbn [SFadd].
  - destruct sx, sy; reflexivity.
  - change (fval (S754_zero sx)) with 0. rewrite Z.add_0_l.
    now apply has_value_self.
  - change (fval (S754_zero sy)) with 0. rewrite Z.add_0_r.
    now apply has_value_self.
  - pose proof (valid_finite_bounds _ _ _ Vx) as (Hex & _).
    pose proof (valid_finite_bounds _ _ _ Vy) as (Hey & _).
    set (ez := Z.min ex ey).
    rewrite <- (fval_aligned sx mx ex ez), <- (fval_aligned sy my ey ez)
      by (unfold ez, K; lia).
    rewrite <- Z.mul_add_distr_r.
    apply binary_normalize_value. unfold ez, K. lia.
Qed.

(** The difference of two finite floats is their exact difference,
    rounded. *)
Lemma SFsub_value (x y : spec_float) :
  valid_binary x = true -> valid_binary y = true ->
  finite x = true -> finite y = true ->
  has_value (SF64sub x y) (RNs (fval x - fval y)).
Proof.
  intros Vx Vy Fx Fy. unfold SF64sub.
  destruct x as [sx|sx| |sx mx ex]; try discriminate;
    destruct y as [sy|sy| |sy my ey]; try discriminate; cbn [SFsub].
  - destruct sx, sy; reflexivity.
  - change (fval (S754_zero sx)) with 0. rewrite Z.sub_0_l.
    replace (- fval (S754_finite sy my ey)) with (fval (S754_finite (negb sy) my ey))
      by (cbn [fval]; destruct sy; cbn [cond_Zopp negb]; lia).
    apply has_value_self; [exact Vy | reflexivity].
  - change (fval (S754_zero sy)) with 0. rewrite Z.sub_0_r.
    now apply has_value_self.
  - pose proof (valid_finite_bounds _ _ _ Vx) as (Hex & _).
    pose proof (valid_finite_bounds _ _ _ Vy) as (Hey & _).
    set (ez := Z.min ex ey).
    rewrite <- (fval_aligned sx mx ex ez), <- (fval_aligned sy my ey ez)
      by (unfold ez, K; lia).
    rewrite <- Z.mul_sub_distr_r.
    apply binary_normalize_value. unfold ez, K. lia.
Qed.

Lemma mul_no_shl (sx sy : bool) (mx my : positive) (ex ey : Z) :
  valid_binary (S754_finite sx mx ex) = true ->
  valid_binary (S754_finite sy my ey) = true ->
  ex + ey <= fexp prec emax (Zdigits2 (Zpos (mx * my)) + (ex + ey)).
Proof.
  intros Vx Vy.
  apply valid_finite in Vx as [Hx _]. apply valid_finite in Vy as [Hy _].
  rewrite fexp_eq, Zdigits2_pos, Pos2Z.inj_mul.
  pose proof (Z.log2_mul_below (Zpos mx) (Zpos my) ltac:(lia) ltac:(lia)).
  pose proof (Z.log2_nonneg (Zpos mx)). pose proof (Z.log2_nonneg (Zpos my)).
  lia.
Qed.

Lemma RNs_cond_Zopp (s : bool) (P : Z) :
  0 <= P -> RNs (cond_Zopp s P) = cond_Zopp s (RN P).
Proof.
  intros HP. unfold RNs. destruct s; cbn [cond_Zopp].
  - destruct (Z.ltb_spec (- P) 0).
    + now rewrite Z.opp_involutive.
    + assert (P = 0) by lia. subst P. reflexivity.
  - destruct (Z.ltb_spec P 0); [lia | reflexivity].
Qed.

(** The product of two finite floats is their exact product, rounded. *)
Lemma SFmul_value (x y : spec_float) :
  valid_binary x = true -> valid_binary y = true ->
  finite x = true -> finite y = true ->
  has_value (SF64mul x y) (RNs (fval x * fval y / 2 ^ K)).
Proof.
  intros Vx Vy Fx Fy. unfold SF64mul.
  destruct x as [sx|sx| |sx mx ex]; try discriminate;
    destruct y as [sy|sy| |sy my ey]; try discriminate; cbn [SFmul];
    try (cbn [fval has_value];
         rewrite ?Z.mul_0_l, ?Z.mul_0_r, Z.div_0_l by (apply Z.pow_nonzero; unfold K; lia);
         reflexivity).
  pose proof (valid_finite_bounds _ _ _ Vx) as (Hex & _).
  pose proof (valid_finite_bounds _ _ _ Vy) as (Hey & _).
  set (P := Zpos (mx * my) * 2 ^ (ex + ey + K)).
  assert (HP : 0 <= P).
  { unfold P. pose proof (pow2_pos (ex + ey + K) ltac:(unfold K; lia)). nia. }
  assert (Hprod : fval (S754_finite sx mx ex) * fval (S754_finite sy my ey) / 2 ^ K
                  = cond_Zopp (xorb sx sy) P).
  { cbn [fval].
    assert (Hpow : 2 ^ (ex + K) * 2 ^ (ey + K) = 2 ^ (ex + ey + K) * 2 ^ K).
    { rewrite <- !Z.pow_add_r by (unfold K; lia). f_equal. lia. }
    assert (E : Zpos mx * 2 ^ (ex + K) * (Zpos my * 2 ^ (ey + K)) = P * 2 ^ K).
    { unfold P. rewrite Pos2Z.inj_mul.
      replace (Zpos mx * 2 ^ (ex + K) * (Zpos my * 2 ^ (ey + K)))
        with (Zpos mx * Zpos my * (2 ^ (ex + K) * 2 ^ (ey + K))) by ring.
      rewrite Hpow. ring. }
    assert (Hnz : 2 ^ K <> 0) by (apply Z.pow_nonzero; unfold K; lia).
    destruct sx, sy; cbn [cond_Zopp xorb].
    - rewrite Z.mul_opp_opp, E. now apply Z.div_mul.
    - rewrite Z.mul_opp_l, E, <- Z.mul_opp_l. now apply Z.div_mul.
    - rewrite Z.mul_opp_r, E, <- Z.mul_opp_l. now apply Z.div_mul.
    - rewrite E. now apply Z.div_mul. }
  rewrite Hprod, RNs_cond_Zopp by exact HP.
  apply represents_has_value; [now apply RN_nonneg|].
  apply binary_round_aux_represents; [unfold K; lia|].
  eapply mul_no_shl; eauto.
Qed.

(** *** The sampled value stays between the bounds: integers *)

(** A value below the midpoint over the float [q * 2^G] rounds to at most
    that float. *)
Lemma RN_round_down (Y q G : Z) :
  1074 <= G -> 2 ^ 52 <= q < 2 ^ 53 ->
  0 <= Y -> 2 * Y < (2 * q + 1) * 2 ^ G ->
  RN Y <= q * 2 ^ G.
Proof.
  intros HG Hq HY Hhalf.
  pose proof (pow2_pos G ltac:(lia)) as Hp.
  assert (Hlog : Z.log2 (q * 2 ^ G) = 52 + G).
  { rewrite Z.log2_mul_pow2 by lia.
    assert (Z.log2 q = 52); [|lia].
    apply Z.log2_unique; [lia|]. change (2 ^ Z.succ 52) with (2 ^ 53). lia. }
  assert (Hfix : RN (q * 2 ^ G) = q * 2 ^ G).
  { apply RN_fixed. unfold grid. rewrite Hlog.
    replace (Z.max (52 + G - 52) 1074) with G by lia.
    apply Z.mod_mul. lia. }
  destruct (Z.le_gt_cases Y (q * 2 ^ G)) as [Hle|Hgt].
  - rewrite <- Hfix. apply RN_mono; lia.
  - assert (HlogY : Z.log2 Y = 52 + G).
    { apply Z.log2_unique; [lia|].
      replace (Z.succ (52 + G)) with (53 + G) by lia.
      rewrite !Z.pow_add_r by lia. nia. }
    unfold RN, grid. rewrite HlogY.
    replace (Z.max (52 + G - 52) 1074) with G by lia.
    assert (Hrne : rne Y G = q).
    { unfold rne.
      assert (Hdiv : Y / 2 ^ G = q).
      { symmetry. apply Z.div_unique with (r := Y - q * 2 ^ G); lia. }
      pose proof (Z.div_mod Y (2 ^ G) ltac:(lia)) as Hdm. rewrite Hdiv in *.
      destruct (Z.ltb_spec (2 * (Y mod 2 ^ G)) (2 ^ G)); [reflexivity | lia]. }
    rewrite Hrne. lia.
Qed.

(** A span that rounds up lands on the float just above a float below
    it. *)
Lemma RN_up_shape (D : Z) :
  0 <= D -> D mod 2 ^ 1074 = 0 -> D < RN D ->
  exists q G, 1074 < G /\ 2 ^ 52 <= q < 2 ^ 53
              /\ q * 2 ^ G <= D /\ RN D = (q + 1) * 2 ^ G.
Proof.
  intros HD Hdiv Hup.
  exists (D / 2 ^ grid D), (grid D).
  pose proof (grid_ge D) as HG.
  pose proof (pow2_pos (grid D) ltac:(lia)) as Hp.
  pose proof (Z.div_mod D (2 ^ grid D) ltac:(lia)) as Hdm.
  pose proof (Z.mod_pos_bound D (2 ^ grid D) Hp) as Hrem.
  pose proof (rne_bounds D (grid D) ltac:(lia)) as Hb.
  unfold RN in *.
  assert (Hr : rne D (grid D) = D / 2 ^ grid D + 1) by nia.
  assert (Hnot : grid D <> 1074).
  { intros E. rewrite E in *. rewrite (rne_exact D 1074 ltac:(lia) Hdiv) in Hr. lia. }
  assert (HGeq : grid D = Z.log2 D - 52) by (unfold grid in *; lia).
  assert (HDpos : 0 < D).
  { destruct (Z.eq_dec D 0) as [->|]; [|lia]. 
    change (Z.log2 0) with 0 in HGeq. lia. }
  pose proof (Z.log2_spec D HDpos) as [Hlo Hhi].
  replace (Z.log2 D) with (52 + grid D) in Hlo by lia.
  replace (Z.succ (Z.log2 D)) with (53 + grid D) in Hhi by lia.
  rewrite Z.pow_add_r in Hlo, Hhi by lia.
  split; [lia|]. split; [split|].
  - apply Z.div_le_lower_bound; lia.
  - apply Z.div_lt_upper_bound; lia.
  - split; [nia | now rewrite Hr].
Qed.

(** A draw of at most [1 - 2^-53] scales the float above [q * 2^G] to less
    than the midpoint between the two. *)
Lemma scaled_draw_below (R S q G : Z) :
  1074 < G -> 2 ^ 52 <= q ->
  0 <= R <= 2 ^ K - 2 ^ (K - 53) ->
  S = (q + 1) * 2 ^ G ->
  2 * (R * S / 2 ^ K) < (2 * q + 1) * 2 ^ G.
Proof.
  intros HG Hq HR HS.
  pose proof (pow2_pos (G - 53) ltac:(lia)) as Hp.
  set (T := (q + 1) * 2 ^ (G - 53)).
  assert (HST : S = 2 ^ 53 * T).
  { unfold T. rewrite HS. replace G with (53 + (G - 53)) at 1 by lia.
    rewrite Z.pow_add_r by lia. ring. }
  assert (HK : 2 ^ K = 2 ^ (K - 53) * 2 ^ 53).
  { rewrite <- Z.pow_add_r by (unfold K; lia). f_equal; lia. }
  assert (HG1 : 2 ^ G = 2 ^ 53 * 2 ^ (G - 53)).
  { rewrite <- Z.pow_add_r by lia. f_equal. lia. }
  pose proof (pow2_pos (K - 53) ltac:(unfold K; lia)) as HpK.
  pose proof (pow2_pos K ltac:(unfold K; lia)) as HpK'.
  assert (HT : 0 < T) by (unfold T; nia).
  assert (Hle : R * S / 2 ^ K <= (2 ^ 53 - 1) * T).
  { apply Z.div_le_upper_bound; [lia|].
    rewrite HST, HK. 
    assert (R <= 2 ^ (K - 53) * (2 ^ 53 - 1)) by (rewrite HK in HR; lia).
    nia. }
  rewrite HG1. unfold T in *.
  change (2 ^ 53) with 9007199254740992 in *.
  change (2 ^ 52) with 4503599627370496 in *.
  nia.
Qed.

(** On scaled integers: the rounded product of the draw and the rounded
    span is at most the rounded span, and adding the lower bound and
    rounding again stays between the bounds. *)
Lemma sample_range_Z (L U R : Z) :
  RNs L = L -> RNs U = U ->
  L mod 2 ^ 1074 = 0 -> U mod 2 ^ 1074 = 0 ->
  L <= U ->
  0 <= R <= 2 ^ K - 2 ^ (K - 53) ->
  RN (RN (U - L)) = RN (U - L) ->
  0 <= RN (R * RN (U - L) / 2 ^ K) <= RN (U - L)
  /\ L <= RNs (RN (R * RN (U - L) / 2 ^ K) + L) <= U.
Proof.
  intros HL HU HLd HUd HLU HR HS.
  set (D := U - L) in *. set (S := RN D) in *.
  set (Y := R * S / 2 ^ K). set (P := RN Y).
  assert (HD : 0 <= D) by (unfold D; lia).
  assert (HDd : D mod 2 ^ 1074 = 0).
  { unfold D. rewrite Zminus_mod, HLd, HUd. reflexivity. }
  pose proof (pow2_pos K ltac:(unfold K; lia)) as HpK.
  pose proof (pow2_pos (K - 53) ltac:(unfold K; lia)) as HpK'.
  assert (HS0 : 0 <= S) by (apply RN_nonneg; exact HD).
  assert (HY0 : 0 <= Y) by (apply Z.div_pos; nia).
  assert (HYS : Y <= S) by (apply Z.div_le_upper_bound; nia).
  assert (HP0 : 0 <= P) by (apply RN_nonneg; exact HY0).
  assert (HPS : P <= S) by (rewrite <- HS; apply RN_mono; lia).
  assert (HPD : P <= D).
  { destruct (Z.le_gt_cases S D) as [Hle|Hgt]; [lia|].
    destruct (RN_up_shape D HD HDd Hgt) as (q & G & HG & Hq & HqD & HSq).
    fold S in HSq.
    pose proof (scaled_draw_below R S q G HG ltac:(lia) HR HSq) as Hhalf.
    pose proof (RN_round_down Y q G ltac:(lia) Hq HY0 Hhalf). fold P in H. lia. }
  split; [lia|]. split.
  - rewrite <- HL at 1. apply RNs_mono. lia.
  - rewrite <- HU at 1. apply RNs_mono. unfold D in HPD. lia.
Qed.

(** *** The sampled value stays between the bounds: binary64 *)

Lemma has_value_finite (x : spec_float) (V : Z) :
  has_value x V -> Z.abs V < 2 ^ (1024 + K) -> finite x = true /\ fval x = V.
Proof.
  destruct x as [s|s| |s m e]; cbn [has_value finite fval].
  - intros ->. auto.
  - destruct s; intros; lia.
  - contradiction.
  - intros [H _] _. auto.
Qed.

Lemma fval_div (x : spec_float) :
  valid_binary x = true -> fval x mod 2 ^ 1074 = 0.
Proof.
  intros V. destruct x as [s|s| |s m e]; cbn [fval]; try reflexivity.
  pose proof (valid_finite_bounds _ _ _ V) as (He & _).
  assert (E : Zpos m * 2 ^ (e + K) = Zpos m * 2 ^ (e + 1074) * 2 ^ 1074).
  { rewrite <- Z.mul_assoc, <- Z.pow_add_r by lia. f_equal. f_equal. unfold K. lia. }
  destruct s; cbn [cond_Zopp]; rewrite E.
  - rewrite <- Z.mul_opp_l. apply Z.mod_mul. lia.
  - apply Z.mod_mul. lia.
Qed.

Lemma SFleb_val (x y : spec_float) :
  valid_binary x = true -> valid_binary y = true ->
  finite x = true -> finite y = true ->
  SFleb x y = true <-> fval x <= fval y.
Proof.
  intros Vx Vy Fx Fy. unfold SFleb. rewrite (SFcompare_val x y Vx Vy Fx Fy).
  destruct (Z.compare_spec (fval x) (fval y)); split; intros; try lia; try reflexivity;
    discriminate.
Qed.

Lemma SFltb_val (x y : spec_float) :
  valid_binary x = true -> valid_binary y = true ->
  finite x = true -> finite y = true ->
  SFltb x y = true <-> fval x < fval y.
Proof.
  intros Vx Vy Fx Fy. unfold SFltb. rewrite (SFcompare_val x y Vx Vy Fx Fy).
  destruct (Z.compare_spec (fval x) (fval y)); split; intros; try lia; try reflexivity;
    discriminate.
Qed.

(** The bounds are finite when they are in order and their span is. *)
Lemma bounds_finite (xl xu : spec_float) :
  SFleb xl xu = true ->
  SFltb (SF64sub xu xl) (S754_infinity false) = true ->
  finite xl = true /\ finite xu = true.
Proof.
  destruct xl as [sl|[|]| |sl ml el]; destruct xu as [su|[|]| |su mu eu];
    cbn; intros H1 H2; try discriminate; auto.
Qed.

(** A draw of [[0, 1)] is finite. *)
Lemma draw_finite (xr : spec_float) :
  SFleb (S754_zero false) xr = true ->
  SFltb xr (S754_finite false 4503599627370496 (-52)) = true ->
  finite xr = true.
Proof.
  destruct xr as [s|[|]| |s m e]; intros H1 H2; try reflexivity.
  - vm_compute in H1. discriminate.
  - vm_compute in H2. discriminate.
  - vm_compute in H1. discriminate.
Qed.

(** The largest float below 1 is [1 - 2^-53]. *)
Lemma draw_bound (xr : spec_float) :
  valid_binary xr = true -> finite xr = true ->
  0 <= fval xr < 2 ^ K ->
  fval xr <= 2 ^ K - 2 ^ (K - 53).
Proof.
  intros V F [H0 H1].
  assert (HK : 2 ^ K = 2 ^ 53 * 2 ^ (K - 53)).
  { rewrite <- Z.pow_add_r by (unfold K; lia). f_equal; lia. }
  pose proof (pow2_pos (K - 53) ltac:(unfold K; lia)) as Hp.
  destruct xr as [s|s| |s m e]; try discriminate F; cbn [fval] in *.
  - rewrite HK. change (2 ^ 53) with 9007199254740992. lia.
  - pose proof (valid_finite_bounds _ _ _ V) as (He & Hm & Hnorm).
    pose proof (val_pos m e ltac:(unfold K; lia)) as Hv.
    destruct s; cbn [cond_Zopp] in *; [lia|].
    assert (Hle : e <= -53).
    { destruct (Z.le_gt_cases e (-53)) as [|Hgt]; [assumption|].
      specialize (Hnorm ltac:(lia)).
      assert (2 ^ K <= 2 ^ 52 * 2 ^ (e + K)).
      { rewrite <- Z.pow_add_r by (unfold K; lia). apply Z.pow_le_mono_r; lia. }
      pose proof (pow2_pos (e + K) ltac:(unfold K; lia)). nia. }
    assert (2 ^ (e + K) <= 2 ^ (K - 53)) by (apply Z.pow_le_mono_r; unfold K; lia).
    pose proof (pow2_pos (e + K) ltac:(unfold K; lia)).
    rewrite HK. change (2 ^ 53) with 9007199254740992 in *. nia.
Qed.

(** In [float64]: for bounds [l <= u] whose span [u - l] is finite and a
    draw [0 <= r < 1], the value [r * (u - l) + l] lies between [l] and
    [u]. *)
Theorem sample_in_range (l u r : float) :
  (l <=? u)%float = true ->
  (u - l <? infinity)%float = true ->
  (0 <=? r)%float = true ->
  (r <? 1)%float = true ->
  (l <=? r * (u - l) + l)%float = true /\ (r * (u - l) + l <=? u)%float = true.
Proof.
  rewrite !FloatAxioms.leb_spec, !FloatAxioms.ltb_spec.
  rewrite add_spec, mul_spec, sub_spec.
  change (Prim2SF infinity) with (S754_infinity false).
  change (Prim2SF 0) with (S754_zero false).
  change (Prim2SF 1) with (S754_finite false 4503599627370496 (-52)).
  pose proof (Prim2SF_valid l) as Vl. pose proof (Prim2SF_valid u) as Vu.
  pose proof (Prim2SF_valid r) as Vr.
  pose proof (Prim2SF_valid (u - l)) as Vs. rewrite sub_spec in Vs.
  pose proof (Prim2SF_valid (r * (u - l))) as Vp. rewrite mul_spec, sub_spec in Vp.
  pose proof (Prim2SF_valid (r * (u - l) + l)) as Vv.
  rewrite add_spec, mul_spec, sub_spec in Vv.
  set (xl := Prim2SF l) in *. set (xu := Prim2SF u) in *. set (xr := Prim2SF r) in *.
  intros Hlu Hspan Hr0 Hr1.
  destruct (bounds_finite xl xu Hlu Hspan) as [Fl Fu].
  pose proof (draw_finite xr Hr0 Hr1) as Fr.
  (* values *)
  apply (SFleb_val xl xu Vl Vu Fl Fu) in Hlu.
  destruct (fval_fixed xl Vl Fl) as [HLfix HLb].
  destruct (fval_fixed xu Vu Fu) as [HUfix HUb].
  set (L := fval xl) in *. set (U := fval xu) in *.
  (* the span *)
  pose proof (SFsub_value xu xl Vu Vl Fu Fl) as Hs. fold L U in Hs.
  assert (HRNs : RNs (U - L) = RN (U - L)).
  { unfold RNs. destruct (Z.ltb_spec (U - L) 0); [lia | reflexivity]. }
  rewrite HRNs in Hs.
  set (xs := SF64sub xu xl) in *.
  assert (Fs : finite xs = true /\ fval xs = RN (U - L)).
  { pose proof (RN_nonneg (U - L) ltac:(lia)) as Hnn.
    destruct xs as [ss|[|]| |ss ms es]; cbn [has_value] in Hs; try discriminate;
      try contradiction; cbn [finite fval].
    - rewrite Hs. auto.
    - lia.
    - destruct Hs as [Hs _]. auto. }
  destruct Fs as [Fs HS].
  destruct (fval_fixed xs Vs Fs) as [HSfix HSb]. rewrite HS in HSfix, HSb.
  assert (HSfix' : RN (RN (U - L)) = RN (U - L)).
  { pose proof (RN_nonneg (U - L) ltac:(lia)) as Hnn.
    unfold RNs in HSfix. destruct (Z.ltb_spec (RN (U - L)) 0); [lia | exact HSfix]. }
  (* the draw *)
  assert (HR : 0 <= fval xr <= 2 ^ K - 2 ^ (K - 53)).
  { apply (SFleb_val (S754_zero false) xr eq_refl Vr eq_refl Fr) in Hr0.
    apply (SFltb_val xr (S754_finite false 4503599627370496 (-52))
             Vr eq_refl Fr eq_refl) in Hr1.
    change (fval (S754_zero false)) with 0 in Hr0.
    assert (E1 : fval (S754_finite false 4503599627370496 (-52)) = 2 ^ K).
    { cbn [fval cond_Zopp]. change 4503599627370496 with (2 ^ 52).
      rewrite <- Z.pow_add_r by (unfold K; lia). f_equal. }
    rewrite E1 in Hr1.
    split; [lia|]. apply draw_bound; auto. }
  set (R := fval xr) in *.
  (* the integer statement *)
  destruct (sample_range_Z L U R HLfix HUfix (fval_div xl Vl) (fval_div xu Vu)
              Hlu HR HSfix') as [[HP0 HPS] [HVL HVU]].
  (* the product *)
  pose proof (SFmul_value xr xs Vr Vs Fr Fs) as Hp. fold R in Hp. rewrite HS in Hp.
  assert (HY0 : 0 <= R * RN (U - L) / 2 ^ K).
  { apply Z.div_pos; [|apply pow2_pos; unfold K; lia].
    pose proof (RN_nonneg (U - L) ltac:(lia)). nia. }
  assert (HRNp : RNs (R * RN (U - L) / 2 ^ K) = RN (R * RN (U - L) / 2 ^ K)).
  { unfold RNs. destruct (Z.ltb_spec (R * RN (U - L) / 2 ^ K) 0); [lia | reflexivity]. }
  rewrite HRNp in Hp.
  set (P := RN (R * RN (U - L) / 2 ^ K)) in *.
  destruct (has_value_finite _ _ Hp ltac:(lia)) as [Fp HP].
  (* the sum *)
  pose proof (SFadd_value _ xl Vp Vl Fp Fl) as Hv. rewrite HP in Hv. fold L in Hv.
  destruct (has_value_finite _ _ Hv ltac:(lia)) as [Fv HV].
  split.
  - apply (SFleb_val xl _ Vl Vv Fl Fv). rewrite HV. fold L. lia.
  - apply (SFleb_val _ xu Vv Vu Fv Fu). rewrite HV. fold U. lia.
Qed.

End binary64_facts.

(** ** Random inputs *)

Section RandomInputs.
Context {SP : spatial.Package} {RP : rand.Package}.

Lemma draws_length (n : nat) :
  forall rSeed, length (fst (draws n rSeed)) = n.
Proof.
  induction n as [|n IH]; intros rSeed; simpl; [reflexivity|].
  destruct (rand.Float64 rSeed) as [r rSeed'].
  specialize (IH rSeed'). destruct (draws n rSeed') as [rs rSeed'']. simpl in *.
  now rewrite IH.
Qed.

(** The value sampled for a limit from the draw [r]. *)
Lemma RandomFrameInputs_range_spec (dof : list Limit) :
  forall (rSeed : rand.Rand) (pos : list Input),
    RandomFrameInputs_range dof rSeed pos
    = (pos ++ map (fun p => {| Value := (fst p * (sampleUpper (snd p) - sampleLower (snd p))
                                         + sampleLower (snd p))%float |})
                  (combine (fst (draws (length dof) rSeed)) dof),
       snd (draws (length dof) rSeed)).
Proof.
  induction dof as [|lim dof IH]; intros rSeed pos; simpl.
  - now rewrite app_nil_r.
  - destruct (rand.Float64 rSeed) as [r rSeed'].
    rewrite IH. destruct (draws (length dof) rSeed') as [rs rSeed'']. simpl.
    now rewrite <- app_assoc.
Qed.

(** The defaults only narrow a limit: a value between the bounds used for
    sampling lies within the limit itself. *)
Lemma withinLimit_of_sample_bounds (lim : Limit) (v : float) :
  (sampleLower lim <=? v)%float = true ->
  (v <=? sampleUpper lim)%float = true ->
  withinLimit {| Value := v |} lim = true.
Proof.
  unfold sampleLower, sampleUpper, withinLimit. simpl. intros Hl Hu.
  apply andb_true_iff. split.
  - destruct (Min lim =? neg_infinity)%float eqn:E; [|exact Hl].
    exact (leb_from_neg_infinity _ _ _ E Hl).
  - destruct (Max lim =? infinity)%float eqn:E; [|exact Hu].
    exact (leb_to_infinity _ _ _ E Hu).
Qed.

(** A draw of [[0, 1)] stretched over bounds in order, whose span does not
    overflow, lies within the limit. *)
Lemma sample_withinLimit (lim : Limit) (r : float) :
  (sampleLower lim <=? sampleUpper lim)%float = true ->
  (sampleUpper lim - sampleLower lim <? infinity)%float = true ->
  (0 <=? r)%float = true ->
  (r <? 1)%float = true ->
  withinLimit
    {| Value := (r * (sampleUpper lim - sampleLower lim) + sampleLower lim)%float |}
    lim = true.
Proof.
  intros Hlu Hspan Hr0 Hr1.
  destruct (binary64_facts.sample_in_range _ _ _ Hlu Hspan Hr0 Hr1) as [Hl Hu].
  now apply withinLimit_of_sample_bounds.
Qed.

(** C8, as the code has it.  [RandomFrameInputs] returns as many values as
    the frame has limits.  The value at index [k] is [r * (u - l) + l] in
    [float64] arithmetic (the product rounded, then the sum), where [r] is
    the draw number [k] of the generator and [l], [u] are the bounds of the
    limit at [k], a lower bound of minus infinity replaced by -999 and an
    upper bound of plus infinity by 999.  Whenever a value lies between [l]
    and [u], it lies within the limit; and the sampled value does whenever
    [l <= u], the span [u - l] does not overflow and the draw is in
    [[0, 1)]. *)
Theorem RandomFrameInputs_values (m : Frame) (rSeed : option rand.Rand) :
  length (fst (RandomFrameInputs m rSeed)) = length (DoF m)
  /\ (forall k lim,
        nth_error (DoF m) k = Some lim ->
        exists r,
          nth_error (fst (draws (length (DoF m)) (seedOf rSeed))) k = Some r
          /\ nth_error (fst (RandomFrameInputs m rSeed)) k
             = Some {| Value :=
                         (r * ((if Max lim =? infinity then 999 else Max lim)
                               - (if Min lim =? neg_infinity then -999 else Min lim))
                          + (if Min lim =? neg_infinity then -999 else Min lim))%float |})
  /\ (forall lim v,
        ((if Min lim =? neg_infinity then -999 else Min lim) <=? v)%float = true ->
        (v <=? (if Max lim =? infinity then 999 else Max lim))%float = true ->
        withinLimit {| Value := v |} lim = true)
  /\ (forall lim r,
        let l := (if Min lim =? neg_infinity then -999 else Min lim)%float in
        let u := (if Max lim =? infinity then 999 else Max lim)%float in
        (l <=? u)%float = true ->
        (u - l <? infinity)%float = true ->
        (0 <=? r)%float = true ->
        (r <? 1)%float = true ->
        withinLimit {| Value := (r * (u - l) + l)%float |} lim = true).
Proof.
  split; [|split; [|split; [exact withinLimit_of_sample_bounds
                           |exact sample_withinLimit]]].
  all: unfold RandomFrameInputs; fold (seedOf rSeed);
    rewrite RandomFrameInputs_range_spec; simpl;
    pose proof (draws_length (length (DoF m)) (seedOf rSeed)) as Hlen;
    set (rs := fst (draws (length (DoF m)) (seedOf rSeed))) in *.
  - now rewrite length_map, length_combine, Hlen, Nat.min_id.
  - intros k lim Hk.
    assert (Hlt : k < length rs).
    { rewrite Hlen. apply nth_error_Some. congruence. }
    destruct (nth_error rs k) as [r|] eqn:Er.
    2: { apply nth_error_None in Er. lia. }
    exists r. split; [reflexivity|].
    rewrite nth_error_map.
    assert (Hc : nth_error (combine rs (DoF m)) k = Some (r, lim)).
    { clear Hlen Hlt. revert k Er Hk. generalize (DoF m).
      induction rs as [|r0 rs IH]; intros [|lim0 l] [|k]; simpl; try discriminate.
      - congruence.
      - apply IH. }
    now rewrite Hc.
Qed.

End RandomInputs.

(** ** Slices filled by index *)

Section SlicesFacts.
Context {A B : Type}.

Lemma store_spec (n : list B) (idx : nat) (v : B) (done todo : list B) (old : B) :
  n = done ++ old :: todo -> length done = idx ->
  store n idx v = Returns (done ++ v :: todo).
Proof.
  intros -> <-. unfold store.
  assert (Hf : firstn (length done) (done ++ old :: todo) = done).
  { rewrite firstn_app, firstn_all, Nat.sub_diag. apply app_nil_r. }
  assert (Hs : skipn (S (length done)) (done ++ old :: todo) = todo).
  { rewrite skipn_app, skipn_all2 by lia.
    now replace (S (length done) - length done) with 1 by lia. }
  rewrite Hf, Hs, length_app. cbn [length].
  now replace (length done <? length done + S (length todo)) with true
    by (symmetry; apply Nat.ltb_lt; lia).
Qed.

(** The loop overwrites the slots from [idx] on with the images of [xs] and
    never indexes out of range. *)
Lemma fill_range_spec (f : A -> B) (xs : list A) :
  forall (idx : nat) (done todo : list B),
    length done = idx -> length todo = length xs ->
    fill_range f idx xs (done ++ todo) = Returns (done ++ map f xs).
Proof.
  induction xs as [|x xs IH]; intros idx done todo Hd Ht; simpl.
  - destruct todo; [reflexivity | discriminate].
  - destruct todo as [|old todo]; [discriminate|].
    rewrite (store_spec _ idx (f x) done todo old eq_refl Hd).
    replace (done ++ f x :: todo) with ((done ++ [f x]) ++ todo)
      by (rewrite <- app_assoc; reflexivity).
    rewrite (IH (S idx) (done ++ [f x]) todo).
    + now rewrite <- app_assoc.
    + rewrite length_app. simpl. lia.
    + simpl in Ht. lia.
Qed.

Lemma fill_map (zero : B) (f : A -> B) (xs : list A) :
  fill zero f xs = Returns (map f xs).
Proof.
  unfold fill.
  apply (fill_range_spec f xs 0 [] (repeat zero (length xs)) eq_refl).
  apply repeat_length.
Qed.

End SlicesFacts.

(** ** Lists of inputs against lists of limits *)

Lemma string_app_assoc (a b c : string) : ((a ++ b) ++ c = a ++ (b ++ c))%string.
Proof. induction a as [|x a IH]; simpl; [reflexivity | now rewrite IH]. Qed.

Lemma outOfBounds_false_iff (inputs : list Input) :
  forall lims : list Limit,
    outOfBounds inputs lims = false
    <-> forall i input lim,
          nth_error inputs i = Some input -> nth_error lims i = Some lim ->
          violates input lim = false.
Proof.
  unfold outOfBounds.
  induction inputs as [|input inputs IH]; intros [|lim lims]; simpl.
  - split; [intros _ [|i] ? ?; discriminate | reflexivity].
  - split; [intros _ [|i] ? ?; discriminate | reflexivity].
  - split; [intros _ [|i] ? ? ?; discriminate | reflexivity].
  - rewrite orb_false_iff, IH. split.
    + intros [H0 H] [|i] input' lim'; simpl.
      * intros E1 E2. inversion E1; inversion E2; subst. exact H0.
      * apply H.
    + intros H. split.
      * exact (H 0 input lim eq_refl eq_refl).
      * intros i. exact (H (S i)).
Qed.

(** A NaN is neither below nor above anything. *)
Lemma nan_not_ltb (x y : float) :
  is_nan x = true -> (x <? y)%float = false /\ (y <? x)%float = false.
Proof.
  unfold is_nan. rewrite negb_true_iff, FloatAxioms.eqb_spec, !FloatAxioms.ltb_spec.
  unfold SFeqb, SFltb.
  destruct (Prim2SF x) as [sx|sx| |sx mx ex].
  - discriminate.
  - destruct sx; discriminate.
  - intros _. split; [reflexivity|]. now destruct (Prim2SF y) as [?|[|]| |[|] ? ?].
  - cbn [SFcompare]. rewrite Z.compare_refl.
    rewrite Pos.compare_cont_refl. destruct sx; discriminate.
Qed.

Lemma violates_nan (input : Input) (lim : Limit) :
  is_nan (Value input) = true -> violates input lim = false.
Proof.
  intros H. unfold violates.
  destruct (nan_not_ltb (Value input) (Min lim) H) as [-> _].
  destruct (nan_not_ltb (Value input) (Max lim) H) as [_ ->].
  reflexivity.
Qed.

Section ValidInputsMore.
Context {FP : fmt.Formatter} {EP : Errors}.

(** The accumulator of the loop is the errors found so far, joined. *)
Lemma validInputs_range_joined (inputs : list Input) :
  forall (lims : list Limit) (i : nat) (e : error) (seen : list error),
    validInputs_range i inputs lims (Some (String.concat "; " (e :: seen)))
    = Some (String.concat "; " ((e :: seen) ++ oobErrors i inputs lims)).
Proof.
  assert (Hsnoc : forall (seen : list error) (e x : error),
             (String.concat "; " (e :: seen) ++ "; " ++ x)%string
             = String.concat "; " ((e :: seen) ++ [x])).
  { induction seen as [|s seen IHs]; intros e x; [reflexivity|].
    change (String.concat "; " (e :: s :: seen))
      with (e ++ "; " ++ String.concat "; " (s :: seen))%string.
    rewrite !string_app_assoc, IHs. reflexivity. }
  induction inputs as [|input inputs IH]; intros [|lim lims] i e seen;
    cbn [validInputs_range oobErrors]; try now rewrite app_nil_r.
  destruct (violates input lim).
  - cbn [multierr.AppendInto]. rewrite Hsnoc.
    change ((e :: seen) ++ [oobError i input lim])
      with (e :: (seen ++ [oobError i input lim])).
    rewrite IH. f_equal. f_equal. cbn [app]. now rewrite <- app_assoc.
  - cbn [app]. apply IH.
Qed.

Lemma validInputs_range_from_nil (inputs : list Input) :
  forall (lims : list Limit) (i : nat),
    validInputs_range i inputs lims None
    = match oobErrors i inputs lims with
      | [] => None
      | errs => Some (String.concat "; " errs)
      end.
Proof.
  induction inputs as [|input inputs IH]; intros [|lim lims] i; try reflexivity.
  cbn [validInputs_range oobErrors]. destruct (violates input lim).
  - cbn [multierr.AppendInto app].
    exact (validInputs_range_joined inputs lims (S i) (oobError i input lim) []).
  - cbn [app]. apply IH.
Qed.

(** X1.  [validInputs] returns nil exactly when there are as many inputs as
    limits and no input is below the minimum or above the maximum of the
    limit at its index. *)
Theorem validInputs_nil_iff (bf : baseFrame) (inputs : list Input) :
  validInputs bf inputs = None
  <-> length inputs = length (limits bf)
      /\ forall i input lim,
           nth_error inputs i = Some input ->
           nth_error (limits bf) i = Some lim ->
           (Value input <? Min lim)%float = false
           /\ (Max lim <? Value input)%float = false.
Proof.
  unfold validInputs.
  destruct (length inputs =? length (limits bf)) eqn:E; simpl.
  - apply Nat.eqb_eq in E.
    rewrite validInputs_range_None, outOfBounds_false_iff.
    split.
    + intros H. split; [exact E|]. intros i input lim Hi Hl.
      apply orb_false_iff. exact (H i input lim Hi Hl).
    + intros [_ H] i input lim Hi Hl. apply orb_false_iff. exact (H i input lim Hi Hl).
  - apply Nat.eqb_neq in E. split; [discriminate|]. intros [H _]. contradiction.
Qed.

(** X2.  With as many inputs as limits, the error of [validInputs] is the text of
    the out-of-bounds errors of the violating joints, in the order of the
    joints, separated by [; ]; it is nil when no joint violates its limit. *)
Theorem validInputs_lists_violations (bf : baseFrame) (inputs : list Input) :
  length inputs = length (limits bf) ->
  validInputs bf inputs
  = match oobErrors 0 inputs (limits bf) with
    | [] => None
    | errs => Some (String.concat "; " errs)
    end.
Proof.
  intros H. rewrite validInputs_same_length by exact H.
  apply validInputs_range_from_nil.
Qed.

Lemma validInputs_None_oob (bf : baseFrame) (inputs : list Input) :
  validInputs bf inputs = None
  <-> length inputs = length (limits bf) /\ outOfBounds inputs (limits bf) = false.
Proof.
  unfold validInputs.
  destruct (length inputs =? length (limits bf)) eqn:E; simpl.
  - apply Nat.eqb_eq in E. rewrite validInputs_range_None. tauto.
  - apply Nat.eqb_neq in E. split; [discriminate | tauto].
Qed.

(** A length error without the out-of-bounds tag is the only error that
    stops a [Transform]. *)
Lemma notOOB_validInputs (bf : baseFrame) (inputs : list Input) :
  (forall actual expected,
      strings.Contains (NewIncorrectInputLengthError actual expected) OOBErrString
      = false) ->
  notOOB (validInputs bf inputs) = negb (length inputs =? length (limits bf)).
Proof.
  intros Hmsg. destruct (length inputs =? length (limits bf)) eqn:E.
  - apply Nat.eqb_eq in E. simpl. apply notOOB_tagged. now apply validInputs_tagged.
  - apply Nat.eqb_neq in E. rewrite validInputs_other_length by exact E.
    simpl. now rewrite Hmsg.
Qed.

End ValidInputsMore.

(** ** [Transform], [Geometries] and the shape of a frame *)

Section Shapes_facts.
Context {SP : spatial.Package} {UP : utils.Package} {FP : fmt.Formatter}
        {EP : Errors}.

(** The body shared by the three [Transform] methods that take inputs:
    [pose] computes the pose from the inputs, and panics when they are too
    few. *)
Lemma joint_Transform_cases (bf : baseFrame) (inputs : list Input)
    (r : outcome (option spatial.Pose * option error))
    (pose : outcome spatial.Pose) :
  r = (let err := validInputs bf inputs in
       if notOOB err then Returns (None, err)
       else match pose with
            | Returns p => Returns (Some p, err)
            | Panics => Panics
            end) ->
  (forall p, r = Returns (Some p, None) ->
             length inputs = length (limits bf)
             /\ outOfBounds inputs (limits bf) = false)
  /\ (forall p err, r = Returns (Some p, err) -> notOOB err = false).
Proof.
  intros ->. cbv zeta. split.
  - intros p. destruct (notOOB _); [discriminate|].
    destruct pose; [|discriminate]. intros H. inversion H as [[Hp He]].
    now apply validInputs_None_oob.
  - intros p err. destruct (notOOB _) eqn:E; [discriminate|].
    destruct pose; [|discriminate]. intros H. inversion H; subst. exact E.
Qed.

Lemma translationalFrame_Transform_body (pf : translationalFrame) (inputs : list Input) :
  translationalFrame_Transform pf inputs
  = (let err := validInputs (pf_baseFrame pf) inputs in
     if notOOB err then Returns (None, err)
     else match match inputs with
                | input0 :: _ =>
                    Returns (spatial.NewPoseFromPoint
                               (r3.Mul (pf_transAxis pf) (Value input0)))
                | [] => Panics
                end with
          | Returns p => Returns (Some p, err)
          | Panics => Panics
          end).
Proof.
  unfold translationalFrame_Transform. cbv zeta.
  destruct (notOOB _); [reflexivity|]. now destruct inputs.
Qed.

Lemma rotationalFrame_Transform_body (rf : rotationalFrame) (inputs : list Input) :
  rotationalFrame_Transform rf inputs
  = (let err := validInputs (rf_baseFrame rf) inputs in
     if notOOB err then Returns (None, err)
     else match match inputs with
                | input0 :: _ =>
                    Returns (spatial.NewPoseFromOrientation
                               (spatial.AxisAngle
                                  {| spatial.Theta := Value input0;
                                     spatial.RX := r3.X (rf_rotAxis rf);
                                     spatial.RY := r3.Y (rf_rotAxis rf);
                                     spatial.RZ := r3.Z (rf_rotAxis rf) |}))
                | [] => Panics
                end with
          | Returns p => Returns (Some p, err)
          | Panics => Panics
          end).
Proof.
  unfold rotationalFrame_Transform. cbv zeta.
  destruct (notOOB _); [reflexivity|]. now destruct inputs.
Qed.

Lemma mobile2DFrame_Transform_body (mf : mobile2DFrame) (inputs : list Input) :
  mobile2DFrame_Transform mf inputs
  = (let err := validInputs (mf_baseFrame mf) inputs in
     if notOOB err then Returns (None, err)
     else match match inputs with
                | input0 :: input1 :: _ =>
                    Returns (spatial.NewPoseFromPoint
                               {| r3.X := Value input0;
                                  r3.Y := Value input1;
                                  r3.Z := 0 |})
                | _ => Panics
                end with
          | Returns p => Returns (Some p, err)
          | Panics => Panics
          end).
Proof.
  unfold mobile2DFrame_Transform. cbv zeta.
  destruct (notOOB _); [reflexivity|]. now destruct inputs as [|? [|? ?]].
Qed.

(** A pose comes with a nil error or with an out-of-bounds error. *)
Lemma Transform_pose_tagged (f : Frame) (inputs : list Input) (p : spatial.Pose)
    (err : option error) :
  Transform f inputs = Returns (Some p, err) -> notOOB err = false.
Proof.
  induction f as [sf|sf|pf|rf|mf|inner IH|inner IH nm]; simpl; auto.
  1,2: unfold staticFrame_Transform; destruct (negb _); intros H; inversion H;
       reflexivity.
  - exact (proj2 (joint_Transform_cases _ _ _ _
                    (translationalFrame_Transform_body pf inputs)) p err).
  - exact (proj2 (joint_Transform_cases _ _ _ _
                    (rotationalFrame_Transform_body rf inputs)) p err).
  - exact (proj2 (joint_Transform_cases _ _ _ _
                    (mobile2DFrame_Transform_body mf inputs)) p err).
Qed.

(** Within its limits, a frame of any kind returns a pose and a nil error. *)
Lemma Transform_in_bounds_wellFormed (f : Frame) (inputs : list Input) :
  wellFormed f = true ->
  length inputs = length (DoF f) ->
  outOfBounds inputs (DoF f) = false ->
  exists pose, Transform f inputs = Returns (Some pose, None).
Proof.
  induction f as [sf|sf|pf|rf|mf|inner IH|inner IH nm]; simpl; intros Hwf Hl Hb; auto.
  1,2: apply Nat.eqb_eq in Hwf; rewrite Hwf in Hl;
       unfold staticFrame_Transform; rewrite Hl; simpl; eauto.
  - now apply (Transform_in_bounds (TranslationalFrame pf)).
  - now apply (Transform_in_bounds (RotationalFrame rf)).
  - now apply (Transform_in_bounds (Mobile2DFrame mf)).
Qed.

(** X3.  [Transform] returns a pose and a nil error exactly when there are as
    many inputs as the frame has limits and none of them is out of
    bounds. *)
Theorem Transform_succeeds_iff (f : Frame) (inputs : list Input) :
  wellFormed f = true ->
  (exists pose, Transform f inputs = Returns (Some pose, None))
  <-> length inputs = length (DoF f) /\ outOfBounds inputs (DoF f) = false.
Proof.
  intros Hwf. split.
  2: { intros [Hl Hb]. now apply Transform_in_bounds_wellFormed. }
  induction f as [sf|sf|pf|rf|mf|inner IH|inner IH nm]; simpl in *; auto.
  1,2: apply Nat.eqb_eq in Hwf; apply length_zero_iff_nil in Hwf; rewrite Hwf;
       unfold staticFrame_Transform; destruct inputs as [|input inputs]; simpl;
       intros [p H]; try discriminate; now split.
  - intros [p H].
    exact (proj1 (joint_Transform_cases _ _ _ _
                    (translationalFrame_Transform_body pf inputs)) p H).
  - intros [p H].
    exact (proj1 (joint_Transform_cases _ _ _ _
                    (rotationalFrame_Transform_body rf inputs)) p H).
  - intros [p H].
    exact (proj1 (joint_Transform_cases _ _ _ _
                    (mobile2DFrame_Transform_body mf inputs)) p H).
Qed.

(** X4.  NaN inputs pass the limits: with NaN for every input, a translational,
    rotational or mobile-2D frame returns a pose and a nil error, whatever
    its limits. *)
Theorem Transform_accepts_nan (f : Frame) (inputs : list Input) :
  jointFrame f = true ->
  length inputs = length (DoF f) ->
  (forall input, In input inputs -> is_nan (Value input) = true) ->
  exists pose, Transform f inputs = Returns (Some pose, None).
Proof.
  intros Hj Hl Hnan. apply Transform_in_bounds; [exact Hj | exact Hl |].
  apply outOfBounds_false_iff. intros i input lim Hi _.
  apply violates_nan, Hnan. eapply nth_error_In. exact Hi.
Qed.

Lemma Transform_never_panics (f : Frame) (inputs : list Input) :
  wellFormed f = true ->
  (forall actual expected,
      strings.Contains (NewIncorrectInputLengthError actual expected) OOBErrString
      = false) ->
  Transform f inputs <> Panics.
Proof.
  intros Hwf Hmsg.
  induction f as [sf|sf|pf|rf|mf|inner IH|inner IH nm]; simpl in *; auto.
  1,2: unfold staticFrame_Transform; destruct (negb _); discriminate.
  - unfold translationalFrame_Transform. cbv zeta.
    rewrite (notOOB_validInputs _ _ Hmsg).
    destruct (length inputs =? _) eqn:E; simpl; [|discriminate].
    apply Nat.eqb_eq in E, Hwf. rewrite Hwf in E.
    destruct inputs; [discriminate E | discriminate].
  - unfold rotationalFrame_Transform. cbv zeta.
    rewrite (notOOB_validInputs _ _ Hmsg).
    destruct (length inputs =? _) eqn:E; simpl; [|discriminate].
    apply Nat.eqb_eq in E, Hwf. rewrite Hwf in E.
    destruct inputs; [discriminate E | discriminate].
  - unfold mobile2DFrame_Transform. cbv zeta.
    rewrite (notOOB_validInputs _ _ Hmsg).
    destruct (length inputs =? _) eqn:E; simpl; [|discriminate].
    apply Nat.eqb_eq in E, Hwf. rewrite Hwf in E.
    destruct inputs as [|? [|? ?]]; try discriminate E; discriminate.
Qed.

Lemma placed_never_panics (name : string) (geometry : spatial.Geometry)
    (r : outcome (option spatial.Pose * option error)) :
  r <> Panics -> placed name geometry r <> Panics.
Proof.
  destruct r as [[[p|] err]|]; simpl; try discriminate; [|congruence].
  destruct (notOOB err); discriminate.
Qed.

Lemma Geometries_never_panics (f : Frame) (inputs : list Input) :
  wellFormed f = true ->
  (forall actual expected,
      strings.Contains (NewIncorrectInputLengthError actual expected) OOBErrString
      = false) ->
  Geometries f inputs <> Panics.
Proof.
  intros Hwf Hmsg.
  induction f as [sf|sf|pf|rf|mf|inner IH|inner IH nm]; simpl in *.
  - unfold staticFrame_Geometries.
    destruct (sf_geometry sf); [destruct (negb _)|]; discriminate.
  - unfold tailGeometryStaticFrame_Geometries.
    destruct (sf_geometry sf); [destruct (negb _)|]; discriminate.
  - unfold translationalFrame_Geometries.
    destruct (pf_geometry pf); [|discriminate].
    apply placed_never_panics.
    exact (Transform_never_panics (TranslationalFrame pf) inputs Hwf Hmsg).
  - discriminate.
  - unfold mobile2DFrame_Geometries.
    destruct (mf_geometry mf); [|discriminate].
    apply placed_never_panics.
    exact (Transform_never_panics (Mobile2DFrame mf) inputs Hwf Hmsg).
  - discriminate.
  - specialize (IH Hwf).
    pose proof (Geometries_nil_has_error inner inputs) as Hnil.
    destruct (Geometries inner inputs) as [[[gif|] [e|]]|]; simpl; try discriminate.
    + exfalso. now apply (Hnil None).
    + contradiction.
Qed.

End Shapes_facts.

Section Panics.
Context {SP : spatial.Package} {UP : utils.Package} {FP : fmt.Formatter}
        {EP : Errors} {JL : json.Marshaler LinkConfig}
        {JJ : json.Marshaler JointConfig}.

Lemma MarshalJSON_never_panics (f : Frame) :
  wellFormed f = true -> MarshalJSON f <> Panics.
Proof.
  induction f as [sf|sf|pf|rf|mf|inner IH|inner IH nm]; simpl; intros Hwf; auto.
  1,2: unfold staticFrame_MarshalJSON;
       destruct (spatial.NewOrientationConfig _) as [oc [e|]]; [discriminate|];
       destruct (sf_geometry sf); [|discriminate];
       destruct (spatial.NewGeometryConfig _) as [gc [e|]]; discriminate.
  - unfold translationalFrame_MarshalJSON. apply Nat.eqb_eq in Hwf.
    destruct (limits (pf_baseFrame pf)) as [|limit0 [|]]; try discriminate Hwf.
    simpl. destruct (pf_geometry pf); [|discriminate].
    destruct (spatial.NewGeometryConfig _) as [gc [e|]]; discriminate.
  - unfold rotationalFrame_MarshalJSON. apply Nat.eqb_eq in Hwf.
    destruct (limits (rf_baseFrame rf)) as [|limit0 [|]]; try discriminate Hwf.
    discriminate.
  - discriminate.
Qed.

(** X5.  [Transform], [Geometries] and [MarshalJSON] never panic on a frame
    with the number of limits its constructor gives it, as long as the text
    of the input-length error does not carry the out-of-bounds tag. *)
Theorem methods_never_panic (f : Frame) (inputs : list Input) :
  wellFormed f = true ->
  (forall actual expected,
      strings.Contains (NewIncorrectInputLengthError actual expected) OOBErrString
      = false) ->
  Transform f inputs <> Panics
  /\ Geometries f inputs <> Panics
  /\ MarshalJSON f <> Panics.
Proof.
  intros Hwf Hmsg. split; [|split].
  - now apply Transform_never_panics.
  - now apply Geometries_never_panics.
  - now apply MarshalJSON_never_panics.
Qed.

End Panics.

Section Shapes_more.
Context {SP : spatial.Package} {UP : utils.Package} {FP : fmt.Formatter}
        {EP : Errors}.

(** X6.  A translational or mobile-2D frame answers [Geometries] from what
    [Transform] answers.  Without a geometry it returns an empty list and a
    nil error, whatever the inputs.  With a geometry it returns the geometry
    placed at the pose of [Transform], under the frame's name, with the error
    of [Transform]; and that error alone when [Transform] returns no pose. *)
Theorem Geometries_follows_Transform (f : Frame) (inputs : list Input) :
  moves f = true ->
  Geometries f inputs
  = match movingGeometry f with
    | None => Returns (Some {| frame := Name f; geometries := [] |}, None)
    | Some geometry =>
        match Transform f inputs with
        | Returns (Some pose, err) =>
            Returns (Some {| frame := Name f;
                             geometries := [spatial.Transform geometry pose] |}, err)
        | Returns (None, err) => Returns (None, err)
        | Panics => Panics
        end
    end.
Proof.
  destruct f as [sf|sf|pf|rf|mf|inner|inner nm]; simpl; try discriminate;
    intros _.
  - unfold translationalFrame_Geometries.
    destruct (pf_geometry pf) as [geometry|]; [|reflexivity].
    pose proof (Transform_pose_tagged (TranslationalFrame pf) inputs) as Htag.
    simpl in Htag.
    destruct (translationalFrame_Transform pf inputs) as [[[p|] err]|];
      simpl; try reflexivity.
    now rewrite (Htag p err eq_refl).
  - unfold mobile2DFrame_Geometries.
    destruct (mf_geometry mf) as [geometry|]; [|reflexivity].
    pose proof (Transform_pose_tagged (Mobile2DFrame mf) inputs) as Htag.
    simpl in Htag.
    destruct (mobile2DFrame_Transform mf inputs) as [[[p|] err]|];
      simpl; try reflexivity.
    now rewrite (Htag p err eq_refl).
Qed.

(** X7.  A mobile-2D frame built by its constructor moves in the plane: on the
    inputs [x] and [y], within the limits or not, the pose is the point
    [(x, y, 0)] with the identity orientation. *)
Theorem mobile2DFrame_Transform_plane (name : string) (limits : list Limit)
    (geometry : option spatial.Geometry) (f : Frame) (x y : float) :
  NewMobile2DFrame name limits geometry = (Some f, None) ->
  exists err,
    Transform f [{| Value := x |}; {| Value := y |}]
    = Returns (Some {| spatial.Point := {| r3.X := x; r3.Y := y; r3.Z := 0 |};
                       spatial.PoseOrientation := spatial.NewZeroOrientation |}, err)
    /\ tagged err.
Proof.
  unfold NewMobile2DFrame.
  destruct (length limits =? 2) eqn:E; simpl; intros H; inversion H; subst f.
  apply Nat.eqb_eq in E. simpl. unfold mobile2DFrame_Transform.
  set (bf := {| name := name; limits := limits |}).
  assert (Htag : tagged (validInputs bf [{| Value := x |}; {| Value := y |}]))
    by (apply validInputs_tagged; simpl; now rewrite E).
  change (mf_baseFrame _) with bf.
  rewrite (notOOB_tagged _ Htag). eexists. split; [reflexivity | exact Htag].
Qed.

(** X8.  A rotational frame built by its constructor turns about its stored
    axis: on the input [theta], within the limit or not, the pose has no
    translation, and its orientation is the axis-angle of [theta] about the
    axis the constructor stored. *)
Theorem rotationalFrame_Transform_rotates (name : string) (axis : spatial.R4AA)
    (limit : Limit) (f : Frame) (theta : float) :
  NewRotationalFrame name axis limit = (Some f, None) ->
  exists err,
    Transform f [{| Value := theta |}]
    = Returns (Some {| spatial.Point := r3.zero;
                       spatial.PoseOrientation :=
                         spatial.AxisAngle
                           {| spatial.Theta := theta;
                              spatial.RX := spatial.RX (spatial.Normalize axis);
                              spatial.RY := spatial.RY (spatial.Normalize axis);
                              spatial.RZ := spatial.RZ (spatial.Normalize axis) |} |},
               err)
    /\ tagged err.
Proof.
  intros H. inversion H; subst f; clear H.
  simpl. unfold rotationalFrame_Transform.
  set (bf := {| name := name; limits := [limit] |}).
  assert (Htag : tagged (validInputs bf [{| Value := theta |}]))
    by (apply validInputs_tagged; reflexivity).
  change (rf_baseFrame _) with bf.
  rewrite (notOOB_tagged _ Htag). eexists. split; [reflexivity | exact Htag].
Qed.

(** X9.  Every constructor returns either a frame and a nil error or a nil frame
    and an error.  A returned frame has the name asked for and the number
    of limits of its kind.  The static constructors fail exactly on a nil
    pose, the translational ones exactly on an axis within 1e-8 of zero,
    the mobile-2D one exactly when it is not given two limits; the
    rotational one and [FrameFromPoint] never fail. *)
Theorem constructors_build (name : string) :
  (forall pose,
      built (NewStaticFrame name pose) (match pose with Some _ => true | None => false end) name 0)
  /\ (forall pose geometry,
        built (NewStaticFrameWithGeometry name pose geometry)
          (match pose with Some _ => true | None => false end) name 0)
  /\ (forall frame pose,
        built (NewStaticFrameFromFrame frame pose)
          (match pose with Some _ => true | None => false end) (Name frame) 0)
  /\ (forall point, built (FrameFromPoint name point) true name 0)
  /\ built (Some (NewZeroStaticFrame name), None) true name 0
  /\ (forall axis limit geometry,
        built (NewTranslationalFrameWithGeometry name axis limit geometry)
          (negb (spatial.R3VectorAlmostEqual r3.zero axis 0x1.5798ee2308c3ap-27))
          name 1)
  /\ (forall axis limit,
        built (NewTranslationalFrame name axis limit)
          (negb (spatial.R3VectorAlmostEqual r3.zero axis 0x1.5798ee2308c3ap-27))
          name 1)
  /\ (forall axis limit, built (NewRotationalFrame name axis limit) true name 1)
  /\ (forall limits geometry,
        built (NewMobile2DFrame name limits geometry) (length limits =? 2) name 2)
  /\ (forall f, wellFormed (NewNamedFrame f name) = wellFormed f
                /\ Name (NewNamedFrame f name) = name
                /\ DoF (NewNamedFrame f name) = DoF f).
Proof.
  repeat match goal with |- _ /\ _ => split end.
  - intros [pose|]; simpl; auto.
  - intros [pose|] geometry; simpl; auto.
  - intros frame [pose|]; [|reflexivity].
    destruct frame; simpl; auto.
  - intros point. simpl. auto.
  - simpl. auto.
  - intros axis limit geometry. unfold NewTranslationalFrameWithGeometry.
    destruct (spatial.R3VectorAlmostEqual _ _ _); simpl; auto.
  - intros axis limit. unfold NewTranslationalFrame, NewTranslationalFrameWithGeometry.
    destruct (spatial.R3VectorAlmostEqual _ _ _); simpl; auto.
  - intros axis limit. simpl. auto.
  - intros limits geometry. unfold NewMobile2DFrame.
    destruct (length limits =? 2) eqn:E; simpl; [|reflexivity].
    repeat split; [exact E | now apply Nat.eqb_eq].
  - intros f. auto.
Qed.

(** X10.  [NewStaticFrameFromFrame] keeps the frame's name and replaces its pose.
    The geometry is taken over from a static, translational or mobile-2D
    frame only: for a rotational frame, a tail-geometry frame and a frame
    under a wrapper, the new frame has no geometry, whatever the old one
    carries. *)
Theorem NewStaticFrameFromFrame_inherits (frame : Frame) (pose : spatial.Pose) :
  exists sf,
    NewStaticFrameFromFrame frame (Some pose) = (Some (StaticFrame sf), None)
    /\ Name (StaticFrame sf) = Name frame
    /\ DoF (StaticFrame sf) = []
    /\ Transform (StaticFrame sf) [] = Returns (Some pose, None)
    /\ sf_geometry sf
       = match frame with
         | StaticFrame f => sf_geometry f
         | TranslationalFrame f => pf_geometry f
         | Mobile2DFrame f => mf_geometry f
         | _ => None
         end
    /\ (forall inputs,
          Geometries (StaticFrame sf) inputs
          = Returns (Some {| frame := Name frame; geometries := [] |}, None)
          \/ moves frame = true
          \/ exists f, frame = StaticFrame f).
Proof.
  destruct frame; simpl; eexists; (split; [reflexivity|]); simpl;
    repeat split; intros inputs; eauto.
Qed.

(** X11.  A tail-geometry frame differs from its static frame in one place: with
    a geometry and the empty input, the static frame places the geometry at
    the zero pose and the tail-geometry frame at the frame's own pose.  On
    every other call of [Geometries], and for the name, the limits and
    [Transform], they agree. *)
Theorem tailGeometryStaticFrame_differs (sf : staticFrame) (inputs : list Input) :
  Name (TailGeometryStaticFrame sf) = Name (StaticFrame sf)
  /\ DoF (TailGeometryStaticFrame sf) = DoF (StaticFrame sf)
  /\ Transform (TailGeometryStaticFrame sf) inputs = Transform (StaticFrame sf) inputs
  /\ (forall other,
        AlmostEquals (TailGeometryStaticFrame sf) other
        = AlmostEquals (StaticFrame sf) other)
  /\ (sf_geometry sf = None \/ inputs <> [] ->
      Geometries (TailGeometryStaticFrame sf) inputs
      = Geometries (StaticFrame sf) inputs)
  /\ (forall geometry,
        sf_geometry sf = Some geometry ->
        Geometries (StaticFrame sf) []
        = Returns (Some {| frame := name (sf_baseFrame sf);
                           geometries :=
                             [labelled (spatial.Transform geometry spatial.NewZeroPose)
                                (name (sf_baseFrame sf))] |}, None)
        /\ Geometries (TailGeometryStaticFrame sf) []
           = Returns (Some {| frame := name (sf_baseFrame sf);
                              geometries :=
                                [labelled (spatial.Transform geometry (sf_transform sf))
                                   (name (sf_baseFrame sf))] |}, None)).
Proof.
  repeat match goal with |- _ /\ _ => split end; try reflexivity.
  - simpl. unfold tailGeometryStaticFrame_Geometries, staticFrame_Geometries.
    intros [-> | Hne]; [reflexivity|].
    destruct (sf_geometry sf); [|reflexivity].
    destruct inputs; [contradiction | reflexivity].
  - intros geometry Hg. simpl.
    unfold staticFrame_Geometries, tailGeometryStaticFrame_Geometries.
    rewrite Hg. split; reflexivity.
Qed.

(** X12.  [AlmostEquals] is never true of a wrapper, of a tail-geometry frame
    or of a mobile-2D frame as the other frame, whatever the receiver:
    these do not even equal themselves. *)
Theorem AlmostEquals_false_on_wrappers (f : Frame) :
  (forall inner n, AlmostEquals f (NewNamedFrame inner n) = false)
  /\ (forall inner, AlmostEquals f (NoGeometryFrame inner) = false)
  /\ (forall sf, AlmostEquals f (TailGeometryStaticFrame sf) = false)
  /\ (forall mf, AlmostEquals f (Mobile2DFrame mf) = false).
Proof.
  induction f as [sf|sf|pf|rf|mf|inner IH|inner IH nm]; simpl; auto.
Qed.

(** X13.  [limitsAlmostEqual] is true exactly when the two lists have the same
    length and, index by index, both the minima and the maxima are almost
    equal under the epsilon 1e-5. *)
Theorem limitsAlmostEqual_iff (a b : list Limit) :
  limitsAlmostEqual a b = true
  <-> length a = length b
      /\ forall i x y,
           nth_error a i = Some x -> nth_error b i = Some y ->
           utils.Float64AlmostEqual (Min x) (Min y) 0x1.4f8b588e368f1p-17 = true
           /\ utils.Float64AlmostEqual (Max x) (Max y) 0x1.4f8b588e368f1p-17 = true.
Proof.
  unfold limitsAlmostEqual.
  destruct (length a =? length b) eqn:E; simpl.
  2: { apply Nat.eqb_neq in E. split; [discriminate | tauto]. }
  apply Nat.eqb_eq in E. revert b E.
  induction a as [|x a IH]; intros [|y b] E; try discriminate E.
  - split; [|reflexivity]. intros _. split; [reflexivity|].
    intros [|i] ? ?; discriminate.
  - cbn [limitsAlmostEqual_range]. injection E as E.
    destruct (utils.Float64AlmostEqual (Min x) (Min y) _) eqn:E1;
      destruct (utils.Float64AlmostEqual (Max x) (Max y) _) eqn:E2; simpl.
    + rewrite (IH b E). split.
      * intros [_ H]. split; [now f_equal|].
        intros [|i] x' y'; simpl.
        -- intros H1 H2. inversion H1; inversion H2; subst. now split.
        -- apply H.
      * intros [_ H]. split; [exact E|]. intros i. exact (H (S i)).
    + split; [discriminate|]. intros [_ H].
      destruct (H 0 x y eq_refl eq_refl). congruence.
    + split; [discriminate|]. intros [_ H].
      destruct (H 0 x y eq_refl eq_refl). congruence.
    + split; [discriminate|]. intros [_ H].
      destruct (H 0 x y eq_refl eq_refl). congruence.
Qed.

End Shapes_more.

(** ** Wrappers and the wire format *)

Section Wire.
Context {SP : spatial.Package} {UP : utils.Package} {FP : fmt.Formatter}
        {EP : Errors} {DP : degrees.Package}
        {JL : json.Marshaler LinkConfig} {JJ : json.Marshaler JointConfig}.

(** The conversions of a translational or mobile-2D frame, under wrappers
    or not. *)
Lemma plain_conversions (f : Frame) :
  plainInputs f = true ->
  forall (inputs : list Input) (jp : pb.JointPositions),
    InputFromProtobuf f (Some jp)
    = Returns (map (fun d => {| Value := d |}) (pb.Values jp))
    /\ ProtobufFromInput f inputs = Returns {| pb.Values := map Value inputs |}.
Proof.
  unfold plainInputs.
  induction f as [sf|sf|pf|rf|mf|inner IH|inner IH nm]; simpl; try discriminate;
    auto; intros _ inputs jp.
  - unfold translationalFrame_InputFromProtobuf, translationalFrame_ProtobufFromInput.
    now rewrite !fill_map.
  - unfold mobile2DFrame_InputFromProtobuf, mobile2DFrame_ProtobufFromInput.
    now rewrite !fill_map.
Qed.

Lemma Input_Value_inverse (inputs : list Input) :
  map (fun d => {| Value := d |}) (map Value inputs) = inputs.
Proof.
  induction inputs as [|[v] inputs IH]; simpl; [reflexivity | now rewrite IH].
Qed.

Lemma Value_Input_inverse (values : list float) :
  map Value (map (fun d => {| Value := d |}) values) = values.
Proof.
  induction values as [|v values IH]; simpl; [reflexivity | now rewrite IH].
Qed.

(** X14.  Under any number of wrappers, a frame answers [DoF], [Transform],
    [AlmostEquals], [MarshalJSON] and the two conversions as the frame
    inside does; a new name in particular never reaches the serialised
    frame. *)
Theorem wrappers_delegate (f : Frame) :
  DoF f = DoF (unwrapped f)
  /\ (forall inputs, Transform f inputs = Transform (unwrapped f) inputs)
  /\ (forall other, AlmostEquals f other = AlmostEquals (unwrapped f) other)
  /\ MarshalJSON f = MarshalJSON (unwrapped f)
  /\ (forall jp, InputFromProtobuf f jp = InputFromProtobuf (unwrapped f) jp)
  /\ (forall inputs, ProtobufFromInput f inputs = ProtobufFromInput (unwrapped f) inputs)
  /\ (forall n, MarshalJSON (NewNamedFrame f n) = MarshalJSON f).
Proof.
  induction f as [sf|sf|pf|rf|mf|inner IH|inner IH nm]; simpl;
    try (repeat split; reflexivity).
  - destruct IH as (H1 & H2 & H3 & H4 & H5 & H6 & _). repeat split; assumption.
  - destruct IH as (H1 & H2 & H3 & H4 & H5 & H6 & _). repeat split; assumption.
Qed.

(** X15.  Wrappers compose.  Renaming twice is renaming once, with the last name;
    stripping the geometries and renaming give the same name and the same
    answer of [Geometries] in either order; stripping twice is stripping
    once. *)
Theorem wrappers_compose (f : Frame) (a b : string) (inputs : list Input) :
  Name (NewNamedFrame (NewNamedFrame f a) b) = Name (NewNamedFrame f b)
  /\ Geometries (NewNamedFrame (NewNamedFrame f a) b) inputs
     = Geometries (NewNamedFrame f b) inputs
  /\ Name (NoGeometryFrame (NewNamedFrame f a)) = Name (NewNamedFrame (NoGeometryFrame f) a)
  /\ Geometries (NoGeometryFrame (NewNamedFrame f a)) inputs
     = Geometries (NewNamedFrame (NoGeometryFrame f) a) inputs
  /\ Geometries (NewNamedFrame (NoGeometryFrame f) a) inputs
     = Returns (Some {| frame := a; geometries := [] |}, None)
  /\ Name (NoGeometryFrame (NoGeometryFrame f)) = Name (NoGeometryFrame f)
  /\ Geometries (NoGeometryFrame (NoGeometryFrame f)) inputs
     = Geometries (NoGeometryFrame f) inputs.
Proof.
  repeat match goal with |- _ /\ _ => split end; try reflexivity.
  simpl. now destruct (Geometries f inputs) as [[[gif|] [e|]]|].
Qed.

(** X16.  What the conversions do, by the frame under the wrappers.  A static or
    tail-geometry frame ignores its argument: no inputs from any message,
    the nil one included, and an empty message from any inputs.  The other
    frames panic on a nil message; otherwise they convert value by value,
    as many as they are given, whatever the number of limits: as they are
    for a translational and a mobile-2D frame, through [utils.DegToRad] and
    [utils.RadToDeg] for a rotational frame. *)
Theorem protobuf_conversions (f : Frame) (inputs : list Input)
    (jp : pb.JointPositions) :
  match unwrapped f with
  | StaticFrame _ | TailGeometryStaticFrame _ =>
      InputFromProtobuf f None = Returns []
      /\ InputFromProtobuf f (Some jp) = Returns []
      /\ ProtobufFromInput f inputs = Returns {| pb.Values := [] |}
  | RotationalFrame _ =>
      InputFromProtobuf f None = Panics
      /\ InputFromProtobuf f (Some jp)
         = Returns (map (fun d => {| Value := degrees.DegToRad d |}) (pb.Values jp))
      /\ ProtobufFromInput f inputs
         = Returns {| pb.Values := map (fun a => utils.RadToDeg (Value a)) inputs |}
  | _ =>
      InputFromProtobuf f None = Panics
      /\ InputFromProtobuf f (Some jp)
         = Returns (map (fun d => {| Value := d |}) (pb.Values jp))
      /\ ProtobufFromInput f inputs = Returns {| pb.Values := map Value inputs |}
  end.
Proof.
  induction f as [sf|sf|pf|rf|mf|inner IH|inner IH nm]; simpl; try exact IH;
    try (repeat split; reflexivity).
  - unfold translationalFrame_InputFromProtobuf, translationalFrame_ProtobufFromInput.
    now rewrite !fill_map.
  - unfold rotationalFrame_InputFromProtobuf, rotationalFrame_ProtobufFromInput.
    now rewrite !fill_map.
  - unfold mobile2DFrame_InputFromProtobuf, mobile2DFrame_ProtobufFromInput.
    now rewrite !fill_map.
Qed.

(** X17.  For a translational or a mobile-2D frame, under wrappers or not,
    the two conversions are inverse to each other, for any number of
    inputs. *)
Theorem protobuf_round_trip (f : Frame) (inputs : list Input)
    (jp : pb.JointPositions) :
  plainInputs f = true ->
  (exists jp', ProtobufFromInput f inputs = Returns jp'
               /\ InputFromProtobuf f (Some jp') = Returns inputs)
  /\ (exists inputs', InputFromProtobuf f (Some jp) = Returns inputs'
                      /\ ProtobufFromInput f inputs' = Returns jp).
Proof.
  intros Hplain. pose proof (plain_conversions f Hplain) as H.
  split.
  - eexists. split; [apply H; exact jp|].
    destruct (H inputs {| pb.Values := map Value inputs |}) as [-> _].
    simpl. now rewrite Input_Value_inverse.
  - eexists. split; [apply H; exact inputs|].
    destruct (H (map (fun d => {| Value := d |}) (pb.Values jp)) jp) as [_ ->].
    rewrite Value_Input_inverse. now destruct jp.
Qed.

End Wire.

(** ** The restricted sample over the whole range *)

Module binary64_restricted.
Import binary64 binary64_facts.
#[local] Open Scope Z_scope.

Lemma SFeqb_val (x y : spec_float) :
  valid_binary x = true -> valid_binary y = true ->
  finite x = true -> finite y = true ->
  SFeqb x y = true <-> fval x = fval y.
Proof.
  intros Vx Vy Fx Fy. unfold SFeqb. rewrite (SFcompare_val x y Vx Vy Fx Fy).
  destruct (Z.compare_spec (fval x) (fval y)); split; intros; try lia; try reflexivity;
    discriminate.
Qed.

(** A float between two finite floats is finite. *)
Lemma between_finite (xl xv xu : spec_float) :
  SFleb xl xv = true -> SFleb xv xu = true ->
  finite xl = true -> finite xu = true -> finite xv = true.
Proof.
  destruct xv as [sv|[|]| |sv mv ev]; try reflexivity; intros H1 H2 Fl Fu.
  - destruct xl as [sl|sl| |sl ml el]; try discriminate Fl;
      cbn in H1; try discriminate H1; destruct sl; discriminate H1.
  - destruct xu as [su|su| |su mu eu]; try discriminate Fu;
      cbn in H2; try discriminate H2; destruct su; discriminate H2.
  - destruct xl as [sl|sl| |sl ml el]; discriminate.
Qed.

Lemma has_value_of_finite (x : spec_float) (V : Z) :
  has_value x V -> finite x = true -> fval x = V /\ Z.abs V < 2 ^ (1024 + K).
Proof.
  destruct x as [s|s| |s m e]; cbn [has_value finite fval]; try discriminate.
  - intros -> _. split; [reflexivity|]. apply pow2_pos. unfold K. lia.
  - intros H _. exact H.
Qed.

Lemma fval_one : fval (S754_finite false 4503599627370496 (-52)) = 2 ^ K.
Proof.
  cbn [fval cond_Zopp]. change 4503599627370496 with (2 ^ 52).
  rewrite <- Z.pow_add_r by (unfold K; lia). reflexivity.
Qed.

(** A finite float times zero, halved, is a zero. *)
Lemma zero_share (xs : spec_float) :
  finite xs = true ->
  exists s,
    SF64div (SF64mul xs (S754_zero false)) (S754_finite false 4503599627370496 (-51))
    = S754_zero s.
Proof.
  destruct xs as [s|s| |s m e]; try discriminate; intros _;
    eexists; reflexivity.
Qed.

(** In [float64]: with the whole range asked for, the restricted sample
    [1 * (u - l) * r + l + (u - l) * (1 - 1) / 2] is the number
    [r * (u - l) + l], for bounds [l <= u] whose span is finite and a
    draw [0 <= r < 1]; it lies between [l] and [u]. *)
Theorem restricted_sample_whole_range (l u r : float) :
  (l <=? u)%float = true ->
  (u - l <? infinity)%float = true ->
  (0 <=? r)%float = true ->
  (r <? 1)%float = true ->
  (1 * (u - l) * r + l + (u - l) * (1 - 1) / 2 =? r * (u - l) + l)%float = true
  /\ (l <=? 1 * (u - l) * r + l + (u - l) * (1 - 1) / 2)%float = true
  /\ (1 * (u - l) * r + l + (u - l) * (1 - 1) / 2 <=? u)%float = true.
Proof.
  intros Hlu Hspan Hr0 Hr1.
  destruct (sample_in_range l u r Hlu Hspan Hr0 Hr1) as [Hlv Hvu].
  change (1 - 1)%float with 0%float.
  pose proof (Prim2SF_valid l) as Vl. pose proof (Prim2SF_valid u) as Vu.
  pose proof (Prim2SF_valid r) as Vr.
  pose proof (Prim2SF_valid (u - l)) as Vs.
  pose proof (Prim2SF_valid (r * (u - l))) as Vq.
  pose proof (Prim2SF_valid (r * (u - l) + l)) as Vv.
  pose proof (Prim2SF_valid (1 * (u - l))) as V1.
  pose proof (Prim2SF_valid (1 * (u - l) * r)) as V2.
  pose proof (Prim2SF_valid (1 * (u - l) * r + l)) as V3.
  pose proof (Prim2SF_valid (1 * (u - l) * r + l + (u - l) * 0 / 2)) as Vw.
  revert Hlu Hspan Hr0 Hr1 Hlv Hvu.
  rewrite FloatAxioms.eqb_spec, !FloatAxioms.leb_spec, !FloatAxioms.ltb_spec.
  rewrite ?add_spec, ?div_spec, ?mul_spec, ?add_spec, ?mul_spec, ?sub_spec in *.
  change (Prim2SF infinity) with (S754_infinity false).
  change (Prim2SF 0) with (S754_zero false) in *.
  change (Prim2SF 1) with (S754_finite false 4503599627370496 (-52)) in *.
  change (Prim2SF 2) with (S754_finite false 4503599627370496 (-51)) in *.
  set (xl := Prim2SF l) in *. set (xu := Prim2SF u) in *. set (xr := Prim2SF r) in *.
  set (one := S754_finite false 4503599627370496 (-52)) in *.
  intros Hlu Hspan Hr0 Hr1 Hlv Hvu.
  destruct (bounds_finite xl xu Hlu Hspan) as [Fl Fu].
  pose proof (draw_finite xr Hr0 Hr1) as Fr.
  apply (SFleb_val xl xu Vl Vu Fl Fu) in Hlu.
  set (L := fval xl) in *. set (U := fval xu) in *.
  (* the span *)
  pose proof (SFsub_value xu xl Vu Vl Fu Fl) as Hs. fold L U in Hs.
  assert (HRNs : RNs (U - L) = RN (U - L)).
  { unfold RNs. destruct (Z.ltb_spec (U - L) 0); [lia | reflexivity]. }
  rewrite HRNs in Hs.
  pose proof (RN_nonneg (U - L) ltac:(lia)) as Hnn.
  set (xs := SF64sub xu xl) in *.
  assert (Fs : finite xs = true /\ fval xs = RN (U - L)).
  { destruct xs as [ss|[|]| |ss ms es]; cbn [has_value] in Hs; try discriminate;
      try contradiction; cbn [finite fval].
    - rewrite Hs. auto.
    - pose proof (pow2_pos (1024 + K) ltac:(unfold K; lia)). lia.
    - destruct Hs as [Hs _]. auto. }
  destruct Fs as [Fs HS].
  destruct (fval_fixed xs Vs Fs) as [HSfix HSb]. rewrite HS in HSfix, HSb.
  set (S := RN (U - L)) in *.
  (* the draw *)
  assert (HR : 0 <= fval xr < 2 ^ K).
  { apply (SFleb_val (S754_zero false) xr eq_refl Vr eq_refl Fr) in Hr0.
    apply (SFltb_val xr one Vr eq_refl Fr eq_refl) in Hr1.
    change (fval (S754_zero false)) with 0 in Hr0.
    unfold one in Hr1. rewrite fval_one in Hr1. lia. }
  set (R := fval xr) in *.
  pose proof (pow2_pos K ltac:(unfold K; lia)) as HK.
  (* one times the span is the span *)
  pose proof (SFmul_value one xs eq_refl Vs eq_refl Fs) as H1.
  unfold one in H1 at 2. rewrite fval_one, HS in H1.
  replace (2 ^ K * S / 2 ^ K) with S in H1
    by (rewrite Z.mul_comm, Z.div_mul; lia).
  rewrite HSfix in H1.
  destruct (has_value_finite _ _ H1 HSb) as [F1 E1].
  (* the two products *)
  assert (HP : 0 <= RNs (R * S / 2 ^ K) <= S).
  { assert (0 <= R * S / 2 ^ K <= S).
    { split; [apply Z.div_pos; nia|].
      apply Z.div_le_upper_bound; nia. }
    split.
    - change 0 with (RNs 0) at 1. apply RNs_mono. lia.
    - rewrite <- HSfix at 2. apply RNs_mono. lia. }
  set (P := RNs (R * S / 2 ^ K)) in *.
  pose proof (SFmul_value xr xs Vr Vs Fr Fs) as Hq. fold R in Hq. rewrite HS in Hq.
  fold P in Hq.
  destruct (has_value_finite _ _ Hq ltac:(lia)) as [Fq Eq].
  pose proof (SFmul_value _ xr V1 Vr F1 Fr) as H2. fold R in H2. rewrite E1 in H2.
  rewrite (Z.mul_comm S R) in H2. fold P in H2.
  destruct (has_value_finite _ _ H2 ltac:(lia)) as [F2 E2].
  (* the two sums *)
  pose proof (between_finite _ _ _ Hlv Hvu Fl Fu) as Fv.
  pose proof (SFadd_value _ xl Vq Vl Fq Fl) as Hv. rewrite Eq in Hv. fold L in Hv.
  destruct (has_value_of_finite _ _ Hv Fv) as [Ev Hvb].
  pose proof (SFadd_value _ xl V2 Vl F2 Fl) as H3. rewrite E2 in H3. fold L in H3.
  destruct (has_value_finite _ _ H3 Hvb) as [F3 E3].
  (* the share left out is a zero *)
  destruct (zero_share xs Fs) as [st Ht]. rewrite Ht in *.
  pose proof (SFadd_value _ (S754_zero st) V3 eq_refl F3 eq_refl) as Hw.
  change (fval (S754_zero st)) with 0 in Hw. rewrite Z.add_0_r in Hw.
  destruct (fval_fixed _ V3 F3) as [Hfix3 _]. rewrite Hfix3, E3 in Hw.
  destruct (has_value_finite _ _ Hw Hvb) as [Fw Ew].
  split; [|split].
  - apply (SFeqb_val _ _ Vw Vv Fw Fv). now rewrite Ew, Ev.
  - apply (SFleb_val xl _ Vl Vw Fl Fw). rewrite Ew, <- Ev.
    now apply (SFleb_val xl _ Vl Vv Fl Fv).
  - apply (SFleb_val _ xu Vw Vu Fw Fu). rewrite Ew, <- Ev.
    now apply (SFleb_val _ xu Vv Vu Fv Fu).
Qed.

End binary64_restricted.

(** ** The restricted sampler *)

Section RestrictedInputs.
Context {SP : spatial.Package} {RP : rand.Package}.

(** The value sampled for a limit from the draw [r], restricted to the
    share [lim] of the range. *)
Lemma RestrictedRandomFrameInputs_range_spec (lim : float) (dof : list Limit) :
  forall (rSeed : rand.Rand) (pos : list Input),
    RestrictedRandomFrameInputs_range lim dof rSeed pos
    = (pos ++ map (fun p =>
                     {| Value :=
                          (lim * (sampleUpper (snd p) - sampleLower (snd p)) * fst p
                           + sampleLower (snd p)
                           + (sampleUpper (snd p) - sampleLower (snd p)) * (1 - lim) / 2)%float |})
                  (combine (fst (draws (length dof) rSeed)) dof),
       snd (draws (length dof) rSeed)).
Proof.
  induction dof as [|limit dof IH]; intros rSeed pos; simpl.
  - now rewrite app_nil_r.
  - destruct (rand.Float64 rSeed) as [r rSeed'].
    rewrite IH. destruct (draws (length dof) rSeed') as [rs rSeed'']. simpl.
    now rewrite <- app_assoc.
Qed.

Lemma nth_error_combine {A B : Type} (l : list A) :
  forall (l' : list B) (k : nat) (a : A) (b : B),
    nth_error l k = Some a -> nth_error l' k = Some b ->
    nth_error (combine l l') k = Some (a, b).
Proof.
  induction l as [|a0 l IH]; intros [|b0 l'] [|k] a b; simpl; try discriminate.
  - now intros [= ->] [= ->].
  - apply IH.
Qed.

Lemma nth_draw (n : nat) (rSeed : rand.Rand) (k : nat) :
  k < n -> exists r, nth_error (fst (draws n rSeed)) k = Some r.
Proof.
  intros H. destruct (nth_error (fst (draws n rSeed)) k) as [r|] eqn:E; [eauto|].
  apply nth_error_None in E. rewrite draws_length in E. lia.
Qed.

(** X18.  [RestrictedRandomFrameInputs] returns as many values as the frame has
    limits.  The value at index [k] is
    [lim * span * r + l + span * (1 - lim) / 2] in [float64] arithmetic,
    where [r] is the draw number [k], [l] and [u] are the bounds of the limit
    at [k] with the defaults -999 and 999 for infinite ones, and [span] is
    [u - l].  Like [RandomFrameInputs], it draws once per limit, in the order
    of the limits: both leave the generator in the state after that many
    draws. *)
Theorem RestrictedRandomFrameInputs_values (m : Frame) (rSeed : option rand.Rand)
    (lim : float) :
  length (fst (RestrictedRandomFrameInputs m rSeed lim)) = length (DoF m)
  /\ (forall k limit,
        nth_error (DoF m) k = Some limit ->
        exists r,
          nth_error (fst (draws (length (DoF m)) (seedOf rSeed))) k = Some r
          /\ nth_error (fst (RestrictedRandomFrameInputs m rSeed lim)) k
             = Some {| Value :=
                         (let l := if Min limit =? neg_infinity then -999 else Min limit in
                          let u := if Max limit =? infinity then 999 else Max limit in
                          let span := u - l in
                          lim * span * r + l + span * (1 - lim) / 2)%float |})
  /\ snd (RestrictedRandomFrameInputs m rSeed lim)
     = snd (draws (length (DoF m)) (seedOf rSeed))
  /\ snd (RandomFrameInputs m rSeed) = snd (draws (length (DoF m)) (seedOf rSeed)).
Proof.
  unfold RestrictedRandomFrameInputs, RandomFrameInputs. fold (seedOf rSeed).
  rewrite RestrictedRandomFrameInputs_range_spec, RandomFrameInputs_range_spec.
  cbn [fst snd app].
  pose proof (draws_length (length (DoF m)) (seedOf rSeed)) as Hlen.
  split; [|split; [|split; reflexivity]].
  - now rewrite length_map, length_combine, Hlen, Nat.min_id.
  - intros k limit Hk.
    assert (Hlt : k < length (DoF m)) by (apply nth_error_Some; congruence).
    destruct (nth_draw _ (seedOf rSeed) k Hlt) as [r Hr].
    exists r. split; [exact Hr|].
    rewrite nth_error_map, (nth_error_combine _ _ k r limit Hr Hk). reflexivity.
Qed.

(** X19.  With the whole range asked for ([lim = 1]), the restricted sampler
    returns, limit by limit, the number that [RandomFrameInputs] returns
    from the same generator, and that number lies within the limit: for
    every limit whose bounds are in order and whose span does not overflow,
    and a draw of [[0, 1)]. *)
Theorem RestrictedRandomFrameInputs_whole_range (m : Frame)
    (rSeed : option rand.Rand) (k : nat) (limit : Limit) (r : float) :
  nth_error (DoF m) k = Some limit ->
  nth_error (fst (draws (length (DoF m)) (seedOf rSeed))) k = Some r ->
  ((if Min limit =? neg_infinity then -999 else Min limit)
   <=? (if Max limit =? infinity then 999 else Max limit))%float = true ->
  ((if Max limit =? infinity then 999 else Max limit)
   - (if Min limit =? neg_infinity then -999 else Min limit) <? infinity)%float = true ->
  (0 <=? r)%float = true ->
  (r <? 1)%float = true ->
  exists v w,
    nth_error (fst (RestrictedRandomFrameInputs m rSeed 1)) k = Some {| Value := v |}
    /\ nth_error (fst (RandomFrameInputs m rSeed)) k = Some {| Value := w |}
    /\ (v =? w)%float = true
    /\ withinLimit {| Value := v |} limit = true.
Proof.
  intros Hk Hr Hlu Hspan Hr0 Hr1.
  unfold RestrictedRandomFrameInputs, RandomFrameInputs. fold (seedOf rSeed).
  rewrite RestrictedRandomFrameInputs_range_spec, RandomFrameInputs_range_spec.
  cbn [fst snd app].
  rewrite !nth_error_map, (nth_error_combine _ _ k r limit Hr Hk).
  cbn [option_map fst snd].
  fold (sampleLower limit) in Hlu, Hspan. fold (sampleUpper limit) in Hlu, Hspan.
  destruct (binary64_restricted.restricted_sample_whole_range
              _ _ _ Hlu Hspan Hr0 Hr1) as (Heq & Hl & Hu).
  eexists _, _. split; [reflexivity|]. split; [reflexivity|].
  split; [exact Heq|]. now apply withinLimit_of_sample_bounds.
Qed.

End RestrictedInputs.

(** ** Equality and serialisation: what they require *)

Section Requirements.
Context {SP : spatial.Package} {UP : utils.Package} {FP : fmt.Formatter}
        {EP : Errors} {JL : json.Marshaler LinkConfig}
        {JJ : json.Marshaler JointConfig}.

Lemma baseFrame_AlmostEquals_same (bf other : baseFrame) :
  baseFrame_AlmostEquals bf other = true ->
  name bf = name other /\ length (limits bf) = length (limits other).
Proof.
  unfold baseFrame_AlmostEquals, limitsAlmostEqual.
  intros H. apply andb_true_iff in H as [Hn Hl].
  apply String.eqb_eq in Hn.
  destruct (length (limits bf) =? length (limits other)) eqn:E; [|discriminate Hl].
  apply Nat.eqb_eq in E. now split.
Qed.

(** X20.  Two frames are almost equal only if they have the same number of limits
    and the other frame's name is the name of the frame under the
    receiver's wrappers: a name given by [NewNamedFrame] is not compared. *)
Theorem AlmostEquals_same_name (f other : Frame) :
  AlmostEquals f other = true ->
  Name (unwrapped f) = Name other /\ length (DoF f) = length (DoF other).
Proof.
  induction f as [sf|sf|pf|rf|mf|inner IH|inner IH nm]; simpl; auto;
    destruct other; simpl; try discriminate; intros H;
    repeat match type of H with
           | (_ && _) = true => apply andb_true_iff in H as [H _]
           end;
    now apply baseFrame_AlmostEquals_same.
Qed.

(** X21.  The ways [MarshalJSON] fails.  A translational or rotational frame with
    more than one limit returns [ErrMarshalingHighDOFFrame]; with no limit
    at all it panics on [limits[0]].  A static frame returns the error of the
    orientation config, else the error of the geometry config; a
    translational frame with its one limit returns the error of the
    geometry config. *)
Theorem MarshalJSON_errors :
  (forall pf, 1 < length (limits (pf_baseFrame pf)) ->
              MarshalJSON (TranslationalFrame pf)
              = Returns (None, Some ErrMarshalingHighDOFFrame))
  /\ (forall rf, 1 < length (limits (rf_baseFrame rf)) ->
                 MarshalJSON (RotationalFrame rf)
                 = Returns (None, Some ErrMarshalingHighDOFFrame))
  /\ (forall pf, limits (pf_baseFrame pf) = [] ->
                 MarshalJSON (TranslationalFrame pf) = Panics)
  /\ (forall rf, limits (rf_baseFrame rf) = [] ->
                 MarshalJSON (RotationalFrame rf) = Panics)
  /\ (forall sf oc err,
        spatial.NewOrientationConfig (spatial.PoseOrientation (sf_transform sf))
        = (oc, Some err) ->
        MarshalJSON (StaticFrame sf) = Returns (None, Some err))
  /\ (forall sf oc geometry gc err,
        spatial.NewOrientationConfig (spatial.PoseOrientation (sf_transform sf))
        = (oc, None) ->
        sf_geometry sf = Some geometry ->
        spatial.NewGeometryConfig geometry = (gc, Some err) ->
        MarshalJSON (StaticFrame sf) = Returns (None, Some err))
  /\ (forall pf limit geometry gc err,
        limits (pf_baseFrame pf) = [limit] ->
        pf_geometry pf = Some geometry ->
        spatial.NewGeometryConfig geometry = (gc, Some err) ->
        MarshalJSON (TranslationalFrame pf) = Returns (None, Some err)).
Proof.
  repeat match goal with |- _ /\ _ => split end; simpl.
  - intros pf H. unfold translationalFrame_MarshalJSON.
    apply Nat.ltb_lt in H. now rewrite H.
  - intros rf H. unfold rotationalFrame_MarshalJSON.
    apply Nat.ltb_lt in H. now rewrite H.
  - intros pf H. unfold translationalFrame_MarshalJSON. now rewrite H.
  - intros rf H. unfold rotationalFrame_MarshalJSON. now rewrite H.
  - intros sf oc err H. unfold staticFrame_MarshalJSON. now rewrite H.
  - intros sf oc geometry gc err Ho Hg Hc. unfold staticFrame_MarshalJSON.
    now rewrite Ho, Hg, Hc.
  - intros pf limit geometry gc err Hl Hg Hc. unfold translationalFrame_MarshalJSON.
    rewrite Hl. simpl. now rewrite Hg, Hc.
Qed.

End Requirements.

(** ** Sampled inputs are accepted *)

(** Comparing two floats the other way round gives the opposite answer. *)
Lemma SFcompare_antisym (x y : spec_float) :
  SFcompare y x = match SFcompare x y with
                  | Some c => Some (CompOpp c)
                  | None => None
                  end.
Proof.
  destruct x as [sx|sx| |sx mx ex]; destruct y as [sy|sy| |sy my ey];
    cbn [SFcompare]; try reflexivity;
    try (destruct sx; reflexivity); try (destruct sy; reflexivity);
    try (destruct sx, sy; reflexivity).
  destruct sx, sy; try reflexivity;
    rewrite (Z.compare_antisym ex ey);
    destruct (ex ?= ey)%Z; cbn [CompOpp]; try reflexivity;
    rewrite (Pos.compare_cont_antisym mx my Eq); reflexivity.
Qed.

Lemma leb_not_ltb (a b : float) :
  (a <=? b)%float = true -> (b <? a)%float = false.
Proof.
  rewrite FloatAxioms.leb_spec, FloatAxioms.ltb_spec. unfold SFleb, SFltb.
  rewrite (SFcompare_antisym (Prim2SF a) (Prim2SF b)).
  now destruct (SFcompare (Prim2SF a) (Prim2SF b)) as [[| |]|].
Qed.

Lemma not_ltb_leb (a b : float) :
  is_nan a = false -> is_nan b = false ->
  (b <? a)%float = false -> (a <=? b)%float = true.
Proof.
  unfold is_nan. rewrite !negb_false_iff, !FloatAxioms.eqb_spec,
    FloatAxioms.leb_spec, FloatAxioms.ltb_spec. unfold SFeqb, SFleb, SFltb.
  intros Ha Hb. rewrite (SFcompare_antisym (Prim2SF a) (Prim2SF b)).
  destruct (Prim2SF a) as [sa|sa| |sa ma ea]; try discriminate Ha;
    destruct (Prim2SF b) as [sb|sb| |sb mb eb]; try discriminate Hb;
    clear Ha Hb; cbn [SFcompare];
    repeat match goal with
           | |- context [match ?c with Eq => _ | Lt => _ | Gt => _ end] =>
               is_var c; destruct c
           | |- context [if ?s then _ else _] => is_var s; destruct s
           | |- context [(?x ?= ?y)%Z] => destruct (x ?= y)%Z
           | |- context [PosDef.Pos.compare_cont ?c ?x ?y] =>
               destruct (PosDef.Pos.compare_cont c x y)
           end; cbn [CompOpp]; intros; try reflexivity; discriminate.
Qed.

(** An input within the closed range of a limit does not violate it. *)
Lemma withinLimit_not_violates (input : Input) (lim : Limit) :
  withinLimit input lim = true -> violates input lim = false.
Proof.
  unfold withinLimit, violates. intros H.
  apply andb_true_iff in H as [Hl Hu].
  now rewrite (leb_not_ltb _ _ Hl), (leb_not_ltb _ _ Hu).
Qed.

(** X22.  NaNs apart, [validInputs] reports an input exactly when it lies outside
    the closed range from the minimum to the maximum of its limit: the
    bounds themselves are accepted. *)
Theorem violates_outside_closed_range (input : Input) (lim : Limit) :
  is_nan (Value input) = false ->
  is_nan (Min lim) = false ->
  is_nan (Max lim) = false ->
  violates input lim = negb (withinLimit input lim).
Proof.
  intros Hv Hmin Hmax.
  destruct (withinLimit input lim) eqn:E; simpl.
  - now apply withinLimit_not_violates.
  - unfold withinLimit in E. unfold violates.
    apply andb_false_iff in E as [E|E].
    + destruct (Value input <? Min lim)%float eqn:E1; [reflexivity|].
      now rewrite (not_ltb_leb _ _ Hmin Hv E1) in E.
    + destruct (Max lim <? Value input)%float eqn:E2; [apply orb_true_r|].
      now rewrite (not_ltb_leb _ _ Hv Hmax E2) in E.
Qed.

Section Accepted.
Context {SP : spatial.Package} {UP : utils.Package} {FP : fmt.Formatter}
        {EP : Errors} {RP : rand.Package}.

Lemma nth_error_combine_inv {A B : Type} (l : list A) :
  forall (l' : list B) (k : nat) (a : A) (b : B),
    nth_error (combine l l') k = Some (a, b) ->
    nth_error l k = Some a /\ nth_error l' k = Some b.
Proof.
  induction l as [|a0 l IH]; intros [|b0 l'] [|k] a b; simpl; try discriminate.
  - now intros [= -> ->].
  - apply IH.
Qed.

(** Values sampled limit by limit within the limits are in bounds. *)
Lemma sampled_in_bounds (value : float -> Limit -> float) (rs : list float)
    (dof : list Limit) :
  (forall r lim, In r rs -> In lim dof ->
                 withinLimit {| Value := value r lim |} lim = true) ->
  outOfBounds (map (fun p => {| Value := value (fst p) (snd p) |}) (combine rs dof)) dof
  = false.
Proof.
  intros H. apply outOfBounds_false_iff. intros i input lim Hi Hl.
  rewrite nth_error_map in Hi.
  destruct (nth_error (combine rs dof) i) as [[r lim']|] eqn:E; [|discriminate].
  apply nth_error_combine_inv in E as [Hr Hl'].
  assert (lim' = lim) by congruence. subst lim'.
  injection Hi as <-. apply withinLimit_not_violates. cbn [fst snd].
  apply H; eapply nth_error_In; eassumption.
Qed.

(** X23.  Sampled inputs are accepted.  For a frame whose limits have their
    bounds in order and a span that does not overflow, and a generator
    whose draws lie in [[0, 1)], [Transform] returns a pose and a nil error
    on the inputs of [RandomFrameInputs], and on the inputs of
    [RestrictedRandomFrameInputs] for the whole range. *)
Theorem RandomFrameInputs_accepted (m : Frame) (rSeed : option rand.Rand) :
  wellFormed m = true ->
  forallb samplable (DoF m) = true ->
  forallb unitDraw (fst (draws (length (DoF m)) (seedOf rSeed))) = true ->
  (exists pose,
      Transform m (fst (RandomFrameInputs m rSeed)) = Returns (Some pose, None))
  /\ (exists pose,
        Transform m (fst (RestrictedRandomFrameInputs m rSeed 1))
        = Returns (Some pose, None)).
Proof.
  intros Hwf Hdof Hdraws.
  rewrite forallb_forall in Hdof, Hdraws.
  pose proof (draws_length (length (DoF m)) (seedOf rSeed)) as Hlen.
  unfold RestrictedRandomFrameInputs, RandomFrameInputs. fold (seedOf rSeed).
  rewrite RestrictedRandomFrameInputs_range_spec, RandomFrameInputs_range_spec.
  cbn [fst snd app].
  split; (apply Transform_in_bounds_wellFormed;
          [exact Hwf | now rewrite length_map, length_combine, Hlen, Nat.min_id |]).
  - apply (sampled_in_bounds
             (fun r lim => (r * (sampleUpper lim - sampleLower lim) + sampleLower lim)%float)).
    intros r lim Hr Hl.
    specialize (Hdof lim Hl). specialize (Hdraws r Hr).
    apply andb_true_iff in Hdof as [H1 H2]. apply andb_true_iff in Hdraws as [H3 H4].
    now apply sample_withinLimit.
  - apply (sampled_in_bounds
             (fun r lim => (1 * (sampleUpper lim - sampleLower lim) * r + sampleLower lim
                            + (sampleUpper lim - sampleLower lim) * (1 - 1) / 2)%float)).
    intros r lim Hr Hl.
    specialize (Hdof lim Hl). specialize (Hdraws r Hr).
    apply andb_true_iff in Hdof as [H1 H2]. apply andb_true_iff in Hdraws as [H3 H4].
    destruct (binary64_restricted.restricted_sample_whole_range _ _ _ H1 H2 H3 H4)
      as (_ & Hl' & Hu').
    now apply withinLimit_of_sample_bounds.
Qed.

(** X24.  [AlmostEquals] and [Transform] never look at a geometry: they
    answer the same whatever geometries the two frames carry. *)
Theorem AlmostEquals_ignores_geometry (f other : Frame)
    (geometry geometry' : option spatial.Geometry) (inputs : list Input) :
  AlmostEquals (withGeometry f geometry) (withGeometry other geometry')
  = AlmostEquals f other
  /\ Transform (withGeometry f geometry) inputs = Transform f inputs.
Proof.
  split.
  - induction f as [sf|sf|pf|rf|mf|inner IH|inner IH nm]; simpl; auto;
      destruct other; reflexivity.
  - induction f as [sf|sf|pf|rf|mf|inner IH|inner IH nm]; simpl; auto.
Qed.

End Accepted.

(** ** The statements on sample frames *)

(** ** Products that are zero *)

Module binary64_products.
Import binary64 binary64_facts.
#[local] Open Scope Z_scope.

(** In [float64] seven times [x] is the positive zero only for [x] the
    positive zero: the product of seven and a nonzero number does not
    round to zero. *)
Lemma seven_mul_zero (x : float) : (7 * x)%float = 0%float -> x = 0%float.
Proof.
  intros H. apply (f_equal Prim2SF) in H. rewrite mul_spec in H.
  change (Prim2SF 0) with (S754_zero false) in H.
  change (Prim2SF 7) with (S754_finite false 7881299347898368 (-50)) in H.
  pose proof (Prim2SF_valid x) as Vx.
  rewrite <- (SF2Prim_Prim2SF x).
  destruct (Prim2SF x) as [s|s| |s m e] eqn:E.
  - destruct s; [discriminate H | reflexivity].
  - destruct s; discriminate H.
  - discriminate H.
  - exfalso.
    pose proof (SFmul_value (S754_finite false 7881299347898368 (-50))
                  (S754_finite s m e) eq_refl Vx eq_refl eq_refl) as Hv.
    rewrite H in Hv. cbn [has_value] in Hv.
    destruct (fval_fixed (S754_finite s m e) Vx eq_refl) as [Hfix _].
    destruct (valid_finite_bounds s m e Vx) as [He _].
    pose proof (val_pos m e ltac:(unfold K; lia)) as Hpos.
    pose proof (pow2_pos K ltac:(unfold K; lia)) as HK.
    assert (H7 : fval (S754_finite false 7881299347898368 (-50)) = 7 * 2 ^ K).
    { cbn [fval cond_Zopp]. change 7881299347898368 with (7 * 2 ^ 50).
      rewrite <- Z.mul_assoc, <- Z.pow_add_r by (unfold K; lia). reflexivity. }
    rewrite H7 in Hv.
    set (V := fval (S754_finite s m e)) in *.
    replace (7 * 2 ^ K * V / 2 ^ K) with (7 * V) in Hv
      by (replace (7 * 2 ^ K * V) with (7 * V * 2 ^ K) by ring;
          rewrite Z.div_mul; lia).
    assert (HV : V <> 0).
    { subst V. cbn [fval]. destruct s; cbn [cond_Zopp]; lia. }
    destruct (Z.lt_total V 0) as [Hn|[Hz|Hp]]; [|contradiction|].
    + pose proof (RNs_mono (7 * V) V ltac:(lia)). lia.
    + pose proof (RNs_mono V (7 * V) ltac:(lia)). lia.
Qed.

End binary64_products.

Section Samples.
Import Sample.

(** The text of the sample input-length error never carries the
    out-of-bounds tag: the tag starts with [i], the numbers hold digits
    only, and the fixed parts are compared letter by letter. *)
Lemma Contains_skip (s t : string) :
  no_i s = true ->
  strings.Contains (s ++ t) OOBErrString = strings.Contains t OOBErrString.
Proof.
  induction s as [|c s IH]; simpl; intros H; [reflexivity|].
  apply andb_true_iff in H as [Hc Hs].
  apply negb_true_iff in Hc. rewrite Hc. simpl. now apply IH.
Qed.

Lemma Contains_none (s : string) :
  no_i s = true -> strings.Contains s OOBErrString = false.
Proof.
  induction s as [|c s IH]; simpl; intros H; [reflexivity|].
  apply andb_true_iff in H as [Hc Hs].
  apply negb_true_iff in Hc. rewrite Hc. simpl. now apply IH.
Qed.

Lemma string_of_uint_no_i (d : Decimal.uint) :
  no_i (NilEmpty.string_of_uint d) = true.
Proof. induction d; simpl; auto. Qed.

Lemma length_error_untagged (actual expected : nat) :
  strings.Contains (NewIncorrectInputLengthError actual expected) OOBErrString = false.
Proof.
  simpl. unfold fmt.Sprint.
  rewrite Contains_skip by apply string_of_uint_no_i.
  simpl. apply Contains_none, string_of_uint_no_i.
Qed.

(** The translational frame of scenario S3, limits 0 to 10, on the input 15,
    and the mobile-2D frame on an input vector that is too short. *)
Lemma Transform_out_of_bounds_witness :
  (exists pose err,
      Transform (TranslationalFrame gantry) [{| Value := 15 |}]
      = Returns (Some pose, Some err)
      /\ strings.Contains err OOBErrString = true
      /\ Transform (unrestricted (TranslationalFrame gantry)) [{| Value := 15 |}]
         = Returns (Some pose, None)
      /\ pose = {| spatial.Point := {| r3.X := 0; r3.Y := 0; r3.Z := 15 |};
                   spatial.PoseOrientation := spatial.Quaternion 1 0 0 0 |})
  /\ Transform (Mobile2DFrame rover) [{| Value := 3 |}]
     = Returns (None, Some (NewIncorrectInputLengthError 1 2)).
Proof.
  split.
  - exact (proj1 (Transform_out_of_bounds (TranslationalFrame gantry)
                    [{| Value := 15 |}] eq_refl) eq_refl eq_refl).
  - refine (proj2 (Transform_out_of_bounds (Mobile2DFrame rover)
                     [{| Value := 3 |}] eq_refl) _ eq_refl).
    simpl. lia.
Defined.

Example Transform_S3 :
  Transform (TranslationalFrame gantry) [{| Value := 15 |}]
  = Returns
      (Some {| spatial.Point := {| r3.X := 0; r3.Y := 0; r3.Z := 15 |};
               spatial.PoseOrientation := spatial.Quaternion 1 0 0 0 |},
       Some "joint 0 input out of bounds, input 15.00000 needs to be within range [10.00000 0.00000]"%string).
Proof. reflexivity. Qed.

Example Transform_S4 :
  Transform (Mobile2DFrame rover) [{| Value := 3 |}; {| Value := 4 |}]
  = Returns
      (Some {| spatial.Point := {| r3.X := 3; r3.Y := 4; r3.Z := 0 |};
               spatial.PoseOrientation := spatial.Quaternion 1 0 0 0 |}, None).
Proof. reflexivity. Qed.

Lemma translationalFrame_Transform_translates_witness :
  NewTranslationalFrameWithGeometry
    "gantry" {| r3.X := 0; r3.Y := 3; r3.Z := 4 |} {| Min := 0; Max := 10 |} (Some box)
  = (Some (TranslationalFrame tilted), None)
  /\ exists err,
       Transform (TranslationalFrame tilted) [{| Value := 15 |}]
       = Returns (Some {| spatial.Point := {| r3.X := 0; r3.Y := 0x1.2000000000001p+3;
                                              r3.Z := 12 |};
                          spatial.PoseOrientation := spatial.Quaternion 1 0 0 0 |},
                  err)
       /\ tagged err.
Proof.
  split; [reflexivity|].
  exact (proj2 (translationalFrame_Transform_translates
                  "gantry" {| r3.X := 0; r3.Y := 3; r3.Z := 4 |} {| Min := 0; Max := 10 |}
                  (Some box) (TranslationalFrame tilted) 15 eq_refl)).
Defined.

(** The axis that [Normalize] computes is a unit vector only up to
    rounding: the squared norm of the stored axis of [tilted] is the float
    next above one. *)
Example tilted_axis_norm :
  r3.Norm2 (pf_transAxis tilted) = 0x1.0000000000001p+0%float.
Proof. reflexivity. Qed.

(** C6, the counterexample.  The frame built from the axis
    [(1e200, 0, 0)] stores the zero vector, as the squared norm of the axis
    overflows.  On the input [7] its [Transform] returns the origin, and a
    vector that [7] scales to the origin has the squared norm zero: the
    translation is [7] times no unit vector. *)
Lemma translationalFrame_Transform_zero_axis :
  NewTranslationalFrame "gantry"
    {| r3.X := 0x1.4e718d7d7625ap+664; r3.Y := 0; r3.Z := 0 |} {| Min := 0; Max := 10 |}
  = (Some (TranslationalFrame collapsed), None)
  /\ pf_transAxis collapsed = {| r3.X := 0; r3.Y := 0; r3.Z := 0 |}
  /\ Transform (TranslationalFrame collapsed) [{| Value := 7 |}]
     = Returns (Some {| spatial.Point := {| r3.X := 0; r3.Y := 0; r3.Z := 0 |};
                        spatial.PoseOrientation := spatial.Quaternion 1 0 0 0 |},
                None)
  /\ forall v : r3.Vector,
       r3.Mul v 7 = {| r3.X := 0; r3.Y := 0; r3.Z := 0 |} ->
       r3.Norm2 v = 0%float /\ (r3.Norm2 v =? 1)%float = false.
Proof.
  split; [reflexivity|]. split; [reflexivity|]. split; [reflexivity|].
  intros [x y z] H. unfold r3.Mul in H. cbn [r3.X r3.Y r3.Z] in H.
  injection H as Hx Hy Hz.
  apply binary64_products.seven_mul_zero in Hx, Hy, Hz. subst x y z.
  split; reflexivity.
Qed.

Lemma staticFrame_Geometries_without_geometry_witness :
  Geometries (StaticFrame pedestal) [{| Value := 1 |}]
  = Returns (Some {| frame := "pedestal"; geometries := [] |}, None)
  /\ Geometries (TailGeometryStaticFrame pedestal) [{| Value := 1 |}]
     = Returns (Some {| frame := "pedestal"; geometries := [] |}, None)
  /\ ([{| Value := 1 |}] <> [] ->
      Transform (StaticFrame pedestal) [{| Value := 1 |}]
      = Returns (None, Some (NewIncorrectInputLengthError 1 0))
      /\ Transform (TailGeometryStaticFrame pedestal) [{| Value := 1 |}]
         = Returns (None, Some (NewIncorrectInputLengthError 1 0))).
Proof.
  exact (staticFrame_Geometries_without_geometry pedestal [{| Value := 1 |}] eq_refl).
Defined.

(** C9: the embedded translational frame places its geometry on the
    out-of-bounds input 15 and returns it with the error; the named wrapper
    around it returns the error and no geometries. *)
Lemma namedFrame_Geometries_drops_out_of_bounds :
  Geometries (TranslationalFrame gantry) [{| Value := 15 |}]
  = Returns
      (Some {| frame := "gantry";
               geometries :=
                 [{| label := "box";
                     placements :=
                       [spatial.NewPoseFromPoint {| r3.X := 0; r3.Y := 0; r3.Z := 15 |}] |}] |},
       Some "joint 0 input out of bounds, input 15.00000 needs to be within range [10.00000 0.00000]"%string)
  /\ Geometries (NewNamedFrame (TranslationalFrame gantry) "arm") [{| Value := 15 |}]
     = Returns
         (None,
          Some "joint 0 input out of bounds, input 15.00000 needs to be within range [10.00000 0.00000]"%string).
Proof. split; reflexivity. Qed.

Lemma namedFrame_delegates_witness :
  Geometries (NewNamedFrame (TranslationalFrame gantry) "arm") [{| Value := 5 |}]
  = Returns
      (Some {| frame := "arm";
               geometries :=
                 geometries
                   {| frame := "gantry";
                      geometries :=
                        [{| label := "box";
                            placements :=
                              [spatial.NewPoseFromPoint
                                 {| r3.X := 0; r3.Y := 0; r3.Z := 5 |}] |}] |} |},
       None).
Proof.
  exact (proj1 (proj2 (proj2 (namedFrame_delegates (TranslationalFrame gantry) "arm")))
           [{| Value := 5 |}] _ eq_refl).
Defined.

(** C4: the rotational constructor accepts the zero axis. *)
Lemma NewRotationalFrame_accepts_zero_axis :
  exists f,
    NewRotationalFrame "elbow"
      {| spatial.Theta := 0; spatial.RX := 0; spatial.RY := 0; spatial.RZ := 0 |}
      {| Min := -3; Max := 3 |}
    = (Some f, None).
Proof. eexists. reflexivity. Qed.

(** An axis whose squared norm overflows is normalised to the zero vector. *)
Example NewTranslationalFrame_overflowing_axis :
  NewTranslationalFrame "gantry"
    {| r3.X := 0x1.4e718d7d7625ap+664; r3.Y := 0; r3.Z := 0 |} {| Min := 0; Max := 10 |}
  = (Some (TranslationalFrame
             {| pf_baseFrame := {| name := "gantry"; limits := [{| Min := 0; Max := 10 |}] |};
                pf_transAxis := {| r3.X := 0; r3.Y := 0; r3.Z := 0 |};
                pf_geometry := None |}), None).
Proof. reflexivity. Qed.

Lemma constructors_normalise_axis_witness :
  NewTranslationalFrameWithGeometry "gantry" {| r3.X := 0; r3.Y := 3; r3.Z := 4 |}
    {| Min := 0; Max := 10 |} (Some box)
  = (Some (TranslationalFrame
             {| pf_baseFrame := {| name := "gantry"; limits := [{| Min := 0; Max := 10 |}] |};
                pf_transAxis := r3.Normalize {| r3.X := 0; r3.Y := 3; r3.Z := 4 |};
                pf_geometry := Some box |}), None).
Proof.
  exact (proj1 (proj2 (proj2 (proj2
           (constructors_normalise_axis "gantry" {| r3.X := 0; r3.Y := 3; r3.Z := 4 |}
              {| spatial.Theta := 0; spatial.RX := 0; spatial.RY := 0; spatial.RZ := 1 |}
              {| Min := 0; Max := 10 |} (Some box))))) eq_refl).
Defined.

(** C5: a mobile-2D frame, built by its constructor, does not serialise. *)
Lemma mobile2DFrame_MarshalJSON_fails :
  NewMobile2DFrame "rover" [{| Min := -5; Max := 5 |}; {| Min := -5; Max := 5 |}] None
  = (Some (Mobile2DFrame rover), None)
  /\ MarshalJSON (Mobile2DFrame rover)
     = Returns (None, Some "MarshalJSON not implemented for type referenceframe.mobile2DFrame"%string).
Proof. split; reflexivity. Qed.

(** C8: limits of about -1.7e308 and 1.7e308.  Their span overflows to
    infinity, and so does the value sampled from the draw 0.5; it lies
    outside the limit. *)
Lemma RandomFrameInputs_out_of_range :
  fst (RandomFrameInputs
         (TranslationalFrame
            {| pf_baseFrame :=
                 {| name := "gantry";
                    limits := [{| Min := -0x1.e42d130773b76p+1023;
                                  Max := 0x1.e42d130773b76p+1023 |}] |};
               pf_transAxis := {| r3.X := 0; r3.Y := 0; r3.Z := 1 |};
               pf_geometry := None |})
         (Some [0.5%float]))
  = [{| Value := infinity |}]
  /\ withinLimit {| Value := infinity |}
       {| Min := -0x1.e42d130773b76p+1023; Max := 0x1.e42d130773b76p+1023 |}
     = false.
Proof. split; reflexivity. Qed.

(** A limit whose bounds are in the wrong order contains no value at all. *)
Example RandomFrameInputs_empty_range :
  fst (RandomFrameInputs
         (TranslationalFrame
            {| pf_baseFrame := {| name := "gantry"; limits := [{| Min := 1; Max := 0 |}] |};
               pf_transAxis := {| r3.X := 0; r3.Y := 0; r3.Z := 1 |};
               pf_geometry := None |})
         (Some [0.5%float]))
  = [{| Value := 0.5 |}]
  /\ withinLimit {| Value := 0.5 |} {| Min := 1; Max := 0 |} = false.
Proof. split; reflexivity. Qed.

Lemma RandomFrameInputs_values_witness :
  (exists r,
      nth_error (fst (draws (length (DoF (Mobile2DFrame rover))) (seedOf None))) 1 = Some r
      /\ nth_error (fst (RandomFrameInputs (Mobile2DFrame rover) None)) 1
         = Some {| Value :=
                     (r * ((if 5 =? infinity then 999 else 5)
                           - (if -5 =? neg_infinity then -999 else -5))
                      + (if -5 =? neg_infinity then -999 else -5))%float |})
  /\ withinLimit {| Value := 998 |} {| Min := neg_infinity; Max := infinity |} = true
  /\ withinLimit {| Value := (0.25 * (5 - -5) + -5)%float |} {| Min := -5; Max := 5 |}
     = true.
Proof.
  pose proof (RandomFrameInputs_values (Mobile2DFrame rover) None)
    as (_ & Hk & Hb & Hs).
  split; [|split].
  - exact (Hk 1 {| Min := -5; Max := 5 |} eq_refl).
  - exact (Hb {| Min := neg_infinity; Max := infinity |} 998%float eq_refl eq_refl).
  - exact (Hs {| Min := -5; Max := 5 |} 0.25%float eq_refl eq_refl eq_refl eq_refl).
Defined.

(** C1: two mobile-2D frames of the same name and limits. *)
Example mobile2DFrame_AlmostEquals_itself :
  AlmostEquals (Mobile2DFrame rover) (Mobile2DFrame rover) = false.
Proof. reflexivity. Qed.

Lemma rotationalFrame_Geometries_fails_witness :
  (exists pose,
      Transform (RotationalFrame elbow) [{| Value := 1 |}] = Returns (Some pose, None))
  /\ Geometries (RotationalFrame elbow) [{| Value := 1 |}]
     = Returns (None, Some "Geometries not implemented for type *referenceframe.rotationalFrame"%string).
Proof.
  exact (proj2 rotationalFrame_Geometries_fails "elbow"%string
           {| spatial.Theta := 0; spatial.RX := 0; spatial.RY := 0; spatial.RZ := 1 |}
           {| Min := -3; Max := 3 |} (RotationalFrame elbow) [{| Value := 1 |}]
           eq_refl eq_refl eq_refl).
Defined.

(** C3: a rotational frame on an in-bounds input of length one. *)
Example rotationalFrame_Geometries_in_bounds :
  Transform (RotationalFrame elbow) [{| Value := 1 |}]
  = Returns (Some (spatial.NewPoseFromOrientation
                     (spatial.AxisAngle
                        {| spatial.Theta := 1; spatial.RX := 0;
                           spatial.RY := 0; spatial.RZ := 1 |})), None)
  /\ Geometries (RotationalFrame elbow) [{| Value := 1 |}]
     = Returns (None, Some "Geometries not implemented for type *referenceframe.rotationalFrame"%string).
Proof. split; reflexivity. Qed.

End Samples.

(** ** The further properties on the sample frames *)

Section CodecSamples.
Import Sample SampleMore SampleCodec.

Lemma MarshalJSON_round_trip_witness :
  (exists data f',
      MarshalJSON (StaticFrame pedestal) = Returns (Some data, None)
      /\ ParseLinkConfig data = (Some f', None)
      /\ AlmostEquals f' (StaticFrame pedestal) = true)
  /\ (exists data f',
         MarshalJSON (TranslationalFrame tilted) = Returns (Some data, None)
         /\ ParseJointConfig data = (Some f', None)
         /\ AlmostEquals f' (TranslationalFrame tilted) = true)
  /\ (exists data f',
         MarshalJSON (RotationalFrame elbow) = Returns (Some data, None)
         /\ ParseJointConfig data = (Some f', None)
         /\ AlmostEquals f' (RotationalFrame elbow) = true).
Proof.
  pose proof (MarshalJSON_round_trip
                (SP := spatialPackage) (UP := utilsPackage) (DP := degreesPackage)
                (CP := configParser) (JL := linkEncoder) (JJ := jointEncoder)
                (UL := linkDecoder) (UJ := jointDecoder))
    as (_ & Hs & Hp & Hr).
  split; [|split].
  - assert (H : linkReadsBack
                  {| lc_ID := "pedestal";
                     lc_Parent := "";
                     lc_Translation := {| r3.X := 1; r3.Y := 2; r3.Z := 0 |};
                     lc_Orientation := Some spatial.NewZeroOrientation;
                     lc_Geometry := None |}
                  (write_link {| lc_ID := "pedestal";
                                 lc_Parent := "";
                                 lc_Translation := {| r3.X := 1; r3.Y := 2; r3.Z := 0 |};
                                 lc_Orientation := Some spatial.NewZeroOrientation;
                                 lc_Geometry := None |}))
      by (split; reflexivity).
    destruct (Hs pedestal (Some spatial.NewZeroOrientation) spatial.NewZeroOrientation
                None _ eq_refl (conj eq_refl eq_refl) eq_refl (conj eq_refl I) H)
      as (Hm & f' & Hf & He).
    eexists _, f'. repeat split; eassumption.
  - assert (H : jointReadsBack
                  {| jc_ID := "gantry";
                     jc_Type := "prismatic";
                     jc_Parent := "";
                     jc_Axis := pf_transAxis tilted;
                     jc_Max := 10;
                     jc_Min := 0;
                     jc_Geometry := Some box |}
                  (write_joint {| jc_ID := "gantry";
                                  jc_Type := "prismatic";
                                  jc_Parent := "";
                                  jc_Axis := pf_transAxis tilted;
                                  jc_Max := 10;
                                  jc_Min := 0;
                                  jc_Geometry := Some box |}))
      by (split; reflexivity).
    destruct (Hp tilted {| Min := 0; Max := 10 |} (Some box) _
                eq_refl eq_refl eq_refl eq_refl eq_refl
                (conj eq_refl (ex_intro _ box eq_refl)) H)
      as (Hm & f' & Hf & He).
    eexists _, f'. repeat split; eassumption.
  - assert (H : jointReadsBack
                  {| jc_ID := "elbow";
                     jc_Type := "revolute";
                     jc_Parent := "";
                     jc_Axis := {| r3.X := 0; r3.Y := 0; r3.Z := 1 |};
                     jc_Max := utils.RadToDeg 3;
                     jc_Min := utils.RadToDeg (-3);
                     jc_Geometry := None |}
                  (write_joint {| jc_ID := "elbow";
                                  jc_Type := "revolute";
                                  jc_Parent := "";
                                  jc_Axis := {| r3.X := 0; r3.Y := 0; r3.Z := 1 |};
                                  jc_Max := utils.RadToDeg 3;
                                  jc_Min := utils.RadToDeg (-3);
                                  jc_Geometry := None |}))
      by (split; reflexivity).
    destruct (Hr elbow {| Min := -3; Max := 3 |} _ eq_refl eq_refl eq_refl eq_refl H)
      as (Hm & f' & Hf & He).
    eexists _, f'. repeat split; eassumption.
Defined.

(** The frame built from the axis [(1e200, 0, 0)] is serialised, and the
    result is refused when it is parsed: the axis read back is the zero
    vector that the frame stores. *)
Example collapsed_is_not_read_back :
  exists data,
    MarshalJSON (TranslationalFrame collapsed) = Returns (Some data, None)
    /\ ParseJointConfig data
       = (None, Some "cannot use zero vector as translation axis"%string).
Proof. eexists. split; reflexivity. Qed.

End CodecSamples.

Section MoreSamples.
Import Sample SampleMore.

Lemma validInputs_lists_violations_witness :
  validInputs (mf_baseFrame rover) [{| Value := 7 |}; {| Value := -9 |}]
  = Some "joint 0 input out of bounds, input 7.00000 needs to be within range [5.00000 -5.00000]; joint 1 input out of bounds, input -9.00000 needs to be within range [5.00000 -5.00000]"%string.
Proof.
  exact (validInputs_lists_violations (mf_baseFrame rover)
           [{| Value := 7 |}; {| Value := -9 |}] eq_refl).
Defined.

Lemma Transform_succeeds_iff_witness :
  (exists pose,
      Transform (NewNamedFrame (TranslationalFrame gantry) "arm") [{| Value := 5 |}]
      = Returns (Some pose, None))
  <-> 1 = 1 /\ outOfBounds [{| Value := 5 |}] [{| Min := 0; Max := 10 |}] = false.
Proof.
  exact (Transform_succeeds_iff (NewNamedFrame (TranslationalFrame gantry) "arm")
           [{| Value := 5 |}] eq_refl).
Defined.

Lemma Transform_accepts_nan_witness :
  exists pose,
    Transform (TranslationalFrame gantry) [{| Value := nan |}]
    = Returns (Some pose, None).
Proof.
  apply (Transform_accepts_nan (TranslationalFrame gantry) [{| Value := nan |}]
           eq_refl eq_refl).
  intros input [<- | []]. reflexivity.
Defined.

Lemma methods_never_panic_witness :
  Transform (NewNamedFrame (TranslationalFrame gantry) "arm") [] <> Panics
  /\ Geometries (NewNamedFrame (TranslationalFrame gantry) "arm") [] <> Panics
  /\ MarshalJSON (NewNamedFrame (TranslationalFrame gantry) "arm") <> Panics.
Proof.
  exact (methods_never_panic (NewNamedFrame (TranslationalFrame gantry) "arm") []
           eq_refl length_error_untagged).
Defined.

Lemma Geometries_follows_Transform_witness :
  Geometries (TranslationalFrame gantry) [{| Value := 15 |}]
  = Returns
      (Some {| frame := "gantry";
               geometries :=
                 [spatial.Transform box
                    (spatial.NewPoseFromPoint {| r3.X := 0; r3.Y := 0; r3.Z := 15 |})] |},
       Some "joint 0 input out of bounds, input 15.00000 needs to be within range [10.00000 0.00000]"%string).
Proof.
  exact (Geometries_follows_Transform (TranslationalFrame gantry) [{| Value := 15 |}]
           eq_refl).
Defined.

Lemma mobile2DFrame_Transform_plane_witness :
  exists err,
    Transform (Mobile2DFrame rover) [{| Value := 3 |}; {| Value := 40 |}]
    = Returns (Some {| spatial.Point := {| r3.X := 3; r3.Y := 40; r3.Z := 0 |};
                       spatial.PoseOrientation := spatial.NewZeroOrientation |}, err)
    /\ tagged err.
Proof.
  exact (mobile2DFrame_Transform_plane "rover"
           [{| Min := -5; Max := 5 |}; {| Min := -5; Max := 5 |}] None
           (Mobile2DFrame rover) 3 40 eq_refl).
Defined.

Lemma rotationalFrame_Transform_rotates_witness :
  exists err,
    Transform (RotationalFrame elbow) [{| Value := 4 |}]
    = Returns (Some {| spatial.Point := r3.zero;
                       spatial.PoseOrientation :=
                         spatial.AxisAngle
                           {| spatial.Theta := 4; spatial.RX := 0;
                              spatial.RY := 0; spatial.RZ := 1 |} |}, err)
    /\ tagged err.
Proof.
  exact (rotationalFrame_Transform_rotates "elbow"
           {| spatial.Theta := 0; spatial.RX := 0; spatial.RY := 0; spatial.RZ := 1 |}
           {| Min := -3; Max := 3 |} (RotationalFrame elbow) 4 eq_refl).
Defined.

Lemma tailGeometryStaticFrame_differs_witness :
  Geometries (StaticFrame plinth) []
  = Returns (Some {| frame := "plinth";
                     geometries :=
                       [{| label := "box"; placements := [spatial.NewZeroPose] |}] |},
             None)
  /\ Geometries (TailGeometryStaticFrame plinth) []
     = Returns (Some {| frame := "plinth";
                        geometries :=
                          [{| label := "box";
                              placements :=
                                [spatial.NewPoseFromPoint
                                   {| r3.X := 1; r3.Y := 2; r3.Z := 0 |}] |}] |},
                None).
Proof.
  exact (proj2 (proj2 (proj2 (proj2 (proj2
           (tailGeometryStaticFrame_differs plinth [])))))
           box eq_refl).
Defined.

Lemma protobuf_round_trip_witness :
  (exists jp',
      ProtobufFromInput (NewNamedFrame (TranslationalFrame gantry) "arm")
        [{| Value := 1 |}; {| Value := 2 |}; {| Value := 3 |}]
      = Returns jp'
      /\ InputFromProtobuf (NewNamedFrame (TranslationalFrame gantry) "arm") (Some jp')
         = Returns [{| Value := 1 |}; {| Value := 2 |}; {| Value := 3 |}])
  /\ (exists inputs',
        InputFromProtobuf (NewNamedFrame (TranslationalFrame gantry) "arm")
          (Some {| pb.Values := [4; 5]%float |})
        = Returns inputs'
        /\ ProtobufFromInput (NewNamedFrame (TranslationalFrame gantry) "arm") inputs'
           = Returns {| pb.Values := [4; 5]%float |}).
Proof.
  exact (protobuf_round_trip (NewNamedFrame (TranslationalFrame gantry) "arm")
           [{| Value := 1 |}; {| Value := 2 |}; {| Value := 3 |}]
           {| pb.Values := [4; 5]%float |} eq_refl).
Defined.

Lemma RestrictedRandomFrameInputs_values_witness :
  exists r,
    nth_error (fst (draws (length (DoF (Mobile2DFrame rover))) (seedOf None))) 1 = Some r
    /\ nth_error (fst (RestrictedRandomFrameInputs (Mobile2DFrame rover) None 0.5)) 1
       = Some {| Value := (0.5 * (5 - -5) * r + -5 + (5 - -5) * (1 - 0.5) / 2)%float |}.
Proof.
  exact (proj1 (proj2 (RestrictedRandomFrameInputs_values (Mobile2DFrame rover) None 0.5))
           1 {| Min := -5; Max := 5 |} eq_refl).
Defined.

Lemma RestrictedRandomFrameInputs_whole_range_witness :
  exists v w,
    nth_error (fst (RestrictedRandomFrameInputs (Mobile2DFrame rover) None 1)) 1
    = Some {| Value := v |}
    /\ nth_error (fst (RandomFrameInputs (Mobile2DFrame rover) None)) 1
       = Some {| Value := w |}
    /\ (v =? w)%float = true
    /\ withinLimit {| Value := v |} {| Min := -5; Max := 5 |} = true.
Proof.
  exact (RestrictedRandomFrameInputs_whole_range (Mobile2DFrame rover) None 1
           {| Min := -5; Max := 5 |} 0.25 eq_refl eq_refl eq_refl eq_refl eq_refl eq_refl).
Defined.

Lemma AlmostEquals_same_name_witness :
  Name (unwrapped (NewNamedFrame (TranslationalFrame gantry) "arm"))
  = Name (TranslationalFrame gantry)
  /\ length (DoF (NewNamedFrame (TranslationalFrame gantry) "arm"))
     = length (DoF (TranslationalFrame gantry)).
Proof.
  exact (AlmostEquals_same_name (NewNamedFrame (TranslationalFrame gantry) "arm")
           (TranslationalFrame gantry) eq_refl).
Defined.

Lemma MarshalJSON_errors_witness :
  MarshalJSON (TranslationalFrame slider)
  = Returns (None, Some "cannot marshal frame with >1 DOF, use a Model instead"%string).
Proof.
  exact (proj1 MarshalJSON_errors slider (le_n 2)).
Defined.

Lemma violates_outside_closed_range_witness :
  violates {| Value := 10 |} {| Min := 0; Max := 10 |}
  = negb (withinLimit {| Value := 10 |} {| Min := 0; Max := 10 |}).
Proof.
  exact (violates_outside_closed_range {| Value := 10 |} {| Min := 0; Max := 10 |}
           eq_refl eq_refl eq_refl).
Defined.

Lemma RandomFrameInputs_accepted_witness :
  (exists pose,
      Transform (Mobile2DFrame rover) (fst (RandomFrameInputs (Mobile2DFrame rover) None))
      = Returns (Some pose, None))
  /\ (exists pose,
        Transform (Mobile2DFrame rover)
          (fst (RestrictedRandomFrameInputs (Mobile2DFrame rover) None 1))
        = Returns (Some pose, None)).
Proof.
  exact (RandomFrameInputs_accepted (Mobile2DFrame rover) None eq_refl eq_refl eq_refl).
Defined.

End MoreSamples.
